(** * A shallow embedding of the spreadsheet engine (util.js and the
    Cell / Sheet classes) and the properties of its dependency graph.

    Conventions of the embedding.
    - A JavaScript string is a [list ascii]; upper- and lower-casing are the
      ASCII ones, and the statements about the letter case of a text are
      made for texts of ASCII characters.
    - The engine names its cells by labels, and [Util] computes rows and
      columns on the integers of [Z]; [Float] gives the same arithmetic on
      doubles, with their rounding, the infinities and NaN.  The statements
      about the rows and columns that a label holds are made on [Float], or
      within the bounds where the two agree.
    - A [Set] of strings is a duplicate-free list in insertion order.
    - The regular expressions of util.js are written out as matchers that
      return the length of the match starting at a position. *)

From Stdlib Require Import ZArith Lia Bool Ascii String Arith.
From Stdlib Require Import DecimalString DecimalZ DecimalFacts.
From Stdlib Require Import List.
Import ListNotations.

Open Scope list_scope.
Open Scope Z_scope.

(** ** Characters and strings *)

Definition jsstring := list ascii.

Definition str (s : string) : jsstring := list_ascii_of_string s.
Arguments str s%_string.

(** [c.charCodeAt()]. *)
Definition charCode (c : ascii) : Z := Z.of_N (N_of_ascii c).

(** [String.fromCharCode(n)], on the codes of one byte. *)
Definition fromCharCode (n : Z) : ascii := ascii_of_N (Z.to_N n).

Definition isDigit (c : ascii) : bool := (48 <=? charCode c) && (charCode c <=? 57).
Definition isUpper (c : ascii) : bool := (65 <=? charCode c) && (charCode c <=? 90).
Definition isLower (c : ascii) : bool := (97 <=? charCode c) && (charCode c <=? 122).
Definition isLetter (c : ascii) : bool := isUpper c || isLower c.

(** The class [\w] of a regular expression: letters, digits and underscore. *)
Definition isWordChar (c : ascii) : bool :=
  isLetter c || isDigit c || (charCode c =? 95).

Definition upperChar (c : ascii) : ascii :=
  if isLower c then fromCharCode (charCode c - 32) else c.

Definition lowerChar (c : ascii) : ascii :=
  if isUpper c then fromCharCode (charCode c + 32) else c.

Definition toUpperCase (s : jsstring) : jsstring := map upperChar s.
Definition toLowerCase (s : jsstring) : jsstring := map lowerChar s.

Fixpoint streqb (a b : jsstring) : bool :=
  match a, b with
  | [], [] => true
  | x :: a', y :: b' => Ascii.eqb x y && streqb a' b'
  | _, _ => false
  end.

Fixpoint takeWhile (p : ascii -> bool) (s : jsstring) : jsstring :=
  match s with
  | c :: r => if p c then c :: takeWhile p r else []
  | [] => []
  end.

Fixpoint dropWhile (p : ascii -> bool) (s : jsstring) : jsstring :=
  match s with
  | c :: r => if p c then dropWhile p r else s
  | [] => []
  end.

Definition isNil {A} (l : list A) : bool :=
  match l with [] => true | _ => false end.

Fixpoint lastChar (prev : option ascii) (s : jsstring) : option ascii :=
  match s with
  | [] => prev
  | c :: r => lastChar (Some c) r
  end.

(** Is [p] a prefix of [s]?  With [ci] the comparison ignores letter case
    (the [i] flag). *)
Fixpoint prefixb (ci : bool) (p s : jsstring) : bool :=
  match p, s with
  | [], _ => true
  | x :: p', y :: s' =>
      (if ci then Ascii.eqb (upperChar x) (upperChar y) else Ascii.eqb x y)
      && prefixb ci p' s'
  | _ :: _, [] => false
  end.

(** ** Sets of strings, in insertion order *)

Definition has (s : list jsstring) (x : jsstring) : bool := existsb (streqb x) s.

Definition setAdd (s : list jsstring) (x : jsstring) : list jsstring :=
  if has s x then s else s ++ [x].

Definition setDelete (s : list jsstring) (x : jsstring) : list jsstring :=
  filter (fun y => negb (streqb x y)) s.

(** [new Set(array)]. *)
Definition newSet (l : list jsstring) : list jsstring := fold_left setAdd l [].

Definition setAppend (target l : list jsstring) : list jsstring :=
  fold_left setAdd l target.

Definition setDiff (one another : list jsstring) : list jsstring :=
  filter (fun x => negb (has another x)) one.

Definition setIntersect (one another : list jsstring) : list jsstring :=
  filter (fun x => has another x) one.

(** ** Regular expressions

    A matcher receives the character before the current position (none at
    the start of the text) and the text from the current position on, and
    returns the length of the match that starts there. *)

Definition Regexp := option ascii -> jsstring -> option nat.

Definition isWordOpt (o : option ascii) : bool :=
  match o with Some c => isWordChar c | None => false end.

(** The assertion [\b] between the character [prev] and the text [s]. *)
Definition wordBoundary (prev : option ascii) (s : jsstring) : bool :=
  xorb (isWordOpt prev) (isWordOpt (hd_error s)).

(** The groups of [([a-z]+)(\d+)] matched at the head of [s], with the [i]
    flag, and the text left.  Both quantifiers are greedy; giving back a
    letter leaves a letter where a digit is required, so the letter run is
    the maximal one (the digit run is cut by what follows it, see the
    callers). *)
Definition lettersDigits (s : jsstring) : option (jsstring * jsstring * jsstring) :=
  let ls := takeWhile isLetter s in
  let s1 := dropWhile isLetter s in
  let ds := takeWhile isDigit s1 in
  let s2 := dropWhile isDigit s1 in
  if negb (isNil ls) && negb (isNil ds) then Some (ls, ds, s2) else None.

(** REF_REGEXP = /\b([a-z]+)(\d+)\b/i.  After the maximal digit run the
    closing [\b] holds or fails; a shorter digit run is followed by a digit
    and can never satisfy it. *)
Definition REF_REGEXP : Regexp := fun prev s =>
  if wordBoundary prev s then
    match lettersDigits s with
    | Some (ls, ds, rest) =>
        if wordBoundary (lastChar None ds) rest
        then Some (length ls + length ds)%nat else None
    | None => None
    end
  else None.

(** The two groups of RANGE_REGEXP = /\b([a-z]+\d+):([a-z]+\d+)\b/i matched
    at a position.  The first digit run must be followed by the colon, so it
    is the maximal one as well. *)
Definition rangeGroupsAt (prev : option ascii) (s : jsstring)
  : option (jsstring * jsstring) :=
  if wordBoundary prev s then
    match lettersDigits s with
    | Some (ls1, ds1, ":"%char :: s1) =>
        match lettersDigits s1 with
        | Some (ls2, ds2, rest) =>
            if wordBoundary (lastChar None ds2) rest
            then Some (ls1 ++ ds1, ls2 ++ ds2) else None
        | None => None
        end
    | _ => None
    end
  else None.

Definition RANGE_REGEXP : Regexp := fun prev s =>
  match rangeGroupsAt prev s with
  | Some (g1, g2) => Some (length g1 + 1 + length g2)%nat
  | None => None
  end.

(** [new RegExp(`\\b${w}\\b`, flags)] for a text [w] without regular
    expression operators (the callers pass labels and ranges: letters,
    digits and a colon); [ci] is the [i] flag. *)
Definition wordRegexp (ci : bool) (w : jsstring) : Regexp := fun prev s =>
  if wordBoundary prev s && prefixb ci w s
     && wordBoundary (lastChar prev (firstn (length w) s)) (skipn (length w) s)
  then Some (length w) else None.

(** [new RegExp(`\\b(?<!:)${w}(?!:)\\b`, "g")]: as [wordRegexp], with no
    colon right before and none right after the match. *)
Definition isColon (o : option ascii) : bool :=
  match o with Some c => Ascii.eqb c ":"%char | None => false end.

Definition wordNoColonRegexp (w : jsstring) : Regexp := fun prev s =>
  if wordBoundary prev s && negb (isColon prev) && prefixb false w s
     && negb (isColon (hd_error (skipn (length w) s)))
     && wordBoundary (lastChar prev (firstn (length w) s)) (skipn (length w) s)
  then Some (length w) else None.

(** [text.matchAll(re)] with the [g] flag: the matches from left to right,
    each search starting where the last match ended.  [skip] counts the
    characters of the last match still to step over; none of the regular
    expressions above matches the empty text. *)
Fixpoint matchAllFrom (re : Regexp) (skip : nat) (prev : option ascii)
  (s : jsstring) : list jsstring :=
  match s with
  | [] => []
  | c :: rest =>
      match skip with
      | S k => matchAllFrom re k (Some c) rest
      | O =>
          match re prev s with
          | Some (S n) => firstn (S n) s :: matchAllFrom re n (Some c) rest
          | _ => matchAllFrom re O (Some c) rest
          end
      end
  end.

Definition textScan (text : jsstring) (re : Regexp) : list jsstring :=
  matchAllFrom re O None text.

(** [text.replace(re, value)] with the [g] flag, for a [value] without
    [$] patterns. *)
Fixpoint replaceAllFrom (re : Regexp) (value : jsstring) (skip : nat)
  (prev : option ascii) (s : jsstring) : jsstring :=
  match s with
  | [] => []
  | c :: rest =>
      match skip with
      | S k => replaceAllFrom re value k (Some c) rest
      | O =>
          match re prev s with
          | Some (S n) => value ++ replaceAllFrom re value n (Some c) rest
          | _ => c :: replaceAllFrom re value O (Some c) rest
          end
      end
  end.

Definition replaceRegexp (text : jsstring) (re : Regexp) (value : jsstring) : jsstring :=
  replaceAllFrom re value O None text.

(** [text.match(re)] without the [g] flag: the leftmost match. *)
Fixpoint execFrom {A} (m : option ascii -> jsstring -> option A)
  (prev : option ascii) (s : jsstring) : option A :=
  match m prev s with
  | Some r => Some r
  | None =>
      match s with
      | [] => None
      | c :: rest => execFrom m (Some c) rest
      end
  end.

(** [text.replaceAll(pattern, value)] for a text pattern. *)
Fixpoint replaceAllText (pattern value : jsstring) (skip : nat) (s : jsstring)
  : jsstring :=
  match s with
  | [] => []
  | c :: rest =>
      match skip with
      | S k => replaceAllText pattern value k rest
      | O =>
          if negb (isNil pattern) && prefixb false pattern s
          then value ++ replaceAllText pattern value (length pattern - 1) rest
          else c :: replaceAllText pattern value O rest
      end
  end.

(** ** util.js *)

Module Util.

Definition ALPHABET_LENGTH : Z := charCode "Z" - charCode "A" + 1.

(** [[...Array(number)].map((_, i) => i)]. *)
Definition sequence (number : Z) : list Z :=
  map Z.of_nat (seq 0 (Z.to_nat number)).

Definition sequenceMap {A} (number : Z) (fn : Z -> A) : list A :=
  map fn (sequence number).

(** [array.reduce((acc, x, i) => ..., init)], the callback receiving the
    index. *)
Fixpoint reduceI {A B} (fn : B -> A -> nat -> B) (l : list A) (i : nat) (acc : B) : B :=
  match l with
  | [] => acc
  | x :: r => reduceI fn r (S i) (fn acc x i)
  end.

Definition _colIndexFromSingleLetter (colSingleRef : ascii) : Z :=
  charCode colSingleRef - charCode "A" + 1.

Definition colIndexFromLabel (colRef : jsstring) : Z :=
  reduceI
    (fun acc letter i =>
       acc + _colIndexFromSingleLetter letter
             * ALPHABET_LENGTH ^ Z.of_nat (length colRef - i - 1))
    colRef 0%nat 0.

Definition _colSingleLetter (colIndex : Z) : ascii :=
  fromCharCode (colIndex - 1 + charCode "A").

(** The [while (colIndex >= 0)] loop of [colAsLabel]; [Z.rem] and [Z.quot]
    are JavaScript's [%] and [Math.trunc] of the quotient. *)
Fixpoint colAsLabel_loop (fuel : nat) (colIndex : Z) (colRef : jsstring) : jsstring :=
  match fuel with
  | O => colRef
  | S fuel' =>
      if 0 <=? colIndex then
        colAsLabel_loop fuel'
          (Z.quot colIndex ALPHABET_LENGTH - 1)
          (_colSingleLetter (Z.rem colIndex ALPHABET_LENGTH + 1) :: colRef)
      else colRef
  end.

(** [colAsLabel] of a number.  The loop divides by 26 at each turn, so one
    turn per binary digit of the column is enough ([colAsLabel_loop_exit]). *)
Definition colAsLabel (colIndex : Z) : jsstring :=
  colAsLabel_loop (S (Z.to_nat (Z.log2 colIndex))) (colIndex - 1) [].

(** [Number(digits)] and [String(n)], on runs of decimal digits and on
    integers. *)
Definition Number (digits : jsstring) : Z :=
  match NilEmpty.uint_of_string (string_of_list_ascii digits) with
  | Some u => Z.of_uint u
  | None => 0
  end.

Definition String (n : Z) : jsstring :=
  list_ascii_of_string (NilZero.string_of_int (Z.to_int n)).

Record Coords := { row : Z; col : Z }.

(** The argument of [asRef] and [asCoords]: a label or a [[row, col]]
    array of numbers. *)
Inductive RefOrCoords :=
| Label (ref : jsstring)
| RowCol (row col : Z).

(** [ref.toUpperCase().match(/^([A-Z]+)(\d+)$/i)], then the column and the
    row; [None] is the TypeError raised on [match[1]] when nothing
    matches. *)
Definition _rowColFromRef (ref : jsstring) : option Coords :=
  match lettersDigits (toUpperCase ref) with
  | Some (letters, digits, []) =>
      Some {| row := Number digits; col := colIndexFromLabel letters |}
  | _ => None
  end.

Definition asCoords (refOrCoords : RefOrCoords) : option Coords :=
  match refOrCoords with
  | RowCol r c => Some {| row := r; col := c |}
  | Label ref => _rowColFromRef ref
  end.

Definition asRef (refOrCoords : RefOrCoords) : option jsstring :=
  match asCoords refOrCoords with
  | Some c => Some (colAsLabel (col c) ++ String (row c))
  | None => None
  end.

Definition asRefRC (r c : Z) : jsstring := colAsLabel c ++ String r.

Definition isLineTerminator (c : ascii) : bool :=
  (charCode c =? 10) || (charCode c =? 13).

(** FORMULA_REGEXP: an equals sign at the start, then any characters but
    line terminators up to the end of the text.  [rawFormula] returns what
    follows the equals sign, [None] standing for [undefined]. *)
Definition rawFormula (formula : jsstring) : option jsstring :=
  match formula with
  | "="%char :: rest =>
      if forallb (fun c => negb (isLineTerminator c)) rest then Some rest else None
  | _ => None
  end.

Definition isFormulaText (value : jsstring) : bool :=
  match rawFormula value with Some _ => true | None => false end.

Definition findRefsInFormula (formula : jsstring) : list jsstring :=
  newSet (textScan (toUpperCase formula) REF_REGEXP).

(** [Object.entries(replacements).reduce(...)]: the entries come in
    insertion order, labels never being array indices. *)
Definition templateReplace (template : jsstring)
  (replacements : list (jsstring * jsstring)) : jsstring :=
  fold_left
    (fun acc '(ref, value) => replaceRegexp acc (wordRegexp true ref) value)
    replacements template.

Definition templateReplaceForCopy (template : jsstring)
  (replacements : list (jsstring * jsstring)) : jsstring :=
  toUpperCase
    (fold_left
       (fun acc '(ref, value) =>
          replaceRegexp acc (wordRegexp false (toUpperCase ref)) (toLowerCase value))
       replacements (toUpperCase template)).

Definition templateReplaceForMove (template : jsstring)
  (replacements : list (jsstring * jsstring)) : jsstring :=
  toUpperCase
    (fold_left
       (fun acc '(ref, value) =>
          replaceRegexp acc (wordNoColonRegexp (toUpperCase ref)) (toLowerCase value))
       replacements (toUpperCase template)).

Definition isRef (ref : jsstring) : bool :=
  match lettersDigits ref with
  | Some (_, _, []) => true
  | _ => false
  end.

(** [expandRange]: [None] is the TypeError of [match[1]] on a text that
    holds no range. *)
Definition expandRange (range : jsstring) : option (list (list jsstring)) :=
  match execFrom rangeGroupsAt None range with
  | None => None
  | Some (g1, g2) =>
      match asCoords (Label g1), asCoords (Label g2) with
      | Some topLeftCoords, Some bottomRightCoords =>
          if (row bottomRightCoords <? row topLeftCoords)
             || (col bottomRightCoords <? col topLeftCoords)
          then Some []
          else
            Some
              (sequenceMap (row bottomRightCoords - row topLeftCoords + 1)
                 (fun rowIndex =>
                    sequenceMap (col bottomRightCoords - col topLeftCoords + 1)
                      (fun colIndex =>
                         asRefRC (row topLeftCoords + rowIndex)
                                 (col topLeftCoords + colIndex))))
      | _, _ => None
      end
  end.

Fixpoint join (sep : jsstring) (l : list jsstring) : jsstring :=
  match l with
  | [] => []
  | [x] => x
  | x :: r => x ++ sep ++ join sep r
  end.

Definition dquote : ascii := fromCharCode 34.

(** [JSON.stringify] of an array of arrays of labels (no character of a
    label needs an escape). *)
Definition JSON_stringify (rows : list (list jsstring)) : jsstring :=
  str "[" ++
  join (str ",")
    (map (fun r => str "[" ++ join (str ",") (map (fun x => dquote :: x ++ [dquote]) r) ++ str "]")
       rows)
  ++ str "]".

Definition expandRanges (formula : jsstring) : option jsstring :=
  let ranges := newSet (textScan formula RANGE_REGEXP) in
  fold_left
    (fun acc range =>
       match acc, expandRange range with
       | Some a, Some cells =>
           Some (replaceAllText range
                   (replaceAllText [dquote] [] 0 (JSON_stringify cells)) 0 a)
       | _, _ => None
       end)
    ranges (Some formula).

Definition INVALID_REF : jsstring := str "[invalid ref]".

Definition newRefForCopy (ref source target : jsstring) : option jsstring :=
  match asCoords (Label ref), asCoords (Label source), asCoords (Label target) with
  | Some refCoords, Some sourceCoords, Some targetCoords =>
      let newRow := row refCoords + (row targetCoords - row sourceCoords) in
      let newCol := col refCoords + (col targetCoords - col sourceCoords) in
      if (newRow <? 1) || (newCol <? 1) then Some INVALID_REF
      else Some (asRefRC newRow newCol)
  | _, _, _ => None
  end.

End Util.

(** ** util.js on doubles

    [Util] above computes on the integers of [Z], which is how the engine
    uses labels: as names of cells.  A JavaScript number is a double, and
    [Float] gives the label arithmetic of util.js as it is carried out on
    doubles: a number is a double whose value is an integer, an infinity or
    NaN, and every result is rounded to the nearest double, ties going to the
    even mantissa.  The two agree as long as the numbers stay within
    [2 ^ 53] and the arrays within [2 ^ 32] elements (section "Doubles and
    integers" of the properties). *)

Module Float.

Inductive num :=
| Fin (z : Z)
| PInf
| NInf
| NaN.

(** The integer nearest to [n / d], the even one of two equally near
    ([0 <= n], [0 < d]). *)
Definition nearest (n d : Z) : Z :=
  let q := n / d in
  let r := n mod d in
  if 2 * r <? d then q
  else if d <? 2 * r then q + 1
  else if Z.even q then q else q + 1.

(** The double nearest to a natural number, the exponent set aside: the
    53 leading binary digits, rounded. *)
Definition roundNat (z : Z) : Z :=
  if z <? 2 ^ 53 then z
  else let ulp := 2 ^ (Z.log2 z - 52) in nearest z ulp * ulp.

(** The double nearest to an integer; beyond the largest double, an
    infinity. *)
Definition round (z : Z) : num :=
  let a := roundNat (Z.abs z) in
  if 2 ^ 1024 <=? a then (if z <? 0 then NInf else PInf)
  else Fin (if z <? 0 then - a else a).

Definition neg (x : num) : num :=
  match x with
  | Fin a => Fin (- a)
  | PInf => NInf
  | NInf => PInf
  | NaN => NaN
  end.

(** [x + y], [x - y] and [x * y]. *)
Definition add (x y : num) : num :=
  match x, y with
  | Fin a, Fin b => round (a + b)
  | NaN, _ | _, NaN => NaN
  | PInf, NInf | NInf, PInf => NaN
  | PInf, _ | _, PInf => PInf
  | NInf, _ | _, NInf => NInf
  end.

Definition sub (x y : num) : num := add x (neg y).

Definition sign (x : num) : Z :=
  match x with
  | Fin a => Z.sgn a
  | PInf => 1
  | NInf => -1
  | NaN => 0
  end.

Definition mul (x y : num) : num :=
  match x, y with
  | Fin a, Fin b => round (a * b)
  | NaN, _ | _, NaN => NaN
  | _, _ =>
      match sign x * sign y with
      | Z0 => NaN
      | Zpos _ => PInf
      | Zneg _ => NInf
      end
  end.

(** [x ** k] for an integer [x] and a natural exponent, taken as the double
    nearest to the power (it is the power itself whenever that is a
    double). *)
Definition pow (x : Z) (k : nat) : num := round (x ^ Z.of_nat k).

(** [x < y]: false when either side is NaN. *)
Definition ltb (x y : num) : bool :=
  match x, y with
  | NaN, _ | _, NaN => false
  | Fin a, Fin b => a <? b
  | PInf, _ => false
  | _, NInf => false
  | _, _ => true
  end.

(** [x >= y]. *)
Definition geb (x y : num) : bool :=
  match x, y with
  | NaN, _ | _, NaN => false
  | _, _ => negb (ltb x y)
  end.

(** [x % 26] and [Math.trunc(x / 26)].  The remainder of doubles is exact;
    the quotient is rounded to a double (a fraction of 53 binary digits)
    before it is truncated. *)
Definition rem (x : num) : num :=
  match x with
  | Fin a => Fin (Z.rem a Util.ALPHABET_LENGTH)
  | _ => NaN
  end.

Definition truncQuotNat (a : Z) : Z :=
  let d := Util.ALPHABET_LENGTH in
  if a <? d then 0
  else
    let e := Z.log2 (a / d) in
    if e <=? 52 then nearest (a * 2 ^ (52 - e)) d / 2 ^ (52 - e)
    else nearest a (d * 2 ^ (e - 52)) * 2 ^ (e - 52).

Definition truncQuot (x : num) : num :=
  match x with
  | Fin a => Fin (if a <? 0 then - truncQuotNat (- a) else truncQuotNat a)
  | _ => x
  end.

(** [String(x)]: the decimal digits of an integer below [10 ^ 21]; from
    there on the shortest decimal that rounds to the double, in exponent
    notation. *)
Definition roundsTo (x z : Z) : bool :=
  match round x with
  | Fin r => r =? z
  | _ => false
  end.

Fixpoint shortest (fuel : nat) (k n z : Z) : Z * Z :=
  match fuel with
  | O => (z, n)
  | S fuel' =>
      let p := 10 ^ (n - k) in
      let lo := z / p in
      let hi := lo + 1 in
      let okLo := roundsTo (lo * p) z in
      let okHi := roundsTo (hi * p) z in
      if okLo && okHi then
        let dl := z - lo * p in
        let dh := hi * p - z in
        if dl <? dh then (lo, k)
        else if dh <? dl then (hi, k)
        else if Z.even lo then (lo, k) else (hi, k)
      else if okLo then (lo, k)
      else if okHi then (hi, k)
      else shortest fuel' (k + 1) n z
  end.

Fixpoint dropZeros (rev_digits : jsstring) : jsstring :=
  match rev_digits with
  | "0"%char :: r => dropZeros r
  | _ => rev_digits
  end.

Definition exponential (z : Z) : jsstring :=
  let n := Z.of_nat (length (Util.String z)) in
  let '(s, k) := shortest 17 1 n z in
  let e := n - k + Z.of_nat (length (Util.String s)) - 1 in
  match rev (dropZeros (rev (Util.String s))) with
  | [] => []
  | [d] => d :: str "e+" ++ Util.String e
  | d :: ds => d :: str "." ++ ds ++ str "e+" ++ Util.String e
  end.

Definition String (x : num) : jsstring :=
  match x with
  | Fin z =>
      if Z.abs z <? 10 ^ 21 then Util.String z
      else if z <? 0 then str "-" ++ exponential (- z) else exponential z
  | PInf => str "Infinity"
  | NInf => str "-Infinity"
  | NaN => str "NaN"
  end.

(** [Number(digits)] on a run of decimal digits. *)
Definition Number (digits : jsstring) : num := round (Util.Number digits).

(** What a call gives: a value, a TypeError, a RangeError, or no return at
    all (a loop that never exits). *)
Inductive result (A : Type) :=
| Returns (a : A)
| TypeError
| RangeError
| Loops.

Arguments Returns {A} a.
Arguments TypeError {A}.
Arguments RangeError {A}.
Arguments Loops {A}.

Definition andThen {A B} (r : result A) (k : A -> result B) : result B :=
  match r with
  | Returns a => k a
  | TypeError => TypeError
  | RangeError => RangeError
  | Loops => Loops
  end.

(** [array.map(fn)] for a callback that can raise. *)
Fixpoint mapResult {A B} (fn : A -> result B) (l : list A) : result (list B) :=
  match l with
  | [] => Returns []
  | x :: r =>
      andThen (fn x) (fun y => andThen (mapResult fn r) (fun ys => Returns (y :: ys)))
  end.

(** [[...Array(number)].map((_, i) => i)]: [Array(number)] raises a
    RangeError unless [number] is an integer from 0 to [2 ^ 32 - 1]. *)
Definition sequence (number : num) : result (list num) :=
  match number with
  | Fin n =>
      if (0 <=? n) && (n <? 2 ^ 32)
      then Returns (map (fun i => Fin (Z.of_nat i)) (seq 0 (Z.to_nat n)))
      else RangeError
  | _ => RangeError
  end.

Definition sequenceMap {A} (number : num) (fn : num -> result A) : result (list A) :=
  andThen (sequence number) (mapResult fn).

Definition colIndexFromLabel (colRef : jsstring) : num :=
  Util.reduceI
    (fun acc letter i =>
       add acc
         (mul (Fin (Util._colIndexFromSingleLetter letter))
              (pow Util.ALPHABET_LENGTH (length colRef - i - 1))))
    colRef 0%nat (Fin 0).

(** [String.fromCharCode(colIndex - 1 + "A".charCodeAt(0))]; the code of
    NaN is 0. *)
Definition _colSingleLetter (colIndex : num) : ascii :=
  match colIndex with
  | Fin k => Util._colSingleLetter k
  | _ => fromCharCode 0
  end.

(** The [while (colIndex >= 0)] loop of [colAsLabel]: [None] when the loop
    has not exited after [fuel] turns. *)
Fixpoint colAsLabel_loop (fuel : nat) (colIndex : num) (colRef : jsstring)
  : option jsstring :=
  match fuel with
  | O => if geb colIndex (Fin 0) then None else Some colRef
  | S fuel' =>
      if geb colIndex (Fin 0) then
        colAsLabel_loop fuel'
          (sub (truncQuot colIndex) (Fin 1))
          (_colSingleLetter (add (rem colIndex) (Fin 1)) :: colRef)
      else Some colRef
  end.

(** [colAsLabel] of a number.  The turns given to the loop are the binary
    digits of the column: on a finite double the loop has exited by then
    ([FloatFacts.colAsLabel_exits]); on [Infinity] it does not exit
    ([FloatFacts.colAsLabel_loop_Infinity]), the label growing until the
    engine can hold it no longer. *)
Definition colAsLabel (colIndex : num) : option jsstring :=
  let turns :=
    match colIndex with
    | Fin z => S (Z.to_nat (Z.log2 z))
    | _ => 1%nat
    end in
  colAsLabel_loop turns (sub colIndex (Fin 1)) [].

Record Coords := { row : num; col : num }.

Inductive RefOrCoords :=
| Label (ref : jsstring)
| RowCol (row col : num).

Definition _rowColFromRef (ref : jsstring) : result Coords :=
  match lettersDigits (toUpperCase ref) with
  | Some (letters, digits, []) =>
      Returns {| row := Number digits; col := colIndexFromLabel letters |}
  | _ => TypeError
  end.

(** [asCoords] computes [labelCol: colAsLabel(col)] before it returns. *)
Definition asCoords (refOrCoords : RefOrCoords) : result Coords :=
  andThen
    match refOrCoords with
    | RowCol r c => Returns {| row := r; col := c |}
    | Label ref => _rowColFromRef ref
    end
    (fun c =>
       match colAsLabel (col c) with
       | Some _ => Returns c
       | None => Loops
       end).

Definition asRef (refOrCoords : RefOrCoords) : result jsstring :=
  andThen (asCoords refOrCoords)
    (fun c =>
       match colAsLabel (col c) with
       | Some l => Returns (l ++ String (row c))
       | None => Loops
       end).

Definition expandRange (range : jsstring) : result (list (list jsstring)) :=
  match execFrom rangeGroupsAt None range with
  | None => TypeError
  | Some (g1, g2) =>
      andThen (asCoords (Label g1)) (fun topLeftCoords =>
      andThen (asCoords (Label g2)) (fun bottomRightCoords =>
        if ltb (row bottomRightCoords) (row topLeftCoords)
           || ltb (col bottomRightCoords) (col topLeftCoords)
        then Returns []
        else
          sequenceMap (add (sub (row bottomRightCoords) (row topLeftCoords)) (Fin 1))
            (fun rowIndex =>
               sequenceMap
                 (add (sub (col bottomRightCoords) (col topLeftCoords)) (Fin 1))
                 (fun colIndex =>
                    asRef (RowCol (add (row topLeftCoords) rowIndex)
                                  (add (col topLeftCoords) colIndex))))))
  end.

Definition newRefForCopy (ref source target : jsstring) : result jsstring :=
  andThen (asCoords (Label ref)) (fun refCoords =>
  andThen (asCoords (Label source)) (fun sourceCoords =>
  andThen (asCoords (Label target)) (fun targetCoords =>
    let newRow := add (row refCoords) (sub (row targetCoords) (row sourceCoords)) in
    let newCol := add (col refCoords) (sub (col targetCoords) (col sourceCoords)) in
    if ltb newRow (Fin 1) || ltb newCol (Fin 1) then Returns Util.INVALID_REF
    else asRef (RowCol newRow newCol)))).

End Float.

(** ** Values, cells and the sheet

    A sheet owns cell objects; [cells] maps a label to the object stored
    under it.  Objects live in the store [objs] and are named by their
    position in it, so that an object under construction, which the sheet
    does not list yet, is already there to be mutated. *)

Inductive Value :=
| VUndefined
| VNull
| VNum (n : Z)
| VStr (s : jsstring).

Definition value_eqb (a b : Value) : bool :=
  match a, b with
  | VUndefined, VUndefined => true
  | VNull, VNull => true
  | VNum x, VNum y => x =? y
  | VStr x, VStr y => streqb x y
  | _, _ => false
  end.

Record Cell := mkCell {
  ref : jsstring;
  value : Value;
  subjects : list jsstring;   (* Cells who I watch for changes. *)
  observers : list jsstring;  (* Cells who watch me for changes. *)
  modified : bool;
  evaluated : bool;
  invalid : bool;
  errorMessage : Value;
  evaluatedValue : Value
}.

(** The fields a constructor sets before it calls [setValue]. *)
Definition blankCell (r : jsstring) : Cell :=
  {| ref := r; value := VUndefined; subjects := []; observers := [];
     modified := false; evaluated := false; invalid := false;
     errorMessage := VUndefined; evaluatedValue := VUndefined |}.

Definition set_value v (c : Cell) := 
  mkCell (ref c) v (subjects c) (observers c) (modified c) (evaluated c)
         (invalid c) (errorMessage c) (evaluatedValue c).
Definition set_subjects s (c : Cell) :=
  mkCell (ref c) (value c) s (observers c) (modified c) (evaluated c)
         (invalid c) (errorMessage c) (evaluatedValue c).
Definition set_observers o (c : Cell) :=
  mkCell (ref c) (value c) (subjects c) o (modified c) (evaluated c)
         (invalid c) (errorMessage c) (evaluatedValue c).
Definition set_modified b (c : Cell) :=
  mkCell (ref c) (value c) (subjects c) (observers c) b (evaluated c)
         (invalid c) (errorMessage c) (evaluatedValue c).
Definition set_evaluated b (c : Cell) :=
  mkCell (ref c) (value c) (subjects c) (observers c) (modified c) b
         (invalid c) (errorMessage c) (evaluatedValue c).
Definition set_invalid b (c : Cell) :=
  mkCell (ref c) (value c) (subjects c) (observers c) (modified c) (evaluated c)
         b (errorMessage c) (evaluatedValue c).
Definition set_errorMessage m (c : Cell) :=
  mkCell (ref c) (value c) (subjects c) (observers c) (modified c) (evaluated c)
         (invalid c) m (evaluatedValue c).
Definition set_evaluatedValue v (c : Cell) :=
  mkCell (ref c) (value c) (subjects c) (observers c) (modified c) (evaluated c)
         (invalid c) (errorMessage c) v.

(** [evaluations] is a ghost field: the labels of the cells whose value was
    recomputed, in order (one entry for each run of [_evaluateValue] that
    passes its [evaluated] guard, where the source prints its DEBUG line
    about the new value). *)
Record Sheet := mkSheet {
  objs : list Cell;
  cells : list (jsstring * nat);
  evaluations : list jsstring
}.

Definition emptySheet : Sheet := mkSheet [] [] [].

Inductive Error :=
| TypeError
| InvalidRefInFormula (message : jsstring).

Inductive Res (A : Type) :=
| Ok (a : A)
| Throw (e : Error)
| OutOfFuel.
Arguments Ok {A} a.
Arguments Throw {A} e.
Arguments OutOfFuel {A}.

(** Computations on the sheet that may raise an exception. *)
Definition M (A : Type) := Sheet -> Res (A * Sheet).

Definition ret {A} (a : A) : M A := fun sh => Ok (a, sh).

Definition bind {A B} (m : M A) (k : A -> M B) : M B := fun sh =>
  match m sh with
  | Ok (a, sh') => k a sh'
  | Throw e => Throw e
  | OutOfFuel => OutOfFuel
  end.

Definition throw {A} (e : Error) : M A := fun _ => Throw e.
Definition outOfFuel {A} : M A := fun _ => OutOfFuel.

Declare Scope sheet_scope.
Delimit Scope sheet_scope with sheet.
Notation "x <- c1 ;; c2" := (bind c1 (fun x => c2))
  (at level 61, c1 at next level, right associativity) : sheet_scope.
Notation "' pat <- c1 ;; c2" := (bind c1 (fun x => match x with pat => c2 end))
  (at level 61, pat pattern, c1 at next level, right associativity) : sheet_scope.
Notation "c1 ;; c2" := (bind c1 (fun _ => c2))
  (at level 61, right associativity) : sheet_scope.
Open Scope sheet_scope.

(** A value that must not be [undefined]: reading a property of
    [undefined] raises a TypeError. *)
Definition defined {A} (o : option A) : M A :=
  match o with Some a => ret a | None => throw TypeError end.

Definition getCell (a : nat) : M Cell := fun sh =>
  Ok (nth a (objs sh) (blankCell []), sh).

Fixpoint updateNth {A} (n : nat) (f : A -> A) (l : list A) : list A :=
  match l, n with
  | [], _ => []
  | x :: r, O => f x :: r
  | x :: r, S n' => x :: updateNth n' f r
  end.

Definition modifyCell (a : nat) (f : Cell -> Cell) : M unit := fun sh =>
  Ok (tt, mkSheet (updateNth a f (objs sh)) (cells sh) (evaluations sh)).

Definition allocCell (c : Cell) : M nat := fun sh =>
  Ok (length (objs sh), mkSheet (objs sh ++ [c]) (cells sh) (evaluations sh)).

Definition logEvaluation (r : jsstring) : M unit := fun sh =>
  Ok (tt, mkSheet (objs sh) (cells sh) (evaluations sh ++ [r])).

Fixpoint lookupCell (r : jsstring) (l : list (jsstring * nat)) : option nat :=
  match l with
  | [] => None
  | (k, a) :: rest => if streqb r k then Some a else lookupCell r rest
  end.

(** [cells[r] = a]: an existing key keeps its place. *)
Fixpoint storeCell (r : jsstring) (a : nat) (l : list (jsstring * nat))
  : list (jsstring * nat) :=
  match l with
  | [] => [(r, a)]
  | (k, b) :: rest =>
      if streqb r k then (k, a) :: rest else (k, b) :: storeCell r a rest
  end.

Definition getCells : M (list (jsstring * nat)) := fun sh => Ok (cells sh, sh).

Definition setCellsEntry (r : jsstring) (a : nat) : M unit := fun sh =>
  Ok (tt, mkSheet (objs sh) (storeCell r a (cells sh)) (evaluations sh)).

(** [list.forEach(fn)]. *)
Fixpoint forEach {A} (l : list A) (fn : A -> M unit) : M unit :=
  match l with
  | [] => ret tt
  | x :: r => fn x ;; forEach r fn
  end.

(** [list.some(fn)], which stops at the first [true]. *)
Fixpoint some {A} (l : list A) (fn : A -> M bool) : M bool :=
  match l with
  | [] => ret false
  | x :: r => b <- fn x ;; if b then ret true else some r fn
  end.

(** [list.flatMap(fn)]. *)
Fixpoint flatMap {A B} (l : list A) (fn : A -> M (list B)) : M (list B) :=
  match l with
  | [] => ret []
  | x :: r => ys <- fn x ;; zs <- flatMap r fn ;; ret (ys ++ zs)
  end.

(** [list.reduce(fn, init)]. *)
Fixpoint reduce {A B} (l : list A) (fn : B -> A -> M B) (init : B) : M B :=
  match l with
  | [] => ret init
  | x :: r => acc <- fn init x ;; reduce r fn acc
  end.

(** ** Sheet: looking cells up *)

Definition findCell (refOrCoords : Util.RefOrCoords) : M (option nat) :=
  r <- defined (Util.asRef refOrCoords) ;;
  cs <- getCells ;;
  ret (lookupCell r cs).

(** [findOrCreateCell(refOrCoords)].  No caller passes [valueIfNew], so the
    constructor runs [setValue(undefined)] on a cell whose value is
    [undefined]: the branch of [setValue] that does nothing.  The
    constructor applies [asRef] to the label once more. *)
Definition findOrCreateCell (refOrCoords : Util.RefOrCoords) : M nat :=
  r <- defined (Util.asRef refOrCoords) ;;
  cs <- getCells ;;
  match lookupCell r cs with
  | Some a => setCellsEntry r a ;; ret a
  | None =>
      r' <- defined (Util.asRef (Util.Label r)) ;;
      a <- allocCell (blankCell r') ;;
      setCellsEntry r a ;;
      ret a
  end.

Definition _registerObserver (this : nat) (observer : jsstring) : M unit :=
  modifyCell this (fun c => set_observers (setAdd (observers c) observer) c).

Definition _unregisterObserver (this : nat) (observer : jsstring) : M unit :=
  modifyCell this (fun c => set_observers (setDelete (observers c) observer) c).

(** ** Cell *)

Definition isFormula (v : Value) : bool :=
  match v with
  | VStr s => Util.isFormulaText s
  | _ => false
  end.

(** [String(v)], as [replace] applies it to a replacement value. *)
Definition toString (v : Value) : jsstring :=
  match v with
  | VUndefined => str "undefined"
  | VNull => str "null"
  | VNum n => Util.String n
  | VStr s => s
  end.

Definition isSpace (c : ascii) : bool :=
  ((9 <=? charCode c) && (charCode c <=? 13)) || (charCode c =? 32).

(** [Util.isEmpty]. *)
Definition isEmpty (v : Value) : bool :=
  match v with
  | VUndefined | VNull => true
  | VStr s => forallb isSpace s
  | VNum _ => false
  end.

(** [Object.is(Number(v), NaN)], a text being a number when it is an
    optional sign and decimal digits between blanks (other spellings of
    numbers are outside the model). *)
Definition numberIsNaN (v : Value) : bool :=
  match v with
  | VUndefined => true
  | VNull => false
  | VNum _ => false
  | VStr s =>
      let t := rev (dropWhile isSpace (rev (dropWhile isSpace s))) in
      let digits :=
        match t with
        | "-"%char :: d => d
        | "+"%char :: d => d
        | _ => t
        end in
      match t with
      | [] => false
      | _ => negb (negb (isNil digits) && forallb isDigit digits)
      end
  end.

Definition _extractCells (v : jsstring) : list jsstring := Util.findRefsInFormula v.

(** The text of a value used as a text ([value.match], [text.matchAll]):
    a value of another type has no such method. *)
Definition asText (v : Value) : M jsstring :=
  match v with
  | VStr s => ret s
  | _ => throw TypeError
  end.

(** The callback of [[...subjects].some(...)] in [_hasCircularDependency],
    run over the labels [l]: a label already in [visited] counts as [false];
    another one is pushed on [visited] and handed to [visit].  The array
    [visited] is shared by all the calls of one traversal, so it is threaded
    through them. *)
Fixpoint someSubject (visit : jsstring -> list jsstring -> M (bool * list jsstring))
  (l : list jsstring) (visited : list jsstring) : M (bool * list jsstring) :=
  match l with
  | [] => ret (false, visited)
  | r :: rest =>
      if has visited r then someSubject visit rest visited
      else
        ' (found, visited') <- visit r (visited ++ [r]) ;;
        if found then ret (true, visited')
        else someSubject visit rest visited'
  end.

(** [_hasCircularDependency(subjects, visited)] of the cell labelled
    [thisRef]. *)
Fixpoint _hasCircularDependency (fuel : nat) (thisRef : jsstring)
  (subjectSet : list jsstring) (visited : list jsstring)
  : M (bool * list jsstring) :=
  match fuel with
  | O => outOfFuel
  | S fuel' =>
      if has subjectSet thisRef then ret (true, visited)
      else
        someSubject
          (fun r visited' =>
             subject <- findOrCreateCell (Util.Label r) ;;
             c <- getCell subject ;;
             _hasCircularDependency fuel' thisRef (subjects c) visited')
          subjectSet visited
  end.

(** The callback of [[...this.observers].flatMap(...)] in
    [descendantObservers], run over the labels [l]. *)
Fixpoint flatMapObservers
  (visit : jsstring -> list jsstring -> M (list jsstring * list jsstring))
  (l : list jsstring) (visited : list jsstring)
  : M (list jsstring * list jsstring) :=
  match l with
  | [] => ret ([], visited)
  | r :: rest =>
      if has visited r then flatMapObservers visit rest visited
      else
        ' (ds, visited1) <- visit r (visited ++ [r]) ;;
        ' (es, visited2) <- flatMapObservers visit rest visited1 ;;
        ret (ds ++ es, visited2)
  end.

(** [descendantObservers(visited)]: the result set and the array [visited]
    as the call leaves it. *)
Fixpoint descendantObservers (fuel : nat) (this : nat) (visited : list jsstring)
  : M (list jsstring * list jsstring) :=
  match fuel with
  | O => outOfFuel
  | S fuel' =>
      c <- getCell this ;;
      ' (items, visited') <-
        flatMapObservers
          (fun r visited' =>
             o <- findCell (Util.Label r) ;;
             observer <- defined o ;;
             descendantObservers fuel' observer visited')
          (observers c) visited ;;
      ret (setAppend (newSet [ref c]) items, visited')
  end.

(** [_valueForFormulaCalculation(defaultValue)]. *)
Definition _valueForFormulaCalculation (c : Cell) (defaultValue : Value) : Value :=
  if isEmpty (value c) then defaultValue
  else if isFormula (value c) then evaluatedValue c
  else if numberIsNaN (value c) then defaultValue
  else evaluatedValue c.

(** [_parseFormula()]: [None] is the [undefined] of [rawFormula]. *)
Definition _parseFormula (this : nat) : M (option jsstring) :=
  c <- getCell this ;;
  subjectValues <-
    reduce (subjects c)
      (fun acc r =>
         o <- findCell (Util.Label r) ;;
         a <- defined o ;;
         cell <- getCell a ;;
         if invalid cell
         then throw (InvalidRefInFormula (str "Invalid ref [" ++ r ++ str "]"))
         else ret (acc ++ [(r, toString (_valueForFormulaCalculation cell (VNum 0)))]))
      [] ;;
  text <- asText (value c) ;;
  expanded <- defined (Util.expandRanges text) ;;
  ret (Util.rawFormula (Util.templateReplace expanded subjectValues)).

(** [try { m } catch (e) { if (e instanceof Util.InvalidRefInFormula) ... else throw e }]:
    the message of the caught exception, or the result.  The sheet after a
    caught exception is the one before [m]: the only [m] this is used with,
    [_parseFormula], reads the sheet and writes nothing. *)
Definition catchInvalidRef {A} (m : M A) : M (jsstring + A) := fun sh =>
  match m sh with
  | Ok (a, sh') => Ok (inr a, sh')
  | Throw (InvalidRefInFormula msg) => Ok (inl msg, sh)
  | Throw e => Throw e
  | OutOfFuel => OutOfFuel
  end.

Section Evaluation.

(** JavaScript's [eval] on the text of a formula, in the scope of the
    functions SUM, COUNT, AVG, MAX, MIN, ROWS and COLS: the value of the
    expression, [None] when it raises an exception.  The values are those of
    [Value]; a formula whose value is an array or an object is outside the
    model. *)
Variable eval : jsstring -> option Value.

(** [_evaluateValue] and, inside it, the loop of [_notifyObservers] (which
    goes through [_updateObserver] back to [_evaluateValue]). *)
Fixpoint _evaluateValue (fuel : nat) (this : nat)
  (updatedCellDescendantObservers : list jsstring) : M unit :=
  match fuel with
  | O => outOfFuel
  | S fuel' =>
      c <- getCell this ;;
      if evaluated c then ret tt
      else
        modifyCell this (set_evaluated true) ;;
        modifyCell this (set_invalid false) ;;
        modifyCell this (set_errorMessage VNull) ;;
        let previousValue := evaluatedValue c in
        (if isFormula (value c) then
           r <- catchInvalidRef (_parseFormula this) ;;
           match r with
           | inl message =>
               modifyCell this (set_evaluatedValue VNull) ;;
               modifyCell this (set_invalid true) ;;
               modifyCell this (set_errorMessage (VStr message))
           | inr parsedFormula =>
               match parsedFormula with
               | None => modifyCell this (set_evaluatedValue VUndefined)
               | Some text =>
                   match eval text with
                   | Some v => modifyCell this (set_evaluatedValue v)
                   | None =>
                       modifyCell this (set_evaluatedValue VNull) ;;
                       modifyCell this (set_invalid true) ;;
                       modifyCell this (set_errorMessage (VStr (str "Invalid formula")))
                   end
               end
           end
         else modifyCell this (set_evaluatedValue (value c))) ;;
        logEvaluation (ref c) ;;
        c' <- getCell this ;;
        if negb (value_eqb (evaluatedValue c') previousValue) then
          modifyCell this (set_modified true) ;;
          (* _notifyObservers *)
          forEach (observers c')
            (fun r =>
               o <- findCell (Util.Label r) ;;
               observer <- defined o ;;
               oc <- getCell observer ;;
               let commonCells :=
                 setIntersect (subjects oc) updatedCellDescendantObservers in
               nonEvaluatedCommonCells <-
                 reduce commonCells
                   (fun acc commonCellRef =>
                      o' <- findCell (Util.Label commonCellRef) ;;
                      a <- defined o' ;;
                      cc <- getCell a ;;
                      ret (if negb (evaluated cc) then acc ++ [commonCellRef] else acc))
                   [] ;;
               if (0 <? Z.of_nat (length nonEvaluatedCommonCells)) then ret tt
               else (* observer._updateObserver *)
                 _evaluateValue fuel' observer updatedCellDescendantObservers)
        else ret tt
  end.

(** [setValue(newValue, descendantObservers)]. *)
Definition setValue (fuel : nat) (this : nat) (newValue : Value)
  (descendants : option (list jsstring)) : M unit :=
  c <- getCell this ;;
  if negb (value_eqb (value c) newValue) then
    modifyCell this (set_value newValue) ;;
    modifyCell this (set_modified true) ;;
    modifyCell this (set_invalid false) ;;
    modifyCell this (set_errorMessage VNull) ;;
    let oldSubjects := subjects c in
    newSubjects <-
      (if isFormula newValue then
         text <- asText newValue ;;
         expanded <- defined (Util.expandRanges text) ;;
         ret (_extractCells expanded)
       else ret []) ;;
    ' (circular, _) <- _hasCircularDependency fuel (ref c) newSubjects [] ;;
    (if circular then
       modifyCell this (set_evaluatedValue VNull) ;;
       modifyCell this (set_invalid true) ;;
       modifyCell this (set_errorMessage (VStr (str "Circular dependency")))
     else ret tt) ;;
    c1 <- getCell this ;;
    if negb (invalid c1) then
      modifyCell this (set_subjects newSubjects) ;;
      let subjectsAdded := setDiff newSubjects oldSubjects in
      let subjectsRemoved := setDiff oldSubjects newSubjects in
      forEach subjectsAdded
        (fun r => a <- findOrCreateCell (Util.Label r) ;; _registerObserver a (ref c)) ;;
      forEach subjectsRemoved
        (fun r => a <- findOrCreateCell (Util.Label r) ;; _unregisterObserver a (ref c)) ;;
      frontier <-
        match descendants with
        | Some d => ret d
        | None => ' (d, _) <- descendantObservers fuel this [] ;; ret d
        end ;;
      _evaluateValue fuel this frontier
    else ret tt
  else ret tt.

(** [new Cell(refOrCoords, value, sheet)]: the object is not stored in
    [cells] by the constructor. *)
Definition newCell (fuel : nat) (refOrCoords : Util.RefOrCoords) (v : Value) : M nat :=
  r <- defined (Util.asRef refOrCoords) ;;
  this <- allocCell (blankCell r) ;;
  setValue fuel this v None ;;
  ret this.

(** [Sheet.updateOrCreateCell]. *)
Definition updateOrCreateCell (fuel : nat) (refOrCoords : Util.RefOrCoords)
  (valueIfNew : Value) (descendants : option (list jsstring)) : M nat :=
  o <- findCell refOrCoords ;;
  match o with
  | Some cell => setValue fuel cell valueIfNew descendants ;; ret cell
  | None =>
      r <- defined (Util.asRef refOrCoords) ;;
      cell <- newCell fuel (Util.Label r) valueIfNew ;;
      setCellsEntry r cell ;;
      ret cell
  end.

(** [Object.values(this.cells).forEach((cell) => (cell.evaluated = false))]. *)
Definition resetEvaluated : M unit :=
  cs <- getCells ;;
  forEach cs (fun '(_, a) => modifyCell a (set_evaluated false)).

(** [Sheet._loadInitialCellData]. *)
Definition _loadInitialCellData (fuel : nat)
  (initialCellData : list (jsstring * Value)) : M unit :=
  forEach initialCellData
    (fun '(r, v) =>
       updateOrCreateCell fuel (Util.Label r) v None ;;
       resetEvaluated).

(** [Cell.copyTo(targetRef)]. *)
Definition copyTo (fuel : nat) (this : nat) (targetRef : jsstring) : M nat :=
  c <- getCell this ;;
  copiedValue <-
    (if isFormula (value c) then
       text <- asText (value c) ;;
       let subjectSet := _extractCells text in
       subjectNewRefs <-
         reduce subjectSet
           (fun acc r =>
              n <- defined (Util.newRefForCopy r (ref c) targetRef) ;;
              ret (acc ++ [(r, n)]))
           [] ;;
       ret (VStr (Util.templateReplaceForCopy text subjectNewRefs))
     else ret (value c)) ;;
  resetEvaluated ;;
  updateOrCreateCell fuel (Util.Label targetRef) copiedValue None.

Definition splitColon (range : jsstring) : jsstring * jsstring :=
  (takeWhile (fun c => negb (Ascii.eqb c ":"%char)) range,
   tl (dropWhile (fun c => negb (Ascii.eqb c ":"%char)) range)).

(** The loop of [moveTo] over the ranges of an observer's formula: one
    turn, for the range [range]. *)
Definition moveRange (thisRef targetRef : jsstring) (sourceRefs : list jsstring)
  (observerValue : jsstring) (range : jsstring) : option jsstring :=
  match Util.expandRange range with
  | None => None
  | Some rows =>
      let rangeCells := newSet (concat rows) in
      let rangeCellsNotInMove := setDiff rangeCells (newSet sourceRefs) in
      if (Z.of_nat (length rangeCellsNotInMove) =? 0) then
        let '(fromRef, toRef) := splitColon range in
        match Util.newRefForCopy fromRef thisRef targetRef,
              Util.newRefForCopy toRef thisRef targetRef with
        | Some newFromRef, Some newToRef =>
            Some (replaceRegexp observerValue (wordRegexp false range)
                    (Util.join (str ":") [newFromRef; newToRef]))
        | _, _ => None
        end
      else Some observerValue
  end.

(** The new text of an observer's formula in [moveTo]. *)
Definition movedObserverValue (thisRef targetRef : jsstring)
  (sourceRefs : list jsstring) (observerValue : jsstring) : option jsstring :=
  let ranges := newSet (textScan observerValue RANGE_REGEXP) in
  match
    fold_left
      (fun acc range =>
         match acc with
         | Some v => moveRange thisRef targetRef sourceRefs v range
         | None => None
         end)
      ranges (Some observerValue)
  with
  | Some v => Some (Util.templateReplaceForMove v [(thisRef, targetRef)])
  | None => None
  end.


End Evaluation.

(** ** An evaluator for the examples

    [evalArith] computes what [eval] returns on sums, differences and
    products of decimal integer literals (no leading zero, no two signs in
    a row); every other text is reported as raising an exception.  It is
    used to run the engine on concrete sheets only. *)

Inductive token := TNum (n : Z) | TPlus | TMinus | TTimes.

Fixpoint lex (fuel : nat) (s : jsstring) : option (list token) :=
  match fuel with
  | O => match s with [] => Some [] | _ => None end
  | S fuel' =>
      match s with
      | [] => Some []
      | c :: rest =>
          if isDigit c then
            let ds := takeWhile isDigit s in
            match ds with
            | "0"%char :: _ :: _ => None
            | _ =>
                match lex fuel' (dropWhile isDigit s) with
                | Some ts => Some (TNum (Util.Number ds) :: ts)
                | None => None
                end
            end
          else
            let op :=
              if Ascii.eqb c "+"%char then Some TPlus
              else if Ascii.eqb c "-"%char then Some TMinus
              else if Ascii.eqb c "*"%char then Some TTimes
              else None in
            match op, lex fuel' rest with
            | Some t, Some ts => Some (t :: ts)
            | _, _ => None
            end
      end
  end.

Definition parseFactor (ts : list token) : option (Z * list token) :=
  match ts with
  | TNum n :: r => Some (n, r)
  | TMinus :: TNum n :: r => Some (- n, r)
  | TPlus :: TNum n :: r => Some (n, r)
  | _ => None
  end.

Fixpoint parseTermRest (fuel : nat) (acc : Z) (ts : list token) : option (Z * list token) :=
  match fuel, ts with
  | S fuel', TTimes :: r =>
      match parseFactor r with
      | Some (n, r') => parseTermRest fuel' (acc * n) r'
      | None => None
      end
  | _, _ => Some (acc, ts)
  end.

Definition parseTerm (ts : list token) : option (Z * list token) :=
  match parseFactor ts with
  | Some (n, r) => parseTermRest (length r) n r
  | None => None
  end.

Fixpoint parseExprRest (fuel : nat) (acc : Z) (ts : list token) : option Z :=
  match fuel, ts with
  | _, [] => Some acc
  | S fuel', TPlus :: r =>
      match parseTerm r with
      | Some (n, r') => parseExprRest fuel' (acc + n) r'
      | None => None
      end
  | S fuel', TMinus :: r =>
      match parseTerm r with
      | Some (n, r') => parseExprRest fuel' (acc - n) r'
      | None => None
      end
  | _, _ => None
  end.

Definition evalArith (text : jsstring) : option Value :=
  match lex (length text) text with
  | Some ts =>
      match parseTerm ts with
      | Some (n, r) =>
          match parseExprRest (length r) n r with
          | Some v => Some (VNum v)
          | None => None
          end
      | None => None
      end
  | None => None
  end.

(** [new Sheet(initialCellData)]. *)
Definition newSheet (eval : jsstring -> option Value) (fuel : nat)
  (initialCellData : list (jsstring * Value)) : Res (unit * Sheet) :=
  _loadInitialCellData eval fuel initialCellData emptySheet.

(** What a reader of the sheet sees of the cell stored under a label. *)
Definition cellOf (sh : Sheet) (r : jsstring) : option Cell :=
  match lookupCell r (cells sh) with
  | Some a => Some (nth a (objs sh) (blankCell []))
  | None => None
  end.

Definition run {A} (m : M A) (sh : Sheet) : option Sheet :=
  match m sh with
  | Ok (_, sh') => Some sh'
  | _ => None
  end.

(** * The vocabulary of the statements

    Predicates on labels, sheets and texts, and the sheets of the
    examples, grouped as the properties that use them are. *)

(** ** Texts and labels *)

(** The text [s] does not start with a character that satisfies [p]. *)
Definition stops (p : ascii -> bool) (s : jsstring) : Prop :=
  match s with [] => True | c :: _ => p c = false end.

(** The value of a label, letter by letter. *)
Fixpoint weighted (l : jsstring) : Z :=
  match l with
  | [] => 0
  | c :: r => Util._colIndexFromSingleLetter c * Util.ALPHABET_LENGTH ^ Z.of_nat (length r) + weighted r
  end.

(** A label in two parts: letters, then digits. *)
Definition labelParts (letters digits : jsstring) : Prop :=
  letters <> [] /\ forallb isLetter letters = true
  /\ digits <> [] /\ forallb isDigit digits = true.

(** The same, the letters being upper-case ones. *)
Definition upperLabelParts (letters digits : jsstring) : Prop :=
  letters <> [] /\ forallb isUpper letters = true
  /\ digits <> [] /\ forallb isDigit digits = true.

(** The digits of a row written without a leading zero ("0" itself has
    none). *)
Definition noLeadingZero (digits : jsstring) : bool :=
  match digits with
  | [c] => true
  | c :: _ => negb (Ascii.eqb c "0")
  | [] => false
  end.

(** A text [asRef] accepts: letters, then digits. *)
Definition validLabel (r : jsstring) : Prop := Util.asRef (Util.Label r) <> None.

(** ** The store and the map of cells *)

(** The object at a position of the store; past its end, a blank cell
    without a label. *)
Definition cellAt (sh : Sheet) (a : nat) : Cell := nth a (objs sh) (blankCell []).

(** A cell as [findOrCreateCell] creates it. *)
Definition isBlank (c : Cell) : Prop := exists k, c = blankCell k.

(** [grown sh sh']: [sh'] is [sh] with blank cells added for labels that had
    none. *)
Definition grown (sh sh' : Sheet) : Prop :=
  (exists extra, objs sh' = objs sh ++ extra /\ Forall isBlank extra)
  /\ (forall k a, lookupCell k (cells sh) = Some a -> lookupCell k (cells sh') = Some a)
  /\ (forall k a, lookupCell k (cells sh') = Some a ->
        lookupCell k (cells sh) = Some a
        \/ (lookupCell k (cells sh) = None /\ (length (objs sh) <= a)%nat))
  /\ evaluations sh' = evaluations sh.

(** The subjects of the cell a label names (none when it names no cell). *)
Definition subjOf (sh : Sheet) (r : jsstring) : list jsstring :=
  match Util.asRef (Util.Label r) with
  | Some k =>
      match lookupCell k (cells sh) with
      | Some a => subjects (cellAt sh a)
      | None => []
      end
  | None => []
  end.

(** ** The traversal of the cycle check *)

(** The labels of [U] not visited yet: what bounds the depth of a
    traversal. *)
Definition remaining (U V : list jsstring) : nat :=
  length (filter (fun x => negb (has V x)) U).

(** The subjects of every cell are labels [asRef] accepts, and lie within
    [U]. *)
Definition wfSubjects (sh : Sheet) : Prop :=
  forall a r, In r (subjects (cellAt sh a)) -> validLabel r.

Definition subjectsWithin (U : list jsstring) (sh : Sheet) : Prop :=
  forall a, incl (subjects (cellAt sh a)) U.

(** [refersTo sh target S]: the labels [S] hold [target], or lead to it
    through the subjects of the cells they name. *)
Inductive refersTo (sh : Sheet) (target : jsstring) : list jsstring -> Prop :=
| refers_direct (S : list jsstring) :
    In target S -> refersTo sh target S
| refers_through (S : list jsstring) (r : jsstring) :
    In r S -> refersTo sh target (subjOf sh r) -> refersTo sh target S.

(** What a traversal started with the array [V] has done when it returns
    [b] with the array [V']: it has added blank cells for the labels it
    visited; and when it has found nothing, no cell it visited lists
    [thisRef] among its subjects, and all their subjects are visited. *)
Definition visitPost (thisRef : jsstring) (V : list jsstring) (b : bool)
  (V' : list jsstring) (sh sh' : Sheet) : Prop :=
  grown sh sh' /\ incl V V'
  /\ (forall r, In r V' -> ~ In r V ->
        exists k a, Util.asRef (Util.Label r) = Some k /\ lookupCell k (cells sh') = Some a)
  /\ (forall k a, lookupCell k (cells sh') = Some a -> lookupCell k (cells sh) = None ->
        cellAt sh' a = blankCell k /\ (a < length (objs sh'))%nat
        /\ exists r, In r V' /\ ~ In r V /\ Util.asRef (Util.Label r) = Some k)
  /\ (b = false -> forall x, In x V' -> ~ In x V ->
        ~ In thisRef (subjOf sh x) /\ incl (subjOf sh x) V').

(** The cells a traversal adds are paid for by the labels it visits: from
    the array [V] and the sheet [sh] to [V'] and [sh']. *)
Definition visitSize (U V V' : list jsstring) (sh sh' : Sheet) : Prop :=
  (length (objs sh') + remaining U V' <= length (objs sh) + remaining U V)%nat.

(** ** The subjects of a write *)

(** The subjects a value asks for: the references of a formula, ranges
    expanded. *)
Definition newSubjectsOf (v : Value) : list jsstring :=
  match v with
  | VStr text =>
      if Util.isFormulaText text then
        match Util.expandRanges text with
        | Some expanded => _extractCells expanded
        | None => []
        end
      else []
  | _ => []
  end.

(** ** Letter case and scanning *)

(** A regular expression with the [i] flag and no literal letter matches a
    text and its upper-cased form alike. *)
Definition caseBlind (re : Regexp) : Prop :=
  forall prev s, re (option_map upperChar prev) (toUpperCase s) = re prev s.

(** ** Updating one object of the store *)

(** The sheet with [f] applied to the object at [a]. *)
Definition withCell (sh : Sheet) (a : nat) (f : Cell -> Cell) : Sheet :=
  mkSheet (updateNth a f (objs sh)) (cells sh) (evaluations sh).

(** All the labels that stand in subject sets: a bound on the labels a
    traversal of subjects can visit. *)
Definition allSubjects (sh : Sheet) : list jsstring := concat (map subjects (objs sh)).

(** ** A write that the cycle check rejects *)

(** The fields [setValue] sets before it looks at the references, and the
    ones it sets when the cycle check finds the cell itself. *)
Definition startWrite (v : Value) (c : Cell) : Cell :=
  set_errorMessage VNull (set_invalid false (set_modified true (set_value v c))).

Definition markCircular (c : Cell) : Cell :=
  set_errorMessage (VStr (str "Circular dependency"))
    (set_invalid true (set_evaluatedValue VNull c)).





(** ** Edge symmetry *)

(** For all cells X and Y of the grid, Y is a subject of X exactly when X
    is an observer of Y. *)
Definition edgeSymmetry (sh : Sheet) : Prop :=
  forall x y cx cy,
    cellOf sh x = Some cx -> cellOf sh y = Some cy ->
    (In y (subjects cx) <-> In x (observers cy)).

(** ** Propagation through a diamond *)

(** A = A1, B = B1 and C = C1 read A1, D = D1 reads B1 and C1. *)
Definition diamond : list (jsstring * Value) :=
  [(str "A1", VNum 1);
   (str "B1", VStr (str "=A1+1"));
   (str "C1", VStr (str "=A1*0"));
   (str "D1", VStr (str "=B1+C1"))].

(** The evaluated value of the cell stored under a label. *)
Definition evaluatedValueOf (sh : Sheet) (r : jsstring) : option Value :=
  match cellOf sh r with
  | Some c => Some (evaluatedValue c)
  | None => None
  end.

(** ** The traversal of the observers *)

(** The observers of the cell a label names (none when it names no cell). *)
Definition obsOf (sh : Sheet) (r : jsstring) : list jsstring :=
  match Util.asRef (Util.Label r) with
  | Some k =>
      match lookupCell k (cells sh) with
      | Some a => observers (cellAt sh a)
      | None => []
      end
  | None => []
  end.

(** [Reach sh s x]: [x] is [s] or an observer, direct or not, of [s]. *)
Inductive Reach (sh : Sheet) (s : jsstring) : jsstring -> Prop :=
| reach_refl : Reach sh s s
| reach_step (x y : jsstring) : Reach sh s x -> In y (obsOf sh x) -> Reach sh s y.

(** Every observer label is a canonical label and names a stored cell
    whose [ref] it is. *)
Definition wfObservers (sh : Sheet) : Prop :=
  forall a r, In r (observers (cellAt sh a)) ->
    Util.asRef (Util.Label r) = Some r
    /\ exists b, lookupCell r (cells sh) = Some b /\ ref (cellAt sh b) = r.

(** The observers of every cell lie within [U]. *)
Definition observersWithin (U : list jsstring) (sh : Sheet) : Prop :=
  forall a, incl (observers (cellAt sh a)) U.

(** What a traversal of observers started with the array [V] returns: the
    labels [R] it adds and the array [V'], all reached from [starts]. *)
Definition descPost (sh : Sheet) (starts V R V' : list jsstring) : Prop :=
  incl V V'
  /\ (forall x, In x R <-> In x V' /\ ~ In x V)
  /\ (forall x, In x V' -> ~ In x V ->
        incl (obsOf sh x) V' /\ exists s, In s starts /\ Reach sh s x).

(** ** The edges a write changes *)

(** [edgeSim t sh sh']: from [sh] to [sh'] cells were added and observer
    sets changed, only by adding or removing the label [t]; the [ref],
    [evaluated] and [evaluatedValue] of the cells of [sh] are as they
    were. *)
Definition edgeSim (t : jsstring) (sh sh' : Sheet) : Prop :=
  (length (objs sh) <= length (objs sh'))%nat
  /\ (forall a, (a < length (objs sh))%nat ->
        ref (cellAt sh' a) = ref (cellAt sh a)
        /\ evaluated (cellAt sh' a) = evaluated (cellAt sh a)
        /\ evaluatedValue (cellAt sh' a) = evaluatedValue (cellAt sh a))
  /\ (forall a x, x <> t ->
        (In x (observers (cellAt sh' a)) <-> In x (observers (cellAt sh a))))
  /\ (forall a, incl (observers (cellAt sh' a)) (t :: observers (cellAt sh a)))
  /\ (forall k a, lookupCell k (cells sh) = Some a -> lookupCell k (cells sh') = Some a)
  /\ (forall k a, lookupCell k (cells sh') = Some a ->
        lookupCell k (cells sh) = Some a
        \/ (lookupCell k (cells sh) = None /\ (length (objs sh) <= a)%nat)).

(** An update of a cell that [edgeSim] allows. *)
Definition keepsEdges (t : jsstring) (f : Cell -> Cell) : Prop :=
  forall c,
    ref (f c) = ref c /\ evaluated (f c) = evaluated c
    /\ evaluatedValue (f c) = evaluatedValue c
    /\ (forall x, x <> t -> (In x (observers (f c)) <-> In x (observers c)))
    /\ incl (observers (f c)) (t :: observers c).

(** No label of the grid names the object [this]: the cell is not (yet)
    stored in [cells]. *)
Definition unstored (sh : Sheet) (this : nat) : Prop :=
  forall k, lookupCell k (cells sh) <> Some this.

(** ** The frontier of a write *)

(** All the labels that stand in observer sets. *)
Definition allObservers (sh : Sheet) : list jsstring := concat (map observers (objs sh)).

(** [wfObservers], computed. *)
Definition wfObserversb (sh : Sheet) : bool :=
  forallb
    (fun c =>
       forallb
         (fun r =>
            match Util.asRef (Util.Label r), lookupCell r (cells sh) with
            | Some k, Some b => streqb k r && streqb (ref (cellAt sh b)) r
            | _, _ => false
            end)
         (observers c))
    (objs sh).


(** The written cell is a cell of the grid, stored under its label, or a
    cell under construction: [new Cell] runs [setValue] before the sheet
    stores the object, which no label names yet and no cell observes. *)
Definition storedCell (sh : Sheet) (this : nat) : Prop :=
  lookupCell (ref (cellAt sh this)) (cells sh) = Some this.

Definition cellUnderConstruction (sh : Sheet) (this : nat) : Prop :=
  unstored sh this
  /\ lookupCell (ref (cellAt sh this)) (cells sh) = None
  /\ observers (cellAt sh this) = [].


(** ** Texts as runs of word characters and separators *)

(** A maximal run of word characters, or one character that is not a word
    character. *)
Inductive piece :=
| Run (r : jsstring)
| Sep (c : ascii).

(** The maximal runs of word characters of a text, and the characters
    between them. *)
Fixpoint pieces (s : jsstring) : list piece :=
  match s with
  | [] => []
  | c :: rest =>
      if isWordChar c then
        match pieces rest with
        | Run r :: ps => Run (c :: r) :: ps
        | ps => Run [c] :: ps
        end
      else Sep c :: pieces rest
  end.

(** The text of a piece, and of a list of pieces. *)
Definition pieceText (p : piece) : jsstring :=
  match p with Run r => r | Sep c => [c] end.

Definition unpieces (ps : list piece) : jsstring := flat_map pieceText ps.

(** The separator at the head of a list of pieces, if any. *)
Definition nextSep (ps : list piece) : option ascii :=
  match ps with Sep c :: _ => Some c | _ => None end.

(** Two runs never touch: after a run comes a separator or the end. *)
Definition noRunHead (ps : list piece) : Prop :=
  match ps with Run _ :: _ => False | _ => True end.

Definition isRun (r : jsstring) : Prop := r <> [] /\ forallb isWordChar r = true.

Inductive wfPieces : list piece -> Prop :=
| wf_nil : wfPieces []
| wf_sep c ps : isWordChar c = false -> wfPieces ps -> wfPieces (Sep c :: ps)
| wf_run r ps : isRun r -> noRunHead ps -> wfPieces ps -> wfPieces (Run r :: ps).

(** The text after a run starts with a separator, or is empty. *)
Definition stopsWord (s : jsstring) : Prop := stops isWordChar s.

(** ** Replacing and scanning, run by run *)

(** [mapPieces f prev ps]: the text of [ps] where each run [r] is replaced
    by [f p r n], with [p] the character before the run and [n] the one
    after it. *)
Fixpoint mapPieces (f : option ascii -> jsstring -> option ascii -> jsstring)
  (prev : option ascii) (ps : list piece) : jsstring :=
  match ps with
  | [] => []
  | Sep c :: rest => c :: mapPieces f (Some c) rest
  | Run r :: rest => f prev r (nextSep rest) ++ mapPieces f (lastChar prev r) rest
  end.

(** The runs [r] for which [d p r n] holds. *)
Fixpoint filterPieces (d : option ascii -> jsstring -> option ascii -> bool)
  (prev : option ascii) (ps : list piece) : list jsstring :=
  match ps with
  | [] => []
  | Sep c :: rest => filterPieces d (Some c) rest
  | Run r :: rest =>
      if d prev r (nextSep rest) then r :: filterPieces d (lastChar prev r) rest
      else filterPieces d (lastChar prev r) rest
  end.

(** A regular expression that matches whole runs: the run [r] found after
    [prev] and before [next] when [d prev r next] holds, and nothing
    else. *)
Record runMatcher (re : Regexp)
  (d : option ascii -> jsstring -> option ascii -> bool) : Prop := {
  rm_run : forall prev r s,
      isRun r -> stopsWord s -> isWordOpt prev = false ->
      re prev (r ++ s) = if d prev r (hd_error s) then Some (length r) else None;
  rm_inside : forall prev s, isWordOpt prev = true -> re prev s = None;
  rm_sep : forall prev c s, isWordChar c = false -> re prev (c :: s) = None
}.

(** A run equal to [w] with no colon right before it and none right after:
    what the regular expression of [templateReplaceForMove] matches. *)
Definition standalone (w : jsstring) (prev : option ascii) (r : jsstring)
  (next : option ascii) : bool :=
  streqb r w && negb (isColon prev) && negb (isColon next).

(** ** Coordinates that doubles hold exactly *)

(** A row and a column up to [2 ^ 53]. *)
Definition safeCoords (co : Util.Coords) : Prop :=
  Util.row co <= 2 ^ 53 /\ Util.col co <= 2 ^ 53.

(** The coordinates of the integer model, as doubles. *)
Definition floatCoords (co : Util.Coords) : Float.Coords :=
  {| Float.row := Float.Fin (Util.row co); Float.col := Float.Fin (Util.col co) |}.

(** A text of ASCII characters: on these [toUpperCase] and [toLowerCase]
    change the letters a-z and A-Z and nothing else, as the model has it. *)
Definition isAscii (c : ascii) : bool := charCode c <? 128.

Definition asciiText (s : jsstring) : Prop := forallb isAscii s = true.

(** The reference [r], moved from [sc] to [tc], stays within [2 ^ 53]. *)
Definition safeTranslation (sc tc : Util.Coords) (r : jsstring) : Prop :=
  exists rc,
    Util.asCoords (Util.Label r) = Some rc /\ safeCoords rc
    /\ Util.row rc + (Util.row tc - Util.row sc) <= 2 ^ 53
    /\ Util.col rc + (Util.col tc - Util.col sc) <= 2 ^ 53.

(** A range that expands on doubles as it does on integers. *)
Definition safeRange (range : jsstring) : Prop :=
  exists rows,
    Util.expandRange range = Some rows /\ Float.expandRange range = Float.Returns rows.

(** ** Copying a formula: every reference translated *)

(** [f] applied to a run; a separator is kept. *)
Definition pieceMap (f : jsstring -> jsstring) (p : piece) : jsstring :=
  match p with Run r => f r | Sep c => [c] end.

(** [mapRuns f text]: [text] with every maximal run [r] of word characters
    replaced by [f r]. *)
Definition mapRuns (f : jsstring -> jsstring) (text : jsstring) : jsstring :=
  flat_map (pieceMap f) (pieces text).

(** A text without upper-case letters. *)
Definition noUpper (x : jsstring) : bool := forallb (fun c => negb (isUpper c)) x.

(** A label of upper-case letters and digits. *)
Definition isUpperLabel (w : jsstring) : Prop :=
  exists letters digits, w = letters ++ digits /\ upperLabelParts letters digits.

(** The text after the replacements of the labels [R]: each run that is
    one of them holds its new label, in lower case. *)
Definition copyStep (g : jsstring -> jsstring) (R : list jsstring) (r : jsstring) : jsstring :=
  if has R r then toLowerCase (g r) else r.

(** A reference moved by [dr] rows and [dc] columns, as it stands in a
    copied formula: the new label, or the upper-cased placeholder when the
    new row or column is less than 1. *)
Definition translateLabel (dr dc : Z) (r : jsstring) : jsstring :=
  match Util.asCoords (Util.Label r) with
  | Some rc =>
      if (Util.row rc + dr <? 1) || (Util.col rc + dc <? 1)
      then str "[INVALID REF]"
      else Util.asRefRC (Util.row rc + dr) (Util.col rc + dc)
  | None => r
  end.

(** The upper-cased formula with every reference translated. *)
Definition copiedFormula (dr dc : Z) (text : jsstring) : jsstring :=
  mapRuns (fun run => if Util.isRef run then translateLabel dr dc run else run)
    (toUpperCase text).

(** The sheet of the copy examples: B2 holds "=A1+1". *)
Definition sheetB2 : Sheet :=
  match newSheet evalArith 10 [(str "B2", VStr (str "=A1+1"))] with
  | Ok (_, sh) => sh
  | _ => emptySheet
  end.

(** ** Moving a cell: ranges and standalone references *)

(** The text of an observer's formula after the standalone references to
    [thisRef] are rewritten to [targetRef]: the upper-cased text in which a
    run equal to [thisRef] is replaced unless a colon stands right before or
    right after it. *)
Definition movedReferences (thisRef targetRef text : jsstring) : jsstring :=
  mapPieces
    (fun p r n => if standalone thisRef p r n then toUpperCase targetRef else r)
    None (pieces (toUpperCase text)).

(** Is every cell of the range part of the move? *)
Definition wholeRangeMoved (rows : list (list jsstring)) (sourceRefs : list jsstring) : bool :=
  Z.of_nat (length (setDiff (newSet (concat rows)) (newSet sourceRefs))) =? 0.

(** ** Moving a cell: every range rewritten as a whole *)


(** [rewriteRanges d ps]: the text of the pieces [ps] in which, from left to
    right, each range [a:b] for which [d a b] gives a text is replaced by
    that text. *)
Fixpoint rewriteRanges (d : jsstring -> jsstring -> option jsstring) (ps : list piece)
  : jsstring :=
  match ps with
  | [] => []
  | Sep c :: rest => c :: rewriteRanges d rest
  | Run a :: rest =>
      match rest with
      | Sep c :: Run b :: rest' =>
          if Ascii.eqb c ":" then
            match d a b with
            | Some v => v ++ rewriteRanges d rest'
            | None => a ++ rewriteRanges d rest
            end
          else a ++ rewriteRanges d rest
      | _ => a ++ rewriteRanges d rest
      end
  end.






(** A label moved by [dr] rows and [dc] columns, as [newRefForCopy] writes
    it. *)
Definition shiftLabel (dr dc : Z) (r : jsstring) : jsstring :=
  match Util.asCoords (Util.Label r) with
  | Some rc =>
      if (Util.row rc + dr <? 1) || (Util.col rc + dc <? 1)
      then Util.INVALID_REF
      else Util.asRefRC (Util.row rc + dr) (Util.col rc + dc)
  | None => r
  end.

(** The new text of the range [a:b] of two references: its two endpoints
    moved by the delta when every cell of the range is in the moved set;
    nothing (the range stays) otherwise. *)
Definition movedRange (dr dc : Z) (sourceRefs : list jsstring) (a b : jsstring)
  : option jsstring :=
  if Util.isRef a && Util.isRef b then
    match Util.expandRange (a ++ str ":" ++ b) with
    | Some rows =>
        if wholeRangeMoved rows sourceRefs
        then Some (shiftLabel dr dc a ++ str ":" ++ shiftLabel dr dc b)
        else None
    | None => None
    end
  else None.



(** The range [x:y] stands somewhere in the pieces. *)
Definition rangeIn (x y : jsstring) (ps : list piece) : Prop :=
  exists pre rest, ps = pre ++ Run x :: Sep ":" :: Run y :: rest.

(** The formula of an observer after the move of [thisRef] to [targetRef],
    the cells [sourceRefs] moving together: in upper case, every range of
    two references whose cells all move having its two endpoints moved by
    the delta, every other range keeping its endpoints, and the standalone
    references to [thisRef] rewritten to [targetRef]. *)
Definition movedFormula (thisRef targetRef : jsstring) (dr dc : Z)
  (sourceRefs : list jsstring) (text : jsstring) : jsstring :=
  movedReferences thisRef targetRef
    (rewriteRanges (movedRange dr dc sourceRefs) (pieces text)).



(** ** Well-formed sheets *)

(** The label [r] names a stored cell. *)
Definition resolves (sh : Sheet) (r : jsstring) : Prop :=
  exists k a, Util.asRef (Util.Label r) = Some k
              /\ lookupCell k (cells sh) = Some a /\ (a < length (objs sh))%nat.

(** Every label in a subject or observer set names a stored cell. *)
Definition closedSheet (sh : Sheet) : Prop :=
  forall a r, In r (subjects (cellAt sh a)) \/ In r (observers (cellAt sh a)) ->
              resolves sh r.

(** A label of the map names a cell of the store, whose [ref] it is, and
    is the label [asRef] writes. *)
Definition wfCells (sh : Sheet) : Prop :=
  forall k a, lookupCell k (cells sh) = Some a ->
    (a < length (objs sh))%nat /\ ref (cellAt sh a) = k
    /\ Util.asRef (Util.Label k) = Some k.

(** The sheets the engine builds: the map is well formed, every subject
    names a stored cell, and every observer is the label of a stored cell. *)
Definition wfSheet (sh : Sheet) : Prop :=
  wfCells sh
  /\ (forall a r, In r (subjects (cellAt sh a)) -> resolves sh r)
  /\ wfObservers sh.

(** [wfCells] and [wfSheet], computed. *)
Definition wfCellsb (sh : Sheet) : bool :=
  forallb
    (fun '(k, a) =>
       (a <? length (objs sh))%nat && streqb (ref (cellAt sh a)) k
       && match Util.asRef (Util.Label k) with
          | Some k' => streqb k' k
          | None => false
          end)
    (cells sh).

Definition resolvesb (sh : Sheet) (r : jsstring) : bool :=
  match Util.asRef (Util.Label r) with
  | Some k =>
      match lookupCell k (cells sh) with
      | Some a => (a <? length (objs sh))%nat
      | None => false
      end
  | None => false
  end.

Definition wfSheetb (sh : Sheet) : bool :=
  wfCellsb sh
  && forallb (fun c => forallb (resolvesb sh) (subjects c)) (objs sh)
  && wfObserversb sh.

(** [sh'] is [sh] with other flags and computed values: the same cells
    under the same labels, with the same content and edges. *)
Definition sameContent (sh sh' : Sheet) : Prop :=
  length (objs sh') = length (objs sh)
  /\ cells sh' = cells sh
  /\ forall a, ref (cellAt sh' a) = ref (cellAt sh a)
            /\ value (cellAt sh' a) = value (cellAt sh a)
            /\ subjects (cellAt sh' a) = subjects (cellAt sh a)
            /\ observers (cellAt sh' a) = observers (cellAt sh a).

(** [sh'] is [sh] with other observer sets. *)
Definition observersOnly (sh sh' : Sheet) : Prop :=
  length (objs sh') = length (objs sh)
  /\ cells sh' = cells sh
  /\ evaluations sh' = evaluations sh
  /\ forall a, set_observers (observers (cellAt sh a)) (cellAt sh' a) = cellAt sh a.

(** ** The cells an evaluation leaves *)

(** The number of cells not evaluated yet: what bounds the depth of a
    propagation. *)
Definition unevaluated (sh : Sheet) : nat :=
  length (filter (fun c => negb (evaluated c)) (objs sh)).

(** [evaluatedFrom sh sh']: [sh'] is [sh] after evaluations: the same
    cells under the same labels, with the same content and edges; an
    [evaluated] flag that was set is still set. *)
Definition evaluatedFrom (sh sh' : Sheet) : Prop :=
  length (objs sh') = length (objs sh)
  /\ cells sh' = cells sh
  /\ forall a, ref (cellAt sh' a) = ref (cellAt sh a)
            /\ value (cellAt sh' a) = value (cellAt sh a)
            /\ subjects (cellAt sh' a) = subjects (cellAt sh a)
            /\ observers (cellAt sh' a) = observers (cellAt sh a)
            /\ (evaluated (cellAt sh a) = true -> evaluated (cellAt sh' a) = true).

(** An update of one cell that evaluations allow. *)
Definition keepsContent (f : Cell -> Cell) : Prop :=
  forall c, ref (f c) = ref c /\ value (f c) = value c
            /\ subjects (f c) = subjects c /\ observers (f c) = observers c
            /\ (evaluated c = true -> evaluated (f c) = true).

(** The sheet with one more entry in the log of evaluations. *)
Definition logged (sh : Sheet) (r : jsstring) : Sheet :=
  mkSheet (objs sh) (cells sh) (evaluations sh ++ [r]).

(** The callback of the loop of [_parseFormula] over the subjects. *)
Definition subjectValue (acc : list (jsstring * jsstring)) (r : jsstring)
  : M (list (jsstring * jsstring)) :=
  o <- findCell (Util.Label r) ;;
  a <- defined o ;;
  cell <- getCell a ;;
  if invalid cell
  then throw (InvalidRefInFormula (str "Invalid ref [" ++ r ++ str "]"))
  else ret (acc ++ [(r, toString (_valueForFormulaCalculation cell (VNum 0)))]).

(** The callback of the filter of [_notifyObservers]. *)
Definition notEvaluated (acc : list jsstring) (commonCellRef : jsstring)
  : M (list jsstring) :=
  o' <- findCell (Util.Label commonCellRef) ;;
  a <- defined o' ;;
  cc <- getCell a ;;
  ret (if negb (evaluated cc) then acc ++ [commonCellRef] else acc).

(** The callback of the loop of [_notifyObservers]. *)
Definition notifyObserver (eval : jsstring -> option Value) (fuel : nat)
  (F : list jsstring) (r : jsstring) : M unit :=
  o <- findCell (Util.Label r) ;;
  observer <- defined o ;;
  oc <- getCell observer ;;
  let commonCells := setIntersect (subjects oc) F in
  nonEvaluatedCommonCells <- reduce commonCells notEvaluated [] ;;
  if (0 <? Z.of_nat (length nonEvaluatedCommonCells)) then ret tt
  else _evaluateValue eval fuel observer F.

(** ** The steps of an accepted write *)

(** The observer registrations of [setValue]. *)
Definition registerIn (t : jsstring) (c : Cell) : Cell :=
  set_observers (setAdd (observers c) t) c.

Definition unregisterFrom (t : jsstring) (c : Cell) : Cell :=
  set_observers (setDelete (observers c) t) c.

(** The steps of a write that passes the cycle check, up to the capture of
    the frontier: the cycle check from the array [[]], which returns
    [visited] and the sheet [shc]; the new subjects; the registrations, which
    give [sha]; the removals, which give [shr]. *)
Definition acceptedWrite (fuel : nat) (sh : Sheet) (this : nat) (v : Value)
  (visited : list jsstring) (shc sha shr : Sheet) : Prop :=
  let c := cellAt sh this in
  let ns := newSubjectsOf v in
  let sh0 := withCell sh this (startWrite v) in
  _hasCircularDependency fuel (ref c) ns [] sh0 = Ok ((false, visited), shc)
  /\ visitPost (ref c) [] false visited sh0 shc
  /\ incl ns visited
  /\ visitSize (ns ++ allSubjects sh) [] visited sh0 shc
  /\ forEach (setDiff ns (subjects c))
       (fun r => a <- findOrCreateCell (Util.Label r) ;; modifyCell a (registerIn (ref c)))
       (withCell shc this (set_subjects ns)) = Ok (tt, sha)
  /\ forEach (setDiff (subjects c) ns)
       (fun r => a <- findOrCreateCell (Util.Label r) ;; modifyCell a (unregisterFrom (ref c)))
       sha = Ok (tt, shr).

(** What a write costs: a bound on the turns of its traversals. *)
Definition writeCost (sh : Sheet) (v : Value) : nat :=
  length (objs sh) + length (newSubjectsOf v ++ allSubjects sh)
  + length (allObservers sh) + 1.

(** The sheet once the object [this] is stored under the label [k]. *)
Definition storedAs (sh : Sheet) (k : jsstring) (this : nat) : Sheet :=
  mkSheet (objs sh) (storeCell k this (cells sh)) (evaluations sh).

(** The sheet with the object of a new cell, not stored yet. *)
Definition allocated (sh : Sheet) (k : jsstring) : Sheet :=
  mkSheet (objs sh ++ [blankCell k]) (cells sh) (evaluations sh).

(** * Properties *)

(** ** Examples of the functions of util.js *)

Example colAsLabel_27 : Util.colAsLabel 27 = str "AA".
Proof. reflexivity. Qed.

Example expandRange_A1B2 :
  Util.expandRange (str "A1:B2") = Some [[str "A1"; str "B1"]; [str "A2"; str "B2"]].
Proof. reflexivity. Qed.

Example expandRanges_sum :
  Util.expandRanges (str "=SUM(a1:B2)+C7") = Some (str "=SUM([[A1,B1],[A2,B2]])+C7").
Proof. reflexivity. Qed.

Example findRefs_ex :
  Util.findRefsInFormula (str "=a1+B2*a1+SUM(C3:D4)+x_1+E5F+G07") =
  [str "A1"; str "B2"; str "C3"; str "D4"; str "G07"].
Proof. reflexivity. Qed.

Example copy_ex :
  Util.templateReplaceForCopy (str "=a1+B2") [(str "A1", str "B2"); (str "B2", str "C3")]
  = str "=B2+C3".
Proof. reflexivity. Qed.

Example move_ex :
  Util.templateReplaceForMove (str "=SUM(A1:A2)+a1") [(str "A1", str "D4")]
  = str "=SUM(A1:A2)+D4".
Proof. reflexivity. Qed.

Example evalArith_ex : evalArith (str "2+3*4-1") = Some (VNum 13).
Proof. reflexivity. Qed.

(** ** Strings and sets *)

Lemma streqb_eq (a b : jsstring) : streqb a b = true <-> a = b.
Proof.
  revert b; induction a as [|x a IH]; intros [|y b]; simpl; split; intros H;
    try reflexivity; try discriminate.
  - apply andb_true_iff in H as [Hx Hr]. apply Ascii.eqb_eq in Hx.
    apply IH in Hr. congruence.
  - injection H as -> ->. rewrite Ascii.eqb_refl. simpl. now apply IH.
Qed.

Lemma streqb_refl (a : jsstring) : streqb a a = true.
Proof. now apply streqb_eq. Qed.

Lemma streqb_neq (a b : jsstring) : streqb a b = false <-> a <> b.
Proof.
  split.
  - intros H E. apply streqb_eq in E. congruence.
  - intros H. destruct (streqb a b) eqn:E; [|reflexivity].
    apply streqb_eq in E. contradiction.
Qed.

Lemma streqb_sym (a b : jsstring) : streqb a b = streqb b a.
Proof.
  destruct (streqb a b) eqn:E.
  - apply streqb_eq in E. subst. now rewrite streqb_refl.
  - symmetry. apply streqb_neq. apply streqb_neq in E. congruence.
Qed.

Lemma has_In (s : list jsstring) (x : jsstring) : has s x = true <-> In x s.
Proof.
  unfold has. rewrite existsb_exists. split.
  - intros [y [Hy E]]. apply streqb_eq in E. now subst.
  - intros H. exists x. split; [assumption | apply streqb_refl].
Qed.

Lemma has_not_In (s : list jsstring) (x : jsstring) : has s x = false <-> ~ In x s.
Proof.
  rewrite <- has_In. destruct (has s x); split; intros; congruence.
Qed.

Lemma setAdd_In (s : list jsstring) (x y : jsstring) :
  In y (setAdd s x) <-> In y s \/ y = x.
Proof.
  unfold setAdd. destruct (has s x) eqn:E.
  - apply has_In in E. split; [now left | intros [H | ->]; assumption].
  - rewrite in_app_iff. simpl. intuition congruence.
Qed.

Lemma setAppend_In (l t : list jsstring) (y : jsstring) :
  In y (setAppend t l) <-> In y t \/ In y l.
Proof.
  unfold setAppend. revert t. induction l as [|x l IH]; intros t; simpl.
  - tauto.
  - rewrite IH, setAdd_In. intuition congruence.
Qed.

Lemma newSet_In (l : list jsstring) (y : jsstring) : In y (newSet l) <-> In y l.
Proof.
  unfold newSet. change (fold_left setAdd l []) with (setAppend [] l).
  rewrite setAppend_In. simpl. tauto.
Qed.

Lemma setDelete_In (s : list jsstring) (x y : jsstring) :
  In y (setDelete s x) <-> In y s /\ y <> x.
Proof.
  unfold setDelete. rewrite filter_In, negb_true_iff, streqb_neq.
  intuition congruence.
Qed.

Lemma setDiff_In (a b : list jsstring) (y : jsstring) :
  In y (setDiff a b) <-> In y a /\ ~ In y b.
Proof.
  unfold setDiff. rewrite filter_In, negb_true_iff, has_not_In. tauto.
Qed.

Lemma setIntersect_In (a b : list jsstring) (y : jsstring) :
  In y (setIntersect a b) <-> In y a /\ In y b.
Proof.
  unfold setIntersect. rewrite filter_In, has_In. tauto.
Qed.

Ltac ascii_cases c := destruct c as [[|] [|] [|] [|] [|] [|] [|] [|]].

Lemma charCode_fromCharCode (n : Z) : 0 <= n < 256 -> charCode (fromCharCode n) = n.
Proof.
  intros H. unfold charCode, fromCharCode.
  rewrite N_ascii_embedding by lia. lia.
Qed.

Lemma upperChar_idem (c : ascii) : upperChar (upperChar c) = upperChar c.
Proof. ascii_cases c; reflexivity. Qed.

Lemma toUpperCase_idem (s : jsstring) : toUpperCase (toUpperCase s) = toUpperCase s.
Proof.
  unfold toUpperCase. rewrite map_map. apply map_ext. intros; apply upperChar_idem.
Qed.

Lemma isLetter_upperChar (c : ascii) : isLetter (upperChar c) = isLetter c.
Proof. ascii_cases c; reflexivity. Qed.

Lemma isDigit_upperChar (c : ascii) : isDigit (upperChar c) = isDigit c.
Proof. ascii_cases c; reflexivity. Qed.

Lemma isWordChar_upperChar (c : ascii) : isWordChar (upperChar c) = isWordChar c.
Proof. ascii_cases c; reflexivity. Qed.

Lemma isLetter_upper_isUpper (c : ascii) :
  isLetter (upperChar c) = true -> isUpper (upperChar c) = true.
Proof. ascii_cases c; simpl; intros H; try reflexivity; discriminate H. Qed.

Lemma isDigit_not_isLetter (c : ascii) : isDigit c = true -> isLetter c = false.
Proof. ascii_cases c; simpl; intros H; try reflexivity; discriminate H. Qed.

Lemma isDigit_isWordChar (c : ascii) : isDigit c = true -> isWordChar c = true.
Proof. ascii_cases c; simpl; intros H; try reflexivity; discriminate H. Qed.

Lemma isLetter_isWordChar (c : ascii) : isLetter c = true -> isWordChar c = true.
Proof. ascii_cases c; simpl; intros H; try reflexivity; discriminate H. Qed.

Lemma isUpper_isLetter (c : ascii) : isUpper c = true -> isLetter c = true.
Proof. unfold isLetter. now intros ->. Qed.

Lemma isUpper_upperChar (c : ascii) : isUpper c = true -> upperChar c = c.
Proof. ascii_cases c; simpl; intros H; try reflexivity; discriminate H. Qed.

Lemma takeWhile_dropWhile (p : ascii -> bool) (s : jsstring) :
  takeWhile p s ++ dropWhile p s = s.
Proof.
  induction s as [|c s IH]; simpl; [reflexivity|].
  destruct (p c); simpl; [now rewrite IH | reflexivity].
Qed.

Lemma takeWhile_all (p : ascii -> bool) (s : jsstring) :
  forallb p (takeWhile p s) = true.
Proof.
  induction s as [|c s IH]; simpl; [reflexivity|].
  destruct (p c) eqn:E; simpl; [now rewrite E | reflexivity].
Qed.

Lemma dropWhile_stops (p : ascii -> bool) (s : jsstring) : stops p (dropWhile p s).
Proof.
  induction s as [|c s IH]; simpl; [exact I|].
  destruct (p c) eqn:E; simpl; assumption.
Qed.

Lemma takeWhile_app (p : ascii -> bool) (a b : jsstring) :
  forallb p a = true -> stops p b -> takeWhile p (a ++ b) = a.
Proof.
  intros Ha Hb. induction a as [|c a IH]; simpl in *.
  - destruct b as [|d b]; simpl in *; [reflexivity | now rewrite Hb].
  - apply andb_true_iff in Ha as [Hc Ha]. rewrite Hc. now rewrite IH.
Qed.

Lemma dropWhile_app (p : ascii -> bool) (a b : jsstring) :
  forallb p a = true -> stops p b -> dropWhile p (a ++ b) = b.
Proof.
  intros Ha Hb. induction a as [|c a IH]; simpl in *.
  - destruct b as [|d b]; simpl in *; [reflexivity | now rewrite Hb].
  - apply andb_true_iff in Ha as [Hc Ha]. rewrite Hc. now apply IH.
Qed.

(** ** Column labels *)

Module ColumnFacts.
Import Util.

Lemma reduceI_weighted (len : nat) (l : jsstring) (i : nat) (acc : Z) :
  len = (i + length l)%nat ->
  reduceI
    (fun acc letter i =>
       acc + _colIndexFromSingleLetter letter * ALPHABET_LENGTH ^ Z.of_nat (len - i - 1))
    l i acc
  = acc + weighted l.
Proof.
  revert i acc. induction l as [|c l IH]; intros i acc Hlen; simpl.
  - lia.
  - rewrite IH by (simpl in Hlen; lia).
    simpl in Hlen. replace (len - i - 1)%nat with (length l) by lia. lia.
Qed.

Lemma colIndexFromLabel_weighted (l : jsstring) : colIndexFromLabel l = weighted l.
Proof.
  unfold colIndexFromLabel. rewrite (reduceI_weighted (length l)) by reflexivity. lia.
Qed.

Lemma single_letter_index (k : Z) :
  1 <= k <= 26 -> _colIndexFromSingleLetter (_colSingleLetter k) = k.
Proof.
  intros H. unfold _colIndexFromSingleLetter, _colSingleLetter.
  change (charCode "A") with 65. rewrite charCode_fromCharCode by lia. lia.
Qed.

Lemma single_letter_upper (k : Z) :
  1 <= k <= 26 -> isUpper (_colSingleLetter k) = true.
Proof.
  intros H. unfold isUpper, _colSingleLetter.
  change (charCode "A") with 65. rewrite charCode_fromCharCode by lia. lia.
Qed.

(** The loop computes the digits of [colIndex + 1] in front of [colRef]. *)
Lemma colAsLabel_loop_weighted (fuel : nat) :
  forall colIndex colRef,
    -1 <= colIndex -> colIndex + 1 < 2 ^ Z.of_nat fuel ->
    weighted (colAsLabel_loop fuel colIndex colRef)
    = (colIndex + 1) * ALPHABET_LENGTH ^ Z.of_nat (length colRef) + weighted colRef.
Proof.
  change ALPHABET_LENGTH with 26.
  induction fuel as [|fuel IH]; intros colIndex colRef Hlo Hhi.
  - simpl in *. assert (colIndex = -1) by lia. subst. simpl. lia.
  - cbn [colAsLabel_loop]. change ALPHABET_LENGTH with 26.
    destruct (0 <=? colIndex) eqn:E.
    + apply Z.leb_le in E.
      rewrite Z.quot_div_nonneg, Z.rem_mod_nonneg by lia.
      assert (Hm := Z.mod_pos_bound colIndex 26 ltac:(lia)).
      assert (Hd := Z.div_mod colIndex 26 ltac:(lia)).
      assert (Hq : 0 <= colIndex / 26) by (apply Z.div_pos; lia).
      rewrite IH.
      * cbn [weighted length]. rewrite single_letter_index by lia.
        change ALPHABET_LENGTH with 26.
        rewrite Nat2Z.inj_succ, Z.pow_succ_r by lia. nia.
      * lia.
      * rewrite Nat2Z.inj_succ, Z.pow_succ_r in Hhi by lia.
        assert (colIndex / 26 <= colIndex / 2).
        { apply Z.div_le_compat_l; lia. }
        assert (colIndex / 2 < 2 ^ Z.of_nat fuel).
        { apply Z.div_lt_upper_bound; lia. }
        lia.
    + apply Z.leb_gt in E. assert (colIndex = -1) by lia. subst. lia.
Qed.

(** Past the exit of the loop more fuel changes nothing. *)
Lemma colAsLabel_loop_exit (fuel extra : nat) :
  forall colIndex colRef,
    colIndex + 1 < 2 ^ Z.of_nat fuel ->
    colAsLabel_loop (fuel + extra) colIndex colRef = colAsLabel_loop fuel colIndex colRef.
Proof.
  induction fuel as [|fuel IH]; intros colIndex colRef Hhi.
  - simpl in Hhi. destruct extra; simpl; [reflexivity|].
    destruct (0 <=? colIndex) eqn:E; [apply Z.leb_le in E; lia | reflexivity].
  - simpl. destruct (0 <=? colIndex) eqn:E; [|reflexivity].
    apply Z.leb_le in E. apply IH.
    change ALPHABET_LENGTH with 26.
    rewrite Z.quot_div_nonneg by lia.
    rewrite Nat2Z.inj_succ, Z.pow_succ_r in Hhi by lia.
    assert (colIndex / 26 <= colIndex / 2) by (apply Z.div_le_compat_l; lia).
    assert (colIndex / 2 < 2 ^ Z.of_nat fuel) by (apply Z.div_lt_upper_bound; lia).
    lia.
Qed.

Lemma colAsLabel_fuel (n : Z) :
  1 <= n -> n - 1 + 1 < 2 ^ Z.of_nat (S (Z.to_nat (Z.log2 n))).
Proof.
  intros H. rewrite Nat2Z.inj_succ, Z2Nat.id by apply Z.log2_nonneg.
  destruct (Z.log2_spec n ltac:(lia)) as [_ Hhi]. lia.
Qed.

Lemma colAsLabel_loop_upper (fuel : nat) :
  forall colIndex colRef,
    forallb isUpper colRef = true ->
    forallb isUpper (colAsLabel_loop fuel colIndex colRef) = true.
Proof.
  induction fuel as [|fuel IH]; intros colIndex colRef H; simpl; [assumption|].
  destruct (0 <=? colIndex) eqn:E; [|assumption].
  apply Z.leb_le in E. apply IH. simpl. rewrite H, andb_true_r.
  apply single_letter_upper. change ALPHABET_LENGTH with 26.
  rewrite Z.rem_mod_nonneg by lia.
  assert (Hm := Z.mod_pos_bound colIndex 26 ltac:(lia)). lia.
Qed.

Lemma colAsLabel_upper (n : Z) : forallb isUpper (colAsLabel n) = true.
Proof. apply colAsLabel_loop_upper. reflexivity. Qed.

Lemma colAsLabel_loop_nonempty (fuel : nat) (colIndex : Z) (colRef : jsstring) :
  colRef <> [] -> colAsLabel_loop fuel colIndex colRef <> [].
Proof.
  revert colIndex colRef. induction fuel as [|fuel IH]; intros colIndex colRef H; simpl;
    [assumption|].
  destruct (0 <=? colIndex); [|assumption]. apply IH. discriminate.
Qed.

Lemma colAsLabel_nonempty (n : Z) : 1 <= n -> colAsLabel n <> [].
Proof.
  intros H. unfold colAsLabel. simpl.
  destruct (0 <=? n - 1) eqn:E; [|apply Z.leb_gt in E; lia].
  apply colAsLabel_loop_nonempty. discriminate.
Qed.

Lemma colIndexFromLabel_colAsLabel (n : Z) :
  1 <= n -> colIndexFromLabel (colAsLabel n) = n.
Proof.
  intros Hn. rewrite colIndexFromLabel_weighted. unfold colAsLabel.
  rewrite colAsLabel_loop_weighted.
  - simpl. lia.
  - lia.
  - now apply colAsLabel_fuel.
Qed.

Lemma weighted_nonneg (l : jsstring) : forallb isUpper l = true -> 0 <= weighted l.
Proof.
  induction l as [|c l IH]; simpl; intros H; [lia|].
  apply andb_true_iff in H as [Hc Hl]. specialize (IH Hl).
  unfold isUpper in Hc. apply andb_true_iff in Hc as [H1 H2].
  apply Z.leb_le in H1, H2. unfold _colIndexFromSingleLetter.
  change (charCode "A") with 65. change ALPHABET_LENGTH with 26.
  assert (0 < 26 ^ Z.of_nat (length l)) by (apply Z.pow_pos_nonneg; lia). nia.
Qed.

Lemma weighted_pos (l : jsstring) :
  l <> [] -> forallb isUpper l = true -> 1 <= weighted l.
Proof.
  destruct l as [|c l]; [congruence|]. intros _ H. simpl in *.
  apply andb_true_iff in H as [Hc Hl]. assert (Hn := weighted_nonneg l Hl).
  unfold isUpper in Hc. apply andb_true_iff in Hc as [H1 H2].
  apply Z.leb_le in H1, H2. unfold _colIndexFromSingleLetter.
  change (charCode "A") with 65. change ALPHABET_LENGTH with 26.
  assert (0 < 26 ^ Z.of_nat (length l)) by (apply Z.pow_pos_nonneg; lia). nia.
Qed.

Lemma weighted_snoc (l : jsstring) (c : ascii) :
  weighted (l ++ [c]) = ALPHABET_LENGTH * weighted l + _colIndexFromSingleLetter c.
Proof.
  induction l as [|d l IH]; cbn [weighted app length].
  - change ALPHABET_LENGTH with 26. lia.
  - rewrite IH, length_app. cbn [length].
    replace (Z.of_nat (length l + 1)) with (Z.succ (Z.of_nat (length l))) by lia.
    rewrite Z.pow_succ_r by lia. ring.
Qed.

Lemma single_letter_of_index (c : ascii) :
  isUpper c = true -> _colSingleLetter (_colIndexFromSingleLetter c) = c.
Proof.
  intros H. unfold _colSingleLetter, _colIndexFromSingleLetter, fromCharCode, charCode.
  replace (Z.of_N (N_of_ascii c) - Z.of_N (N_of_ascii "A") + 1 - 1 + Z.of_N (N_of_ascii "A"))
    with (Z.of_N (N_of_ascii c)) by lia.
  now rewrite N2Z.id, ascii_N_embedding.
Qed.

(** Read from a label, the loop writes the label back. *)
Lemma colAsLabel_loop_label (l : jsstring) :
  forall colRef fuel,
    forallb isUpper l = true -> weighted l < 2 ^ Z.of_nat fuel ->
    colAsLabel_loop fuel (weighted l - 1) colRef = l ++ colRef.
Proof.
  induction l as [|c l IH] using rev_ind; intros colRef fuel Hu Hf.
  - simpl. destruct fuel; reflexivity.
  - rewrite forallb_app in Hu. apply andb_true_iff in Hu as [Hl Hc].
    simpl in Hc. rewrite andb_true_r in Hc.
    assert (Hn := weighted_nonneg l Hl).
    rewrite weighted_snoc in *. change ALPHABET_LENGTH with 26 in *.
    assert (Hi : 1 <= _colIndexFromSingleLetter c <= 26).
    { unfold isUpper in Hc. apply andb_true_iff in Hc as [H1 H2].
      apply Z.leb_le in H1, H2. unfold _colIndexFromSingleLetter.
      change (charCode "A") with 65. lia. }
    destruct fuel as [|fuel]; [change (Z.of_nat 0) with 0 in Hf; rewrite Z.pow_0_r in Hf; lia|].
    cbn [colAsLabel_loop]. change ALPHABET_LENGTH with 26.
    replace (0 <=? 26 * weighted l + _colIndexFromSingleLetter c - 1) with true
      by (symmetry; apply Z.leb_le; lia).
    rewrite Z.quot_div_nonneg, Z.rem_mod_nonneg by lia.
    replace ((26 * weighted l + _colIndexFromSingleLetter c - 1) / 26) with (weighted l)
      by (apply Z.div_unique with (_colIndexFromSingleLetter c - 1); lia).
    replace ((26 * weighted l + _colIndexFromSingleLetter c - 1) mod 26)
      with (_colIndexFromSingleLetter c - 1)
      by (apply Z.mod_unique with (weighted l); lia).
    replace (_colIndexFromSingleLetter c - 1 + 1) with (_colIndexFromSingleLetter c) by lia.
    rewrite single_letter_of_index by assumption.
    rewrite IH; [now rewrite <- app_assoc | assumption |].
    rewrite Nat2Z.inj_succ, Z.pow_succ_r in Hf by lia. lia.
Qed.

Lemma colAsLabel_colIndexFromLabel (l : jsstring) :
  l <> [] -> forallb isUpper l = true -> colAsLabel (colIndexFromLabel l) = l.
Proof.
  intros Hne Hu. rewrite colIndexFromLabel_weighted. unfold colAsLabel.
  assert (Hp := weighted_pos l Hne Hu).
  rewrite colAsLabel_loop_label; [apply app_nil_r | assumption |].
  assert (H := colAsLabel_fuel (weighted l) Hp). lia.
Qed.

(** The loop has left by the time the fuel of [colAsLabel] is spent: more
    turns give the same label. *)
Lemma colAsLabel_enough_fuel (n : Z) (extra : nat) :
  colAsLabel_loop (S (Z.to_nat (Z.log2 n)) + extra) (n - 1) [] = colAsLabel n.
Proof.
  destruct (Z.le_gt_cases 1 n) as [H | H].
  - apply colAsLabel_loop_exit. apply (colAsLabel_fuel n H).
  - unfold colAsLabel. simpl. destruct (0 <=? n - 1) eqn:E; [apply Z.leb_le in E; lia|].
    reflexivity.
Qed.

End ColumnFacts.

(** ** Labels and ranges *)

Lemma stops_letter_digits (digits rest : jsstring) :
  digits <> [] -> forallb isDigit digits = true -> stops isLetter (digits ++ rest).
Proof.
  destruct digits as [|d ds]; [congruence|]. simpl. intros _ H.
  apply andb_true_iff in H as [H _]. now apply isDigit_not_isLetter.
Qed.

Lemma lettersDigits_parts (letters digits rest : jsstring) :
  labelParts letters digits -> stops isDigit rest ->
  lettersDigits (letters ++ digits ++ rest) = Some (letters, digits, rest).
Proof.
  intros (Hl & Hla & Hd & Hda) Hrest. unfold lettersDigits.
  rewrite takeWhile_app, dropWhile_app by (try assumption; now apply stops_letter_digits).
  rewrite takeWhile_app, dropWhile_app by assumption.
  destruct letters; [congruence|]. destruct digits; [congruence|]. reflexivity.
Qed.

Lemma lastChar_digit (digits : jsstring) (prev : option ascii) :
  digits <> [] -> forallb isDigit digits = true ->
  exists d, lastChar prev digits = Some d /\ isDigit d = true.
Proof.
  revert prev. induction digits as [|c ds IH]; intros prev Hne Hall; [congruence|].
  simpl in *. apply andb_true_iff in Hall as [Hc Hds].
  destruct ds as [|c' ds'].
  - exists c. now split.
  - apply IH; [discriminate | assumption].
Qed.

Lemma wordBoundary_after_digits (digits rest : jsstring) (prev : option ascii) :
  digits <> [] -> forallb isDigit digits = true ->
  wordBoundary (lastChar prev digits) rest = negb (isWordOpt (hd_error rest)).
Proof.
  intros Hne Hall. destruct (lastChar_digit digits prev Hne Hall) as [d [-> Hd]].
  unfold wordBoundary. simpl. rewrite (isDigit_isWordChar d Hd).
  now destruct (isWordOpt (hd_error rest)).
Qed.

Lemma toUpperCase_app (a b : jsstring) :
  toUpperCase (a ++ b) = toUpperCase a ++ toUpperCase b.
Proof. apply map_app. Qed.

Lemma forallb_upper (p : ascii -> bool) (s : jsstring) :
  (forall c, p (upperChar c) = p c) ->
  forallb p (toUpperCase s) = forallb p s.
Proof.
  intros H. induction s as [|c s IH]; simpl; [reflexivity|]. now rewrite H, IH.
Qed.

Lemma toUpperCase_digits (digits : jsstring) :
  forallb isDigit digits = true -> toUpperCase digits = digits.
Proof.
  induction digits as [|c ds IH]; simpl; intros H; [reflexivity|].
  apply andb_true_iff in H as [Hc Hds]. rewrite IH by assumption.
  f_equal. revert Hc. ascii_cases c; simpl; intros Hc; try reflexivity; discriminate Hc.
Qed.

Lemma labelParts_upper (letters digits : jsstring) :
  labelParts letters digits -> labelParts (toUpperCase letters) digits.
Proof.
  intros (Hl & Hla & Hd & Hda). repeat split; try assumption.
  - destruct letters; [congruence | discriminate].
  - rewrite forallb_upper; [assumption | apply isLetter_upperChar].
Qed.

Lemma asCoords_parts (letters digits : jsstring) :
  labelParts letters digits ->
  Util.asCoords (Util.Label (letters ++ digits))
  = Some {| Util.row := Util.Number digits;
            Util.col := Util.colIndexFromLabel (toUpperCase letters) |}.
Proof.
  intros H. simpl. unfold Util._rowColFromRef.
  rewrite toUpperCase_app, (toUpperCase_digits digits) by apply H.
  rewrite <- (app_nil_r digits) at 1.
  rewrite lettersDigits_parts; [reflexivity | now apply labelParts_upper | exact I].
Qed.

Lemma rangeGroupsAt_range (l1 d1 l2 d2 : jsstring) :
  labelParts l1 d1 -> labelParts l2 d2 ->
  rangeGroupsAt None (l1 ++ d1 ++ str ":" ++ l2 ++ d2) = Some (l1 ++ d1, l2 ++ d2).
Proof.
  intros H1 H2. unfold rangeGroupsAt.
  assert (Hb : wordBoundary None (l1 ++ d1 ++ str ":" ++ l2 ++ d2) = true).
  { destruct H1 as (Hl & Hla & _). destruct l1 as [|c l1]; [congruence|].
    simpl in *. apply andb_true_iff in Hla as [Hc _].
    unfold wordBoundary. simpl. now rewrite (isLetter_isWordChar c Hc). }
  rewrite Hb. rewrite lettersDigits_parts by (try assumption; reflexivity).
  simpl. rewrite <- (app_nil_r d2) at 1.
  rewrite lettersDigits_parts by (try assumption; exact I).
  rewrite wordBoundary_after_digits by apply H2. reflexivity.
Qed.

Lemma execFrom_head {A} (m : option ascii -> jsstring -> option A)
  (prev : option ascii) (s : jsstring) (r : A) :
  m prev s = Some r -> execFrom m prev s = Some r.
Proof. intros H. destruct s; simpl; now rewrite H. Qed.

Lemma sequence_length (n : Z) : length (Util.sequence n) = Z.to_nat n.
Proof. unfold Util.sequence. now rewrite length_map, length_seq. Qed.

Lemma sequence_nth (n : Z) (i : nat) (d : Z) :
  (i < Z.to_nat n)%nat -> nth i (Util.sequence n) d = Z.of_nat i.
Proof.
  intros H. unfold Util.sequence.
  rewrite (nth_indep _ d (Z.of_nat 0)) by (now rewrite length_map, length_seq).
  rewrite map_nth, seq_nth by assumption. reflexivity.
Qed.

Lemma sequenceMap_length {A} (n : Z) (fn : Z -> A) :
  length (Util.sequenceMap n fn) = Z.to_nat n.
Proof. unfold Util.sequenceMap. now rewrite length_map, sequence_length. Qed.

Lemma sequenceMap_nth {A} (n : Z) (fn : Z -> A) (i : nat) (d : A) :
  (i < Z.to_nat n)%nat -> nth i (Util.sequenceMap n fn) d = fn (Z.of_nat i).
Proof.
  intros H. unfold Util.sequenceMap.
  rewrite (nth_indep _ d (fn 0)) by (now rewrite length_map, sequence_length).
  rewrite map_nth, sequence_nth by assumption. reflexivity.
Qed.

(** ** Scanning a text for references *)

Lemma lettersDigits_inv (s ls ds rest : jsstring) :
  lettersDigits s = Some (ls, ds, rest) ->
  s = ls ++ ds ++ rest /\ labelParts ls ds /\ stops isDigit rest
  /\ ls = takeWhile isLetter s.
Proof.
  unfold lettersDigits. intros H.
  destruct (takeWhile isLetter s) as [|c ls'] eqn:El; [discriminate|].
  destruct (takeWhile isDigit (dropWhile isLetter s)) as [|d ds'] eqn:Ed; [discriminate|].
  simpl in H. injection H as <- <- <-.
  repeat split.
  - rewrite <- Ed, takeWhile_dropWhile, <- El, takeWhile_dropWhile. reflexivity.
  - discriminate.
  - rewrite <- El. apply takeWhile_all.
  - discriminate.
  - rewrite <- Ed. apply takeWhile_all.
  - apply dropWhile_stops.
Qed.

Lemma REF_REGEXP_inv (prev : option ascii) (s : jsstring) (k : nat) :
  REF_REGEXP prev s = Some k ->
  exists ls ds rest,
    s = ls ++ ds ++ rest /\ k = length (ls ++ ds) /\ labelParts ls ds
    /\ isWordOpt prev = false /\ isWordOpt (hd_error rest) = false.
Proof.
  unfold REF_REGEXP. intros H.
  destruct (wordBoundary prev s) eqn:Eb; [|discriminate].
  destruct (lettersDigits s) as [[[ls ds] rest]|] eqn:El; [|discriminate].
  destruct (wordBoundary (lastChar None ds) rest) eqn:Ea; [|discriminate].
  injection H as <-.
  apply lettersDigits_inv in El as (Es & Hp & _ & _).
  exists ls, ds, rest. repeat split; try assumption; try apply Hp.
  - now rewrite length_app.
  - destruct Hp as (Hl & Hla & _). subst s. destruct ls as [|c ls]; [congruence|].
    simpl in Hla. apply andb_true_iff in Hla as [Hc _].
    unfold wordBoundary in Eb. simpl in Eb. rewrite (isLetter_isWordChar c Hc) in Eb.
    now destruct (isWordOpt prev).
  - rewrite wordBoundary_after_digits in Ea by apply Hp.
    now apply negb_true_iff in Ea.
Qed.

(** Every match reported by [matchAllFrom] is a match of the regular
    expression at some position of the text. *)
Lemma matchAllFrom_In (re : Regexp) (s : jsstring) :
  forall skip prev m,
    In m (matchAllFrom re skip prev s) ->
    exists pre prev' s' n,
      s = pre ++ s' /\ re prev' s' = Some (S n) /\ m = firstn (S n) s'.
Proof.
  induction s as [|c s IH]; intros skip prev m H; simpl in H; [contradiction|].
  assert (Hrec : forall k, In m (matchAllFrom re k (Some c) s) ->
            exists pre prev' s' n,
              c :: s = pre ++ s' /\ re prev' s' = Some (S n) /\ m = firstn (S n) s').
  { intros k Hk. destruct (IH _ _ _ Hk) as (pre & prev' & s' & n & E & Hre & Hm).
    exists (c :: pre), prev', s', n. subst s. now repeat split. }
  destruct skip as [|k]; [|now apply (Hrec k)].
  destruct (re prev (c :: s)) as [[|n]|] eqn:E; try now apply (Hrec 0%nat).
  destruct H as [<- | H]; [|now apply (Hrec n)].
  exists [], prev, (c :: s), n. now repeat split.
Qed.

Lemma forallb_app_inv (p : ascii -> bool) (a b : jsstring) :
  forallb p (a ++ b) = true -> forallb p a = true /\ forallb p b = true.
Proof. rewrite forallb_app. apply andb_true_iff. Qed.

Lemma upper_letters_are_upper (s : jsstring) :
  forallb (fun c => implb (isLetter c) (isUpper c)) (toUpperCase s) = true.
Proof.
  induction s as [|c s IH]; simpl; [reflexivity|]. rewrite IH, andb_true_r.
  destruct (isLetter (upperChar c)) eqn:E; [|reflexivity].
  simpl. now apply isLetter_upper_isUpper.
Qed.

Lemma letters_upper (ls : jsstring) :
  forallb (fun c => implb (isLetter c) (isUpper c)) ls = true ->
  forallb isLetter ls = true -> forallb isUpper ls = true.
Proof.
  induction ls as [|c ls IH]; simpl; intros H1 H2; [reflexivity|].
  apply andb_true_iff in H1 as [Hc H1]. apply andb_true_iff in H2 as [Hl H2].
  rewrite Hl in Hc. simpl in Hc. rewrite Hc. now apply IH.
Qed.

Lemma findRefsInFormula_shape (formula r : jsstring) :
  In r (Util.findRefsInFormula formula) ->
  exists letters digits, r = letters ++ digits /\ upperLabelParts letters digits.
Proof.
  unfold Util.findRefsInFormula, textScan. rewrite newSet_In. intros H.
  apply matchAllFrom_In in H as (pre & prev' & s' & n & E & Hre & ->).
  apply REF_REGEXP_inv in Hre as (ls & ds & rest & Es & Hk & Hp & _ & _).
  exists ls, ds. split.
  - rewrite Hk, Es, app_assoc, firstn_app.
    rewrite Nat.sub_diag, firstn_O, app_nil_r. apply firstn_all.
  - destruct Hp as (Hl & Hla & Hd & Hda). repeat split; try assumption.
    apply letters_upper; [|assumption].
    assert (Hu := upper_letters_are_upper formula). rewrite E, Es in Hu.
    apply forallb_app_inv in Hu as [_ Hu]. now apply forallb_app_inv in Hu as [Hu _].
Qed.

(** ** Canonical labels *)

Lemma string_of_uint_digits (d : Decimal.uint) :
  forallb isDigit (list_ascii_of_string (NilEmpty.string_of_uint d)) = true.
Proof. induction d; simpl; try reflexivity; assumption. Qed.

Lemma String_digits (n : Z) :
  0 <= n -> Util.String n <> [] /\ forallb isDigit (Util.String n) = true.
Proof.
  intros H. unfold Util.String. destruct n as [|p|p]; [| |lia].
  - split; [discriminate | reflexivity].
  - simpl. assert (Hn := DecimalPos.Unsigned.to_uint_nonnil p).
    replace (NilZero.string_of_uint (Pos.to_uint p))
      with (NilEmpty.string_of_uint (Pos.to_uint p))
      by (unfold NilZero.string_of_uint; destruct (Pos.to_uint p); congruence).
    split; [|apply string_of_uint_digits].
    destruct (Pos.to_uint p); simpl; congruence.
Qed.

Lemma Number_String (n : Z) : 0 <= n -> Util.Number (Util.String n) = n.
Proof.
  intros H. unfold Util.Number, Util.String.
  rewrite string_of_list_ascii_of_string.
  destruct n as [|p|p]; [reflexivity| |lia].
  simpl. assert (Hn := DecimalPos.Unsigned.to_uint_nonnil p).
  replace (NilZero.string_of_uint (Pos.to_uint p))
    with (NilEmpty.string_of_uint (Pos.to_uint p))
    by (unfold NilZero.string_of_uint; destruct (Pos.to_uint p); congruence).
  rewrite NilEmpty.usu. unfold Z.of_uint.
  now rewrite DecimalPos.Unsigned.of_to.
Qed.

(** Digits without a leading zero are the decimal writing of their number. *)
Lemma uint_of_string_nzhead (s : string) (u : Decimal.uint) :
  NilEmpty.uint_of_string s = Some u ->
  noLeadingZero (list_ascii_of_string s) = true ->
  NilZero.string_of_uint (Decimal.unorm u) = s.
Proof.
  intros H Hz. assert (Hs := NilEmpty.sus s u H).
  destruct s as [|c s]; [discriminate|].
  simpl in H. destruct (NilEmpty.uint_of_string s) as [u'|] eqn:E; [|destruct c as [[|][|][|][|][|][|][|][|]]; discriminate].
  simpl in Hz.
  destruct (Ascii.eqb c "0") eqn:Ec.
  - apply Ascii.eqb_eq in Ec. subst c. destruct s as [|c' s']; [|simpl in Hz; discriminate].
    simpl in E. injection E as <-. simpl in H. injection H as <-. reflexivity.
  - assert (Hu : Decimal.unorm u = u /\ u <> Decimal.Nil).
    { revert H Ec. clear. unfold NilEmpty.uint_of_string.
      destruct c as [[|][|][|][|][|][|][|][|]]; simpl; intros H Ec; try discriminate;
        injection H as <-; split; try reflexivity; try discriminate. }
    destruct Hu as [-> Hn]. rewrite <- Hs. unfold NilZero.string_of_uint.
    destruct u; congruence.
Qed.

Lemma String_Number (digits : jsstring) :
  forallb isDigit digits = true -> noLeadingZero digits = true ->
  Util.String (Util.Number digits) = digits.
Proof.
  intros Hd Hz. unfold Util.String, Util.Number.
  destruct (NilEmpty.uint_of_string (string_of_list_ascii digits)) as [u|] eqn:E.
  - change (Z.of_uint u) with (Z.of_int (Decimal.Pos u)).
    rewrite DecimalZ.to_of. simpl.
    rewrite (uint_of_string_nzhead _ u E) by now rewrite list_ascii_of_string_of_list_ascii.
    apply list_ascii_of_string_of_list_ascii.
  - exfalso. revert E. clear Hz. induction digits as [|c ds IH]; simpl; [discriminate|].
    simpl in Hd. apply andb_true_iff in Hd as [Hc Hds].
    destruct (NilEmpty.uint_of_string (string_of_list_ascii ds)); [|now apply IH].
    revert Hc. clear. ascii_cases c; simpl; intros Hc; try discriminate; intros; discriminate.
Qed.

Lemma Number_nonneg (digits : jsstring) : 0 <= Util.Number digits.
Proof.
  unfold Util.Number. destruct (NilEmpty.uint_of_string _); [|lia].
  unfold Z.of_uint. lia.
Qed.

Lemma toUpperCase_upper (s : jsstring) :
  forallb isUpper s = true -> toUpperCase s = s.
Proof.
  induction s as [|c s IH]; simpl; intros H; [reflexivity|].
  apply andb_true_iff in H as [Hc Hs]. now rewrite IH, isUpper_upperChar.
Qed.

Lemma forallb_impl (p q : ascii -> bool) (s : jsstring) :
  (forall c, p c = true -> q c = true) -> forallb p s = true -> forallb q s = true.
Proof.
  intros H. induction s as [|c s IH]; simpl; intros Hs; [reflexivity|].
  apply andb_true_iff in Hs as [Hc Hs]. now rewrite (H c Hc), IH.
Qed.

Lemma labelParts_asRefRC (r c : Z) :
  0 <= r -> 1 <= c -> labelParts (Util.colAsLabel c) (Util.String r).
Proof.
  intros Hr Hc. destruct (String_digits r Hr) as [Hn Hd].
  repeat split; try assumption.
  - now apply ColumnFacts.colAsLabel_nonempty.
  - apply (forallb_impl isUpper); [apply isUpper_isLetter | apply ColumnFacts.colAsLabel_upper].
Qed.

(** A label made of a column and a row reads back as that column and row. *)
Lemma asCoords_asRefRC (r c : Z) :
  0 <= r -> 1 <= c ->
  Util.asCoords (Util.Label (Util.asRefRC r c)) = Some {| Util.row := r; Util.col := c |}.
Proof.
  intros Hr Hc. unfold Util.asRefRC.
  rewrite asCoords_parts by now apply labelParts_asRefRC.
  rewrite Number_String by assumption.
  rewrite toUpperCase_upper by apply ColumnFacts.colAsLabel_upper.
  now rewrite ColumnFacts.colIndexFromLabel_colAsLabel.
Qed.

Lemma asCoords_Label_inv (r : jsstring) (co : Util.Coords) :
  Util.asCoords (Util.Label r) = Some co -> 0 <= Util.row co /\ 1 <= Util.col co.
Proof.
  simpl. unfold Util._rowColFromRef.
  destruct (lettersDigits (toUpperCase r)) as [[[ls ds] rest]|] eqn:E; [|discriminate].
  destruct rest; [|discriminate]. intros H. injection H as <-. simpl.
  apply lettersDigits_inv in E as (Es & (Hl & Hla & _) & _ & _).
  split; [apply Number_nonneg|].
  rewrite ColumnFacts.colIndexFromLabel_weighted. apply ColumnFacts.weighted_pos; [assumption|].
  apply letters_upper; [|assumption].
  assert (Hu := upper_letters_are_upper r). rewrite Es in Hu.
  now apply forallb_app_inv in Hu as [Hu _].
Qed.

(** [asRef] returns labels that it leaves as they are. *)
Lemma asRef_idem (r k : jsstring) :
  Util.asRef (Util.Label r) = Some k -> Util.asRef (Util.Label k) = Some k.
Proof.
  unfold Util.asRef. destruct (Util.asCoords (Util.Label r)) as [co|] eqn:E; [|discriminate].
  intros H. injection H as <-. destruct (asCoords_Label_inv r co E) as [Hr Hc].
  change (Util.colAsLabel (Util.col co) ++ Util.String (Util.row co))
    with (Util.asRefRC (Util.row co) (Util.col co)).
  now rewrite asCoords_asRefRC.
Qed.

(** A label in upper-case letters whose row has no leading zero is the
    label [asRef] writes for its coordinate. *)
Lemma asRef_canonical (letters digits : jsstring) :
  upperLabelParts letters digits -> noLeadingZero digits = true ->
  Util.asRef (Util.Label (letters ++ digits)) = Some (letters ++ digits).
Proof.
  intros (Hl & Hu & Hd & Hds) Hz. unfold Util.asRef.
  rewrite asCoords_parts.
  2:{ repeat split; try assumption.
      apply (forallb_impl isUpper); [apply isUpper_isLetter | assumption]. }
  cbn [Util.row Util.col]. rewrite toUpperCase_upper by assumption.
  rewrite ColumnFacts.colAsLabel_colIndexFromLabel by assumption.
  now rewrite String_Number.
Qed.

(** ** Doubles and integers

    Up to [2 ^ 53] every integer is a double and the arithmetic of [Float]
    is the one of [Util]. *)

Module FloatFacts.
Import Float.

Lemma roundNat_safe (z : Z) : 0 <= z <= 2 ^ 53 -> roundNat z = z.
Proof.
  intros H. unfold roundNat. destruct (z <? 2 ^ 53) eqn:E; [reflexivity|].
  apply Z.ltb_ge in E. assert (z = 2 ^ 53) by lia. subst z. reflexivity.
Qed.

Lemma round_safe (z : Z) : - 2 ^ 53 <= z <= 2 ^ 53 -> round z = Fin z.
Proof.
  intros H. unfold round. rewrite roundNat_safe by lia.
  assert (Hbig : 2 ^ 53 < 2 ^ 1024) by reflexivity.
  destruct (2 ^ 1024 <=? Z.abs z) eqn:E; [apply Z.leb_le in E; lia|].
  destruct (z <? 0) eqn:Ez; f_equal; [apply Z.ltb_lt in Ez | apply Z.ltb_ge in Ez]; lia.
Qed.

Lemma add_safe (a b : Z) :
  - 2 ^ 53 <= a + b <= 2 ^ 53 -> add (Fin a) (Fin b) = Fin (a + b).
Proof. intros H. now apply round_safe. Qed.

Lemma sub_safe (a b : Z) :
  - 2 ^ 53 <= a - b <= 2 ^ 53 -> sub (Fin a) (Fin b) = Fin (a - b).
Proof. intros H. unfold sub, neg, add. now apply round_safe. Qed.

Lemma mul_safe (a b : Z) :
  - 2 ^ 53 <= a * b <= 2 ^ 53 -> mul (Fin a) (Fin b) = Fin (a * b).
Proof. intros H. now apply round_safe. Qed.

Lemma pow_safe (x : Z) (k : nat) :
  0 <= x -> x ^ Z.of_nat k <= 2 ^ 53 -> pow x k = Fin (x ^ Z.of_nat k).
Proof.
  intros Hx H. apply round_safe. assert (0 <= x ^ Z.of_nat k) by (apply Z.pow_nonneg; lia). lia.
Qed.

Lemma upper_index (c : ascii) :
  isUpper c = true -> 1 <= Util._colIndexFromSingleLetter c <= 26.
Proof.
  intros Hc. unfold isUpper in Hc. apply andb_true_iff in Hc as [H1 H2].
  apply Z.leb_le in H1, H2. unfold Util._colIndexFromSingleLetter.
  change (charCode "A") with 65. lia.
Qed.

(** Reading a column label: the sum stays below its total. *)
Lemma reduceI_safe (len : nat) (l : jsstring) (i : nat) (acc : Z) :
  len = (i + length l)%nat -> forallb isUpper l = true ->
  0 <= acc -> acc + weighted l <= 2 ^ 53 ->
  Util.reduceI
    (fun acc letter i =>
       add acc
         (mul (Fin (Util._colIndexFromSingleLetter letter))
              (pow Util.ALPHABET_LENGTH (len - i - 1))))
    l i (Fin acc)
  = Fin (acc + weighted l).
Proof.
  revert i acc. induction l as [|c l IH]; intros i acc Hlen Hu Hacc Hmax; cbn [Util.reduceI].
  - cbn [weighted]. f_equal. lia.
  - cbn [forallb] in Hu. apply andb_true_iff in Hu as [Hc Hl].
    cbn [weighted] in Hmax. cbn [length] in Hlen.
    assert (Hi := upper_index c Hc).
    assert (Hw := ColumnFacts.weighted_nonneg l Hl).
    replace (len - i - 1)%nat with (length l) by lia.
    change Util.ALPHABET_LENGTH with 26 in *.
    assert (Hp : 0 < 26 ^ Z.of_nat (length l)) by (apply Z.pow_pos_nonneg; lia).
    rewrite pow_safe by nia. rewrite mul_safe by nia. rewrite add_safe by nia.
    rewrite IH; [cbn [weighted]; f_equal; change Util.ALPHABET_LENGTH with 26; lia
                | lia | assumption | nia | nia].
Qed.

Lemma colIndexFromLabel_safe (l : jsstring) :
  forallb isUpper l = true -> Util.colIndexFromLabel l <= 2 ^ 53 ->
  colIndexFromLabel l = Fin (Util.colIndexFromLabel l).
Proof.
  intros Hu Hmax. rewrite ColumnFacts.colIndexFromLabel_weighted in *.
  unfold colIndexFromLabel. rewrite (reduceI_safe (length l)); try assumption; try lia.
  reflexivity.
Qed.

(** The quotient by 26 of a double up to [2 ^ 53] rounds to a double that
    truncates to the integer quotient: the fraction left is at least 1/26,
    more than half a unit in the last place. *)
Lemma nearest_bounds (n d : Z) :
  0 <= n -> 0 < d ->
  n / d <= nearest n d <= n / d + 1
  /\ (nearest n d = n / d + 1 -> d <= 2 * (n mod d)).
Proof.
  intros Hn Hd. unfold nearest.
  destruct (2 * (n mod d) <? d) eqn:E1; [apply Z.ltb_lt in E1; lia|].
  apply Z.ltb_ge in E1.
  destruct (d <? 2 * (n mod d)); [lia|].
  destruct (Z.even (n / d)); lia.
Qed.

Lemma truncQuotNat_safe (a : Z) :
  0 <= a <= 2 ^ 53 -> truncQuotNat a = a / 26.
Proof.
  intros Ha. unfold truncQuotNat. change Util.ALPHABET_LENGTH with 26.
  destruct (a <? 26) eqn:E; [apply Z.ltb_lt in E; symmetry; apply Z.div_small; lia|].
  apply Z.ltb_ge in E.
  assert (Hq : 1 <= a / 26) by (apply Z.div_le_lower_bound; lia).
  assert (Hq2 : a / 26 < 2 ^ 49).
  { apply Z.div_lt_upper_bound; [lia|]. change (2 ^ 49) with 562949953421312.
    change (2 ^ 53) with 9007199254740992 in Ha. lia. }
  assert (He : Z.log2 (a / 26) < 49) by (apply Z.log2_lt_pow2; lia).
  assert (He0 := Z.log2_nonneg (a / 26)).
  set (e := Z.log2 (a / 26)) in *.
  destruct (e <=? 52) eqn:E52; [|apply Z.leb_gt in E52; lia].
  set (s := 52 - e).
  assert (Hs : 16 <= 2 ^ s).
  { change 16 with (2 ^ 4). apply Z.pow_le_mono_r; unfold s; lia. }
  set (p := 2 ^ s) in *.
  assert (Hdm := Z.div_mod a 26 ltac:(lia)).
  assert (Hm := Z.mod_pos_bound a 26 ltac:(lia)).
  set (q0 := a / 26) in *. set (r := a mod 26) in *.
  destruct (nearest_bounds (a * p) 26 ltac:(nia) ltac:(lia)) as [[Hlo Hhi] Hup].
  assert (Hdm2 := Z.div_mod (a * p) 26 ltac:(lia)).
  assert (Hm2 := Z.mod_pos_bound (a * p) 26 ltac:(lia)).
  set (Q := (a * p) / 26) in *. set (R := (a * p) mod 26) in *.
  (* Q is between q0 * p and q0 * p + p - 1 *)
  assert (HQ1 : q0 * p <= Q) by nia.
  assert (HQ2 : Q < (q0 + 1) * p) by nia.
  symmetry. apply Z.div_unique with (nearest (a * p) 26 - q0 * p).
  - left. split; [lia|].
    destruct (Z.eq_dec (nearest (a * p) 26) (Q + 1)) as [Eq | Ne]; [|lia].
    specialize (Hup Eq).
    (* Q + 1 = (q0 + 1) * p would need p <= 13 *)
    assert (Q + 1 < (q0 + 1) * p); [|lia].
    destruct (Z.eq_dec (Q + 1) ((q0 + 1) * p)) as [Eq2 | Ne2]; [|lia].
    exfalso. nia.
  - lia.
Qed.

Lemma truncQuot_safe (a : Z) :
  0 <= a <= 2 ^ 53 -> truncQuot (Fin a) = Fin (a / 26).
Proof.
  intros Ha. unfold truncQuot.
  destruct (a <? 0) eqn:E; [apply Z.ltb_lt in E; lia|].
  now rewrite truncQuotNat_safe.
Qed.

Lemma geb_Fin (a b : Z) : geb (Fin a) (Fin b) = (b <=? a).
Proof. unfold geb, ltb. destruct (Z.ltb_spec a b), (Z.leb_spec b a); auto; lia. Qed.

(** Within [2 ^ 53] the loop of [colAsLabel] on doubles is the one on
    integers, and it has exited when its turns are spent. *)
Lemma colAsLabel_loop_safe (fuel : nat) :
  forall colIndex colRef,
    -1 <= colIndex <= 2 ^ 53 -> colIndex + 1 < 2 ^ Z.of_nat fuel ->
    colAsLabel_loop fuel (Fin colIndex) colRef
    = Some (Util.colAsLabel_loop fuel colIndex colRef).
Proof.
  induction fuel as [|fuel IH]; intros colIndex colRef Hc Hf.
  - cbn [colAsLabel_loop Util.colAsLabel_loop]. rewrite geb_Fin.
    change (2 ^ Z.of_nat 0) with 1 in Hf.
    destruct (0 <=? colIndex) eqn:E; [apply Z.leb_le in E; lia | reflexivity].
  - cbn [colAsLabel_loop Util.colAsLabel_loop]. rewrite geb_Fin.
    destruct (0 <=? colIndex) eqn:E; [|reflexivity].
    apply Z.leb_le in E.
    rewrite truncQuot_safe by lia. unfold rem. change Util.ALPHABET_LENGTH with 26.
    rewrite Z.quot_div_nonneg, Z.rem_mod_nonneg by lia.
    assert (Hm := Z.mod_pos_bound colIndex 26 ltac:(lia)).
    assert (Hq : 0 <= colIndex / 26) by (apply Z.div_pos; lia).
    assert (Hq2 : colIndex / 26 <= colIndex) by (apply Z.div_le_upper_bound; lia).
    rewrite sub_safe by lia. rewrite add_safe by lia.
    cbn [_colSingleLetter]. apply IH; [lia|].
    rewrite Nat2Z.inj_succ, Z.pow_succ_r in Hf by lia.
    assert (colIndex / 26 <= colIndex / 2) by (apply Z.div_le_compat_l; lia).
    assert (colIndex / 2 < 2 ^ Z.of_nat fuel) by (apply Z.div_lt_upper_bound; lia).
    lia.
Qed.

Lemma colAsLabel_safe (n : Z) :
  1 <= n <= 2 ^ 53 -> colAsLabel (Fin n) = Some (Util.colAsLabel n).
Proof.
  intros H. unfold colAsLabel, Util.colAsLabel. rewrite sub_safe by lia.
  apply colAsLabel_loop_safe; [lia|]. apply ColumnFacts.colAsLabel_fuel. lia.
Qed.

Lemma Number_safe (digits : jsstring) :
  Util.Number digits <= 2 ^ 53 -> Number digits = Fin (Util.Number digits).
Proof.
  intros H. apply round_safe. assert (Hn := Number_nonneg digits). lia.
Qed.

Lemma String_safe (z : Z) : Z.abs z < 10 ^ 21 -> String (Fin z) = Util.String z.
Proof.
  intros H. unfold String. destruct (Z.abs z <? 10 ^ 21) eqn:E; [reflexivity|].
  apply Z.ltb_ge in E. lia.
Qed.

(** Rounding does not pass the next power of two, nor the next double. *)
Lemma roundNat_pow2 (y m : Z) :
  0 <= y < 2 ^ m -> 0 <= roundNat y <= 2 ^ m.
Proof.
  intros [Hy Hm]. unfold roundNat.
  destruct (y <? 2 ^ 53) eqn:E; [lia|]. apply Z.ltb_ge in E.
  assert (H53 : 0 < 2 ^ 53) by reflexivity.
  assert (Hlog := Z.log2_spec y ltac:(lia)).
  assert (He : 53 <= Z.log2 y) by (apply Z.log2_le_pow2; lia).
  assert (Hem : Z.log2 y < m) by (apply Z.log2_lt_pow2; lia).
  set (e := Z.log2 y) in *.
  set (u := 2 ^ (e - 52)).
  assert (Hu : 0 < u) by (apply Z.pow_pos_nonneg; lia).
  assert (Hsplit : 2 ^ Z.succ e = 2 ^ 53 * u).
  { unfold u. rewrite <- Z.pow_add_r by lia. f_equal. lia. }
  destruct (nearest_bounds y u Hy Hu) as [[Hlo Hhi] _].
  assert (Hq : 0 <= y / u) by (apply Z.div_pos; lia).
  assert (Hq2 : y / u < 2 ^ 53) by (apply Z.div_lt_upper_bound; lia).
  assert (Hle : 2 ^ Z.succ e <= 2 ^ m) by (apply Z.pow_le_mono_r; lia).
  split; [nia|]. nia.
Qed.

Lemma roundNat_pos (y : Z) : 1 <= y -> 1 <= roundNat y.
Proof.
  intros Hy. unfold roundNat.
  destruct (y <? 2 ^ 53) eqn:E; [lia|]. apply Z.ltb_ge in E.
  assert (H53 : 0 < 2 ^ 53) by reflexivity.
  assert (Hlog := Z.log2_spec y ltac:(lia)).
  assert (He : 53 <= Z.log2 y) by (apply Z.log2_le_pow2; lia).
  set (e := Z.log2 y) in *.
  set (u := 2 ^ (e - 52)).
  assert (Hu : 0 < u) by (apply Z.pow_pos_nonneg; lia).
  destruct (nearest_bounds y u ltac:(lia) Hu) as [[Hlo Hhi] _].
  assert (Hq : 1 <= y / u).
  { apply Z.div_le_lower_bound; [lia|].
    assert (u <= 2 ^ e) by (apply Z.pow_le_mono_r; lia). lia. }
  nia.
Qed.

Lemma roundNat_below (y z : Z) :
  0 <= y <= z -> roundNat z = z -> roundNat y <= z.
Proof.
  intros [Hy Hyz] Hz.
  destruct (Z.ltb_spec y (2 ^ 53)) as [Hs | Hb].
  { unfold roundNat. apply Z.ltb_lt in Hs. rewrite Hs. lia. }
  assert (H53 : 0 < 2 ^ 53) by reflexivity.
  assert (Hlog := Z.log2_spec y ltac:(lia)).
  destruct (Z.ltb_spec z (2 ^ Z.succ (Z.log2 y))) as [Hsame | Hnext].
  - assert (Ee : Z.log2 z = Z.log2 y).
    { apply Z.log2_unique; [apply Z.log2_nonneg | lia]. }
    unfold roundNat in *.
    destruct (z <? 2 ^ 53) eqn:Ez; [apply Z.ltb_lt in Ez; lia|].
    destruct (y <? 2 ^ 53) eqn:Ey; [apply Z.ltb_lt in Ey; lia|].
    rewrite Ee in Hz.
    assert (He : 53 <= Z.log2 y) by (apply Z.log2_le_pow2; lia).
    set (u := 2 ^ (Z.log2 y - 52)) in *.
    assert (Hu : 0 < u) by (apply Z.pow_pos_nonneg; lia).
    destruct (nearest_bounds y u ltac:(lia) Hu) as [[Hlo Hhi] _].
    set (k := nearest z u) in *.
    assert (Hdm := Z.div_mod y u ltac:(lia)).
    assert (Hm := Z.mod_pos_bound y u Hu).
    destruct (Z.eq_dec y z) as [-> | Hne]; [fold k; lia|].
    assert (y / u < k) by nia. nia.
  - destruct (roundNat_pow2 y (Z.succ (Z.log2 y)) ltac:(lia)) as [_ H]. lia.
Qed.

(** The quotient by 26, rounded and truncated, is at most a sixteenth. *)
Lemma truncQuotNat_bound (a : Z) : 0 <= a -> 0 <= truncQuotNat a <= a / 16.
Proof.
  intros Ha.
  destruct (Z.leb_spec a (2 ^ 53)) as [Hs | Hb].
  { rewrite truncQuotNat_safe by lia. split; [apply Z.div_pos; lia|].
    apply Z.div_le_compat_l; lia. }
  assert (H53 : 2 ^ 53 = 9007199254740992) by reflexivity.
  unfold truncQuotNat. change Util.ALPHABET_LENGTH with 26.
  destruct (a <? 26) eqn:E; [apply Z.ltb_lt in E; lia|]. clear E.
  assert (Hq : 1 <= a / 26) by (apply Z.div_le_lower_bound; lia).
  assert (Hlog := Z.log2_spec (a / 26) ltac:(lia)).
  assert (He0 := Z.log2_nonneg (a / 26)).
  assert (Hdm := Z.div_mod a 26 ltac:(lia)).
  assert (Hm := Z.mod_pos_bound a 26 ltac:(lia)).
  set (q := a / 26) in *. set (e := Z.log2 q) in *.
  destruct (e <=? 52) eqn:E52.
  - apply Z.leb_le in E52.
    set (p := 2 ^ (52 - e)).
    assert (Hp : 0 < p) by (apply Z.pow_pos_nonneg; lia).
    destruct (nearest_bounds (a * p) 26 ltac:(nia) ltac:(lia)) as [[Hlo Hhi] _].
    assert (Hdm2 := Z.div_mod (a * p) 26 ltac:(lia)).
    assert (Hm2 := Z.mod_pos_bound (a * p) 26 ltac:(lia)).
    assert (Hdm3 := Z.div_mod (a * p) 16 ltac:(lia)).
    assert (Hm3 := Z.mod_pos_bound (a * p) 16 ltac:(lia)).
    assert (HN : nearest (a * p) 26 <= a * p / 16) by nia.
    assert (HN0 : 0 <= nearest (a * p) 26) by (assert (0 <= a * p / 26) by (apply Z.div_pos; nia); lia).
    split; [apply Z.div_pos; lia|].
    apply Z.div_le_lower_bound; [lia|].
    assert (Hdm4 := Z.div_mod (nearest (a * p) 26) p ltac:(lia)).
    assert (Hm4 := Z.mod_pos_bound (nearest (a * p) 26) p Hp).
    set (t := nearest (a * p) 26 / p) in *.
    assert (16 * (t * p) <= a * p) by nia. nia.
  - apply Z.leb_gt in E52.
    set (p := 2 ^ (e - 52)).
    assert (Hp : 0 < p) by (apply Z.pow_pos_nonneg; lia).
    assert (Hpe : p * 2 ^ 52 = 2 ^ e).
    { unfold p. rewrite <- Z.pow_add_r by lia. f_equal. lia. }
    assert (H52 : 2 ^ 52 = 4503599627370496) by reflexivity.
    destruct (nearest_bounds a (26 * p) ltac:(lia) ltac:(lia)) as [[Hlo Hhi] _].
    assert (Hdm2 := Z.div_mod a (26 * p) ltac:(lia)).
    assert (Hm2 := Z.mod_pos_bound a (26 * p) ltac:(lia)).
    assert (HM : 0 <= a / (26 * p)) by (apply Z.div_pos; lia).
    set (M := a / (26 * p)) in *.
    split; [nia|].
    apply Z.div_le_lower_bound; [lia|]. nia.
Qed.

Lemma sub_Fin (a b : Z) : sub (Fin a) (Fin b) = round (a - b).
Proof. reflexivity. Qed.

Lemma round_nonneg (y : Z) :
  0 <= y -> roundNat y < 2 ^ 1024 -> round y = Fin (roundNat y).
Proof.
  intros Hy Hr. unfold round. rewrite Z.abs_eq by lia.
  destruct (2 ^ 1024 <=? roundNat y) eqn:E1; [apply Z.leb_le in E1; lia|].
  destruct (y <? 0) eqn:E2; [apply Z.ltb_lt in E2; lia | reflexivity].
Qed.

Lemma loop_exited (fuel : nat) (x : num) (colRef : jsstring) :
  geb x (Fin 0) = false -> colAsLabel_loop fuel x colRef = Some colRef.
Proof. intros H. destruct fuel; cbn [colAsLabel_loop]; now rewrite H. Qed.

(** The loop of [colAsLabel] exits on every finite double: each turn leaves
    at most a sixteenth of the column. *)
Lemma colAsLabel_loop_exits (fuel : nat) :
  forall c colRef,
    c < 0 \/ ((1 <= fuel)%nat /\ c <= 2 ^ (4 * Z.of_nat fuel - 3) /\ c <= 2 ^ 1024) ->
    exists label,
      forall extra, colAsLabel_loop (fuel + extra) (Fin c) colRef = Some label.
Proof.
  induction fuel as [|fuel IH]; intros c colRef H.
  - destruct H as [H | [H _]]; [|lia].
    exists colRef. intros extra. apply loop_exited. rewrite geb_Fin.
    apply Z.leb_gt. lia.
  - destruct (Z.ltb_spec c 0) as [Hneg | Hpos].
    { exists colRef. intros extra. apply loop_exited. rewrite geb_Fin.
      apply Z.leb_gt. lia. }
    destruct H as [H | (_ & Hc & Hmax)]; [lia|].
    destruct (truncQuotNat_bound c Hpos) as [Ht0 Ht].
    assert (Hstep : exists c',
               sub (truncQuot (Fin c)) (Fin 1) = Fin c'
               /\ (c' < 0 \/ ((1 <= fuel)%nat /\ c' <= 2 ^ (4 * Z.of_nat fuel - 3)
                              /\ c' <= 2 ^ 1024))).
    { unfold truncQuot. destruct (c <? 0) eqn:E; [apply Z.ltb_lt in E; lia|].
      rewrite sub_Fin.
      destruct (Z.eq_dec (truncQuotNat c) 0) as [E0 | Hne].
      { rewrite E0. exists (-1). split; [reflexivity | left; lia]. }
      assert (Hf : (1 <= fuel)%nat).
      { destruct fuel; [|lia]. exfalso.
        change (2 ^ (4 * Z.of_nat 1 - 3)) with 2 in Hc.
        assert (c / 16 = 0) by (apply Z.div_small; lia). lia. }
      assert (Hq1 : c / 16 <= 2 ^ (4 * Z.of_nat fuel - 3)).
      { replace (4 * Z.of_nat (S fuel) - 3) with (4 + (4 * Z.of_nat fuel - 3)) in Hc by lia.
        rewrite Z.pow_add_r in Hc by lia. change (2 ^ 4) with 16 in Hc.
        apply Z.div_le_upper_bound; lia. }
      assert (Hq2 : c / 16 <= 2 ^ 1020).
      { apply Z.div_le_upper_bound; [lia|].
        change (16 * 2 ^ 1020) with (2 ^ 1024). exact Hmax. }
      set (y := truncQuotNat c - 1).
      assert (Hy : 0 <= y) by (unfold y; lia).
      destruct (roundNat_pow2 y (4 * Z.of_nat fuel - 3) ltac:(unfold y; lia)) as [R0 R1].
      destruct (roundNat_pow2 y 1020 ltac:(unfold y; lia)) as [_ R2].
      assert (Hbig : 2 ^ 1020 < 2 ^ 1024) by reflexivity.
      exists (roundNat y). split.
      - apply round_nonneg; lia.
      - right. split; [exact Hf|]. lia. }
    destruct Hstep as (c' & Ec' & Hc').
    destruct (IH c' (_colSingleLetter (add (rem (Fin c)) (Fin 1)) :: colRef) Hc')
      as (label & Hl).
    exists label. intros extra. cbn [Nat.add colAsLabel_loop]. rewrite geb_Fin.
    destruct (0 <=? c) eqn:E; [|apply Z.leb_gt in E; lia].
    rewrite Ec'. apply Hl.
Qed.

(** [colAsLabel] returns on every finite double: the loop has exited when
    its turns are spent, and further turns leave the label as it is. *)
Lemma colAsLabel_exits (z : Z) :
  round z = Fin z ->
  exists label,
    colAsLabel (Fin z) = Some label
    /\ forall extra,
         colAsLabel_loop (S (Z.to_nat (Z.log2 z)) + extra) (sub (Fin z) (Fin 1)) []
         = Some label.
Proof.
  intros Hz.
  assert (Hall : exists label, forall extra,
             colAsLabel_loop (S (Z.to_nat (Z.log2 z)) + extra) (sub (Fin z) (Fin 1)) []
             = Some label).
  { destruct (Z.ltb_spec z 1) as [Hlow | Hpos].
    - exists []. intros extra. apply loop_exited.
      rewrite sub_Fin. unfold round.
      destruct (z - 1 <? 0) eqn:E; [|apply Z.ltb_ge in E; lia].
      destruct (2 ^ 1024 <=? roundNat (Z.abs (z - 1))); [reflexivity|].
      rewrite geb_Fin. apply Z.leb_gt.
      assert (1 <= roundNat (Z.abs (z - 1))) by (apply roundNat_pos; lia). lia.
    - assert (Hr : roundNat z = z /\ z < 2 ^ 1024).
      { unfold round in Hz. rewrite Z.abs_eq in Hz by lia.
        destruct (2 ^ 1024 <=? roundNat z) eqn:E1.
        - destruct (z <? 0); discriminate Hz.
        - apply Z.leb_gt in E1.
          destruct (z <? 0) eqn:E2; [apply Z.ltb_lt in E2; lia|].
          injection Hz as Hz. lia. }
      destruct Hr as [Hr Hfin].
      assert (Hlog := Z.log2_spec z ltac:(lia)).
      assert (He := Z.log2_nonneg z).
      set (e := Z.log2 z) in *.
      assert (Hb1 := roundNat_below (z - 1) z ltac:(lia) Hr).
      destruct (roundNat_pow2 (z - 1) (Z.succ e) ltac:(lia)) as [R0 R1].
      rewrite sub_Fin, round_nonneg by lia. apply colAsLabel_loop_exits. right.
      split; [lia|]. split; [|lia].
      rewrite Nat2Z.inj_succ, Z2Nat.id by lia.
      assert (2 ^ Z.succ e <= 2 ^ (4 * Z.succ e - 3)) by (apply Z.pow_le_mono_r; lia).
      lia. }
  destruct Hall as (label & Hl). exists label. split; [|exact Hl].
  unfold colAsLabel. rewrite <- (Hl 0%nat). now rewrite Nat.add_0_r.
Qed.

(** On [Infinity] the loop does not exit, whatever the turns. *)
Lemma colAsLabel_loop_Infinity (fuel : nat) :
  forall colRef, colAsLabel_loop fuel PInf colRef = None.
Proof.
  induction fuel as [|fuel IH]; intros colRef; cbn [colAsLabel_loop]; [reflexivity|].
  cbn [geb ltb negb truncQuot]. apply IH.
Qed.

End FloatFacts.

(** C5 (amended). Column-label round trip on doubles: for every column
    number [n] from 1 to [2 ^ 53], [colAsLabel n] returns a label (the loop
    has exited when its turns are spent, more turns giving the same label),
    which is the label of the integer [n], and [colIndexFromLabel] reads
    [n] back from it; 27 is "AA", 702 is "ZZ" and 703 is "AAA". *)
Theorem column_label_roundtrip (n : Z) :
  1 <= n <= 2 ^ 53 ->
  (exists label,
      Float.colAsLabel (Float.Fin n) = Some label
      /\ Float.colIndexFromLabel label = Float.Fin n
      /\ label = Util.colAsLabel n
      /\ Util.colIndexFromLabel label = n
      /\ forall extra,
           Float.colAsLabel_loop (S (Z.to_nat (Z.log2 n)) + extra)
             (Float.sub (Float.Fin n) (Float.Fin 1)) []
           = Some label)
  /\ Float.colAsLabel (Float.Fin 27) = Some (str "AA")
  /\ Float.colAsLabel (Float.Fin 702) = Some (str "ZZ")
  /\ Float.colAsLabel (Float.Fin 703) = Some (str "AAA").
Proof.
  intros Hn. split; [|repeat split; reflexivity].
  exists (Util.colAsLabel n).
  assert (Hback : Util.colIndexFromLabel (Util.colAsLabel n) = n)
    by (apply ColumnFacts.colIndexFromLabel_colAsLabel; lia).
  split; [now apply FloatFacts.colAsLabel_safe|].
  split; [|split; [reflexivity | split; [exact Hback|]]].
  - rewrite FloatFacts.colIndexFromLabel_safe; [now rewrite Hback | | rewrite Hback; lia].
    apply ColumnFacts.colAsLabel_upper.
  - intros extra. rewrite FloatFacts.sub_safe by lia.
    rewrite FloatFacts.colAsLabel_loop_safe.
    + now rewrite ColumnFacts.colAsLabel_enough_fuel.
    + lia.
    + assert (H := ColumnFacts.colAsLabel_fuel n ltac:(lia)).
      rewrite Nat2Z.inj_add, Z.pow_add_r by lia.
      assert (0 < 2 ^ Z.of_nat extra) by (apply Z.pow_pos_nonneg; lia). nia.
Qed.

Lemma column_label_roundtrip_witness :
  exists label,
    Float.colAsLabel (Float.Fin 703) = Some label
    /\ Float.colIndexFromLabel label = Float.Fin 703.
Proof.
  destruct (proj1 (column_label_roundtrip 703 ltac:(split; [lia | vm_compute; discriminate])))
    as (label & E1 & E2 & _).
  exists label. split; assumption.
Defined.

(** C5 as stated fails past [2 ^ 53]: the column [2 ^ 53 + 2] is a double,
    [colAsLabel] starts with [colIndex - 1], which rounds to [2 ^ 53], and
    the label it builds, "BKTXHSOGHKKG", reads back as [2 ^ 53]. *)
Lemma column_label_roundtrip_counterexample :
  let n := 2 ^ 53 + 2 in
  Float.round n = Float.Fin n
  /\ Float.sub (Float.Fin n) (Float.Fin 1) = Float.Fin (2 ^ 53)
  /\ Float.colAsLabel (Float.Fin n) = Some (str "BKTXHSOGHKKG")
  /\ Float.colIndexFromLabel (str "BKTXHSOGHKKG") = Float.Fin (2 ^ 53)
  /\ Float.Fin (2 ^ 53) <> Float.Fin n.
Proof.
  repeat split; try (vm_compute; reflexivity). vm_compute. discriminate.
Qed.

(** ** The expansion of a range *)

Lemma concat_length_uniform {A} (rows : list (list A)) (k : nat) :
  (forall r, In r rows -> length r = k) ->
  length (concat rows) = (length rows * k)%nat.
Proof.
  induction rows as [|r rows IH]; intros H; simpl; [reflexivity|].
  rewrite length_app, IH by (intros; apply H; simpl; auto).
  rewrite (H r) by (simpl; auto). reflexivity.
Qed.

Lemma concat_nth_uniform {A} (rows : list (list A)) (k i j : nat) (d : A) :
  (forall r, In r rows -> length r = k) -> (i < length rows)%nat -> (j < k)%nat ->
  nth (i * k + j) (concat rows) d = nth j (nth i rows []) d.
Proof.
  revert i. induction rows as [|r rows IH]; intros i H Hi Hj; simpl in Hi; [lia|].
  assert (Hr : length r = k) by (apply H; simpl; auto).
  cbn [concat]. destruct i as [|i].
  - simpl. rewrite app_nth1 by lia. reflexivity.
  - rewrite app_nth2 by (simpl; lia). rewrite Hr.
    replace (S i * k + j - k)%nat with (i * k + j)%nat by (simpl; lia).
    cbn [nth]. apply IH; [intros; apply H; simpl; auto | lia | assumption].
Qed.

(** ** Labels and ranges on doubles *)

Lemma asCoords_safe (r : jsstring) (co : Util.Coords) :
  Util.asCoords (Util.Label r) = Some co -> safeCoords co ->
  Float.asCoords (Float.Label r) = Float.Returns (floatCoords co).
Proof.
  intros E [Hr Hc]. destruct (asCoords_Label_inv r co E) as [Hr0 Hc0].
  revert E. cbn [Util.asCoords]. unfold Float.asCoords, Util._rowColFromRef, Float._rowColFromRef.
  destruct (lettersDigits (toUpperCase r)) as [[[ls ds] rest]|] eqn:El; [|discriminate].
  destruct rest; [|discriminate]. intros E. injection E as <-.
  cbn [Util.row Util.col] in *. unfold floatCoords. cbn [Util.row Util.col].
  apply lettersDigits_inv in El as (Es & (Hl & Hla & _) & _ & _).
  assert (Hu : forallb isUpper ls = true).
  { apply letters_upper; [|assumption].
    assert (Hup := upper_letters_are_upper r). rewrite Es in Hup.
    now apply forallb_app_inv in Hup as [Hup _]. }
  cbn [Float.andThen Float.col].
  rewrite FloatFacts.colIndexFromLabel_safe, FloatFacts.Number_safe by assumption.
  rewrite FloatFacts.colAsLabel_safe by lia. reflexivity.
Qed.

Lemma asRef_safe (r c : Z) :
  0 <= r <= 2 ^ 53 -> 1 <= c <= 2 ^ 53 ->
  Float.asRef (Float.RowCol (Float.Fin r) (Float.Fin c)) = Float.Returns (Util.asRefRC r c).
Proof.
  intros Hr Hc. unfold Float.asRef, Float.asCoords. cbn [Float.andThen Float.col Float.row].
  rewrite FloatFacts.colAsLabel_safe by lia. cbn [Float.andThen Float.col Float.row].
  rewrite FloatFacts.colAsLabel_safe by lia.
  rewrite FloatFacts.String_safe; [reflexivity|].
  assert (2 ^ 53 < 10 ^ 21) by reflexivity. lia.
Qed.

Lemma mapResult_Returns {A B C} (fn : A -> Float.result B) (f : C -> A) (g : C -> B)
  (l : list C) :
  (forall x, In x l -> fn (f x) = Float.Returns (g x)) ->
  Float.mapResult fn (map f l) = Float.Returns (map g l).
Proof.
  induction l as [|x l IH]; intros H; cbn [map Float.mapResult]; [reflexivity|].
  rewrite (H x) by now left. cbn [Float.andThen].
  rewrite IH by (intros y Hy; apply H; now right). reflexivity.
Qed.

Lemma sequenceMap_safe {A} (n : Z) (fn : Float.num -> Float.result A) (g : Z -> A) :
  0 <= n < 2 ^ 32 ->
  (forall i, 0 <= i < n -> fn (Float.Fin i) = Float.Returns (g i)) ->
  Float.sequenceMap (Float.Fin n) fn = Float.Returns (Util.sequenceMap n g).
Proof.
  intros Hn H. unfold Float.sequenceMap, Float.sequence, Util.sequenceMap, Util.sequence.
  replace ((0 <=? n) && (n <? 2 ^ 32)) with true
    by (symmetry; apply andb_true_iff; split; [apply Z.leb_le | apply Z.ltb_lt]; lia).
  cbn [Float.andThen]. rewrite map_map.
  apply (mapResult_Returns fn (fun i => Float.Fin (Z.of_nat i)) (fun i => g (Z.of_nat i))).
  intros x Hx. apply in_seq in Hx. apply H. lia.
Qed.

(** The expansion of a range in the integer model, for the record. *)
Lemma expandRange_parts (l1 d1 l2 d2 : jsstring) :
  labelParts l1 d1 -> labelParts l2 d2 ->
  let top := Util.Number d1 in
  let left := Util.colIndexFromLabel (toUpperCase l1) in
  let bottom := Util.Number d2 in
  let right := Util.colIndexFromLabel (toUpperCase l2) in
  Util.expandRange (l1 ++ d1 ++ str ":" ++ l2 ++ d2)
  = if (bottom <? top) || (right <? left) then Some []
    else Some (Util.sequenceMap (bottom - top + 1)
                 (fun rowIndex =>
                    Util.sequenceMap (right - left + 1)
                      (fun colIndex => Util.asRefRC (top + rowIndex) (left + colIndex)))).
Proof.
  intros H1 H2. unfold Util.expandRange.
  rewrite (execFrom_head _ _ _ _ (rangeGroupsAt_range l1 d1 l2 d2 H1 H2)).
  rewrite !asCoords_parts by assumption. reflexivity.
Qed.

(** Within [2 ^ 53], and for fewer than [2 ^ 32] rows and columns, a range
    expands on doubles as it does on integers. *)
Lemma expandRange_safe (l1 d1 l2 d2 : jsstring) :
  labelParts l1 d1 -> labelParts l2 d2 ->
  let top := Util.Number d1 in
  let left := Util.colIndexFromLabel (toUpperCase l1) in
  let bottom := Util.Number d2 in
  let right := Util.colIndexFromLabel (toUpperCase l2) in
  let range := l1 ++ d1 ++ str ":" ++ l2 ++ d2 in
  top <= 2 ^ 53 -> bottom <= 2 ^ 53 -> left <= 2 ^ 53 -> right <= 2 ^ 53 ->
  (bottom < top \/ right < left
   \/ (bottom - top + 1 < 2 ^ 32 /\ right - left + 1 < 2 ^ 32)) ->
  exists rows,
    Util.expandRange range = Some rows /\ Float.expandRange range = Float.Returns rows.
Proof.
  intros H1 H2 top left bottom right range Ht Hb Hl Hr Hsize.
  assert (E := expandRange_parts l1 d1 l2 d2 H1 H2). cbv zeta in E.
  fold top left bottom right range in E.
  assert (C1 := asCoords_parts l1 d1 H1). assert (C2 := asCoords_parts l2 d2 H2).
  destruct (asCoords_Label_inv _ _ C1) as [Htop Hleft].
  destruct (asCoords_Label_inv _ _ C2) as [Hbot Hright].
  cbn [Util.row Util.col] in Htop, Hleft, Hbot, Hright.
  fold top in Htop. fold left in Hleft. fold bottom in Hbot. fold right in Hright.
  unfold Float.expandRange. fold range. unfold range at 2.
  rewrite (execFrom_head _ _ _ _ (rangeGroupsAt_range l1 d1 l2 d2 H1 H2)).
  rewrite (asCoords_safe _ _ C1) by (split; assumption). cbn [Float.andThen].
  rewrite (asCoords_safe _ _ C2) by (split; assumption). cbn [Float.andThen].
  unfold floatCoords. cbn [Float.row Float.col Util.row Util.col]. fold top left bottom right.
  cbn [Float.ltb]. rewrite E.
  destruct ((bottom <? top) || (right <? left)) eqn:Einv.
  - eexists. split; reflexivity.
  - apply orb_false_iff in Einv as [E1 E2]. apply Z.ltb_ge in E1, E2.
    destruct Hsize as [Hs | [Hs | [Hs1 Hs2]]]; [lia | lia |].
    eexists. split; [reflexivity|].
    rewrite !FloatFacts.sub_safe by lia. rewrite !FloatFacts.add_safe by lia.
    apply sequenceMap_safe; [lia|]. intros i Hi.
    apply sequenceMap_safe; [lia|]. intros j Hj.
    rewrite !FloatFacts.add_safe by lia. apply asRef_safe; lia.
Qed.

(** C6 (amended). Range expansion on doubles: for a range [l1 d1 : l2 d2]
    whose rows and columns are at most [2 ^ 53], whose top-left corner is at
    or above-left of its bottom-right corner and which spans fewer than
    [2 ^ 32] rows and fewer than [2 ^ 32] columns, [expandRange] returns one
    row for each row of the range, from the top one down, each row holding
    the labels of its columns from the left one on (both ends included):
    rows times columns labels, the one at place [i * columns + j] of the
    flattened result being the label of the coordinate (top + i, left + j);
    when the bottom-right corner is strictly above or strictly left of the
    top-left one it returns the empty sequence and does not fail. *)
Theorem expandRange_row_major (l1 d1 l2 d2 : jsstring) :
  labelParts l1 d1 -> labelParts l2 d2 ->
  let top := Util.Number d1 in
  let left := Util.colIndexFromLabel (toUpperCase l1) in
  let bottom := Util.Number d2 in
  let right := Util.colIndexFromLabel (toUpperCase l2) in
  let range := l1 ++ d1 ++ str ":" ++ l2 ++ d2 in
  top <= 2 ^ 53 -> bottom <= 2 ^ 53 -> left <= 2 ^ 53 -> right <= 2 ^ 53 ->
  (top <= bottom -> left <= right ->
   bottom - top + 1 < 2 ^ 32 -> right - left + 1 < 2 ^ 32 ->
   exists rows,
     Float.expandRange range = Float.Returns rows
     /\ Z.of_nat (length rows) = bottom - top + 1
     /\ (forall i, (i < length rows)%nat ->
           Z.of_nat (length (nth i rows [])) = right - left + 1
           /\ forall j, (j < length (nth i rows []))%nat ->
                Float.asRef (Float.RowCol (Float.Fin (top + Z.of_nat i))
                                          (Float.Fin (left + Z.of_nat j)))
                = Float.Returns (nth j (nth i rows []) []))
     /\ Z.of_nat (length (concat rows)) = (bottom - top + 1) * (right - left + 1)
     /\ (forall i j, 0 <= i <= bottom - top -> 0 <= j <= right - left ->
           Float.asCoords
             (Float.Label (nth (Z.to_nat (i * (right - left + 1) + j)) (concat rows) []))
           = Float.Returns {| Float.row := Float.Fin (top + i);
                              Float.col := Float.Fin (left + j) |}))
  /\ (bottom < top \/ right < left -> Float.expandRange range = Float.Returns []).
Proof.
  intros H1 H2 top left bottom right range Ht Hb Hl Hr.
  assert (E := expandRange_parts l1 d1 l2 d2 H1 H2). cbv zeta in E.
  fold top left bottom right range in E.
  destruct (asCoords_Label_inv _ _ (asCoords_parts l1 d1 H1)) as [Htop Hleft].
  cbn [Util.row Util.col] in Htop, Hleft. fold top in Htop. fold left in Hleft.
  split.
  - intros Hrow Hcol Hs1 Hs2.
    destruct (expandRange_safe l1 d1 l2 d2 H1 H2 Ht Hb Hl Hr) as (rows & Eu & Ef).
    { right. right. split; assumption. }
    fold range in Eu, Ef. exists rows. split; [exact Ef|].
    rewrite E in Eu.
    replace ((bottom <? top) || (right <? left)) with false in Eu
      by (symmetry; apply orb_false_iff; split; apply Z.ltb_ge; lia).
    injection Eu as <-.
    assert (Hrows : forall i, (i < Z.to_nat (bottom - top + 1))%nat ->
              nth i (Util.sequenceMap (bottom - top + 1)
                (fun rowIndex => Util.sequenceMap (right - left + 1)
                   (fun colIndex => Util.asRefRC (top + rowIndex) (left + colIndex)))) []
              = Util.sequenceMap (right - left + 1)
                   (fun colIndex => Util.asRefRC (top + Z.of_nat i) (left + colIndex))).
    { intros i Hi. now rewrite sequenceMap_nth. }
    assert (Huni : forall r,
              In r (Util.sequenceMap (bottom - top + 1)
                (fun rowIndex => Util.sequenceMap (right - left + 1)
                   (fun colIndex => Util.asRefRC (top + rowIndex) (left + colIndex)))) ->
              length r = Z.to_nat (right - left + 1)).
    { intros r Hin. unfold Util.sequenceMap in Hin. apply in_map_iff in Hin as [x [<- _]].
      apply sequenceMap_length. }
    split; [rewrite sequenceMap_length; lia|].
    split; [|split].
    + intros i Hi. rewrite sequenceMap_length in Hi. rewrite Hrows by assumption.
      split; [rewrite sequenceMap_length; lia|].
      intros j Hj. rewrite sequenceMap_length in Hj. rewrite sequenceMap_nth by assumption.
      apply asRef_safe; lia.
    + rewrite (concat_length_uniform _ _ Huni), sequenceMap_length. lia.
    + intros i j Hi Hj.
      replace (Z.to_nat (i * (right - left + 1) + j))
        with (Z.to_nat i * Z.to_nat (right - left + 1) + Z.to_nat j)%nat by nia.
      rewrite (concat_nth_uniform _ _ _ _ _ Huni) by (rewrite ?sequenceMap_length; lia).
      rewrite Hrows by lia. rewrite sequenceMap_nth by lia.
      rewrite !Z2Nat.id by lia.
      apply (asCoords_safe _ {| Util.row := top + i; Util.col := left + j |}).
      * apply asCoords_asRefRC; lia.
      * split; cbn [Util.row Util.col]; lia.
  - intros Hinv.
    destruct (expandRange_safe l1 d1 l2 d2 H1 H2 Ht Hb Hl Hr) as (rows & Eu & Ef).
    { destruct Hinv; [left | right; left]; assumption. }
    fold range in Eu, Ef. rewrite Ef. f_equal. rewrite E in Eu.
    replace ((bottom <? top) || (right <? left)) with true in Eu; [congruence|].
    symmetry. apply orb_true_iff. destruct Hinv; [left | right]; now apply Z.ltb_lt.
Qed.

Lemma labelParts_A1 : labelParts (str "A") (str "1").
Proof. repeat split; discriminate. Qed.

Lemma labelParts_C4 : labelParts (str "C") (str "4").
Proof. repeat split; discriminate. Qed.

Lemma expandRange_row_major_witness :
  exists rows,
    Float.expandRange (str "A1:C4") = Float.Returns rows
    /\ Z.of_nat (length rows) = 4
    /\ Z.of_nat (length (concat rows)) = 4 * 3
    /\ Float.asCoords (Float.Label (nth 5 (concat rows) []))
       = Float.Returns {| Float.row := Float.Fin 2; Float.col := Float.Fin 3 |}.
Proof.
  destruct (proj1 (expandRange_row_major (str "A") (str "1") (str "C") (str "4")
                     labelParts_A1 labelParts_C4
                     ltac:(vm_compute; discriminate) ltac:(vm_compute; discriminate)
                     ltac:(vm_compute; discriminate) ltac:(vm_compute; discriminate)))
    as [rows (E & Hr & _ & Hc & Hn)].
  - vm_compute. discriminate.
  - vm_compute. discriminate.
  - vm_compute. reflexivity.
  - vm_compute. reflexivity.
  - exists rows. repeat split; try assumption.
    apply (Hn 1 2); vm_compute; split; discriminate.
Defined.

(** C6 as stated fails on large ranges.  A range of [2 ^ 32] rows makes
    [Array(number)] raise a RangeError.  Past [2 ^ 53] the rows are rounded:
    the three rows from 9007199254740992 to 9007199254740994 come out as
    two labels of the first row and one of the third ([top + 1] rounds back
    to [top]); and the range from row 9007199254740993 up to row
    9007199254740992, whose corners are inverted, expands to one cell, both
    rows being read as the same double. *)
Lemma expandRange_large_counterexample :
  Float.expandRange (str "A1:A4294967296") = Float.RangeError
  /\ Float.expandRange (str "A9007199254740992:A9007199254740994")
     = Float.Returns [[str "A9007199254740992"]; [str "A9007199254740992"];
                      [str "A9007199254740994"]]
  /\ Util.Number (str "9007199254740992") < Util.Number (str "9007199254740993")
  /\ Float.expandRange (str "A9007199254740993:A9007199254740992")
     = Float.Returns [[str "A9007199254740992"]].
Proof.
  split; [vm_compute; reflexivity|]. split; [vm_compute; reflexivity|].
  split; vm_compute; reflexivity.
Qed.

(** ** Valid labels *)

Lemma validLabel_parts (letters digits : jsstring) :
  labelParts letters digits -> validLabel (letters ++ digits).
Proof.
  intros H. unfold validLabel, Util.asRef. now rewrite asCoords_parts.
Qed.

Lemma validLabel_findRefs (formula r : jsstring) :
  In r (Util.findRefsInFormula formula) -> validLabel r.
Proof.
  intros H. apply findRefsInFormula_shape in H as (ls & ds & -> & (H1 & H2 & H3 & H4)).
  apply validLabel_parts. repeat split; try assumption.
  apply (forallb_impl isUpper); [apply isUpper_isLetter | assumption].
Qed.

(** ** The store and the map of cells *)

Lemma bind_ok {A B} (m : M A) (k : A -> M B) (sh sh' : Sheet) (a : A) :
  m sh = Ok (a, sh') -> bind m k sh = k a sh'.
Proof. unfold bind. now intros ->. Qed.

Lemma lookupCell_storeCell (k' k : jsstring) (a : nat) (l : list (jsstring * nat)) :
  lookupCell k' (storeCell k a l) = if streqb k' k then Some a else lookupCell k' l.
Proof.
  induction l as [|[k0 b] l IH]; simpl; [reflexivity|].
  destruct (streqb k k0) eqn:E; simpl.
  - apply streqb_eq in E. subst k0. now destruct (streqb k' k).
  - rewrite IH. destruct (streqb k' k0) eqn:E0; [|reflexivity].
    apply streqb_eq in E0. subst k0. rewrite streqb_sym in E. now rewrite E.
Qed.

Lemma storeCell_same (k : jsstring) (a : nat) (l : list (jsstring * nat)) :
  lookupCell k l = Some a -> storeCell k a l = l.
Proof.
  induction l as [|[k0 b] l IH]; simpl; [discriminate|].
  destruct (streqb k k0); intros H.
  - now injection H as ->.
  - now rewrite IH.
Qed.

Lemma findOrCreateCell_found (r k : jsstring) (a : nat) (sh : Sheet) :
  Util.asRef (Util.Label r) = Some k -> lookupCell k (cells sh) = Some a ->
  findOrCreateCell (Util.Label r) sh = Ok (a, sh).
Proof.
  intros Hr Hk. unfold findOrCreateCell, bind, defined, getCells, setCellsEntry, ret.
  rewrite Hr. simpl. rewrite Hk. simpl. rewrite storeCell_same by assumption.
  now destruct sh.
Qed.

Lemma findOrCreateCell_new (r k : jsstring) (sh : Sheet) :
  Util.asRef (Util.Label r) = Some k -> lookupCell k (cells sh) = None ->
  findOrCreateCell (Util.Label r) sh
  = Ok (length (objs sh),
        mkSheet (objs sh ++ [blankCell k])
                (storeCell k (length (objs sh)) (cells sh)) (evaluations sh)).
Proof.
  intros Hr Hk. unfold findOrCreateCell, bind, defined, getCells, setCellsEntry, ret, allocCell.
  rewrite Hr. simpl. rewrite Hk. rewrite (asRef_idem r k Hr). reflexivity.
Qed.

Lemma grown_refl (sh : Sheet) : grown sh sh.
Proof.
  repeat split; auto. exists []. now rewrite app_nil_r.
Qed.

Lemma grown_length (sh sh' : Sheet) :
  grown sh sh' -> (length (objs sh) <= length (objs sh'))%nat.
Proof. intros [[extra [E _]] _]. rewrite E, length_app. lia. Qed.

Lemma grown_trans (sh1 sh2 sh3 : Sheet) : grown sh1 sh2 -> grown sh2 sh3 -> grown sh1 sh3.
Proof.
  intros G12 G23. assert (L12 := grown_length _ _ G12).
  destruct G12 as ([e1 [E1 F1]] & K1 & N1 & V1).
  destruct G23 as ([e2 [E2 F2]] & K2 & N2 & V2).
  repeat split.
  - exists (e1 ++ e2). split; [now rewrite E2, E1, app_assoc | now apply Forall_app].
  - auto.
  - intros k a H. destruct (N2 k a H) as [H2 | [H2 L2]].
    + apply N1 in H2. assumption.
    + right. split; [|lia].
      destruct (lookupCell k (cells sh1)) eqn:E; [|reflexivity].
      apply K1 in E. congruence.
  - congruence.
Qed.

Lemma grown_cellAt (sh sh' : Sheet) (a : nat) :
  grown sh sh' -> (a < length (objs sh))%nat -> cellAt sh' a = cellAt sh a.
Proof.
  intros [[extra [E _]] _] H. unfold cellAt. rewrite E. now apply app_nth1.
Qed.

Lemma blank_nth (extra : list Cell) (i : nat) :
  Forall isBlank extra -> isBlank (nth i extra (blankCell [])).
Proof.
  intros F. destruct (Nat.lt_ge_cases i (length extra)) as [H | H].
  - rewrite Forall_forall in F. apply F. now apply nth_In.
  - rewrite nth_overflow by assumption. now exists [].
Qed.

Lemma grown_cellAt_new (sh sh' : Sheet) (a : nat) :
  grown sh sh' -> (length (objs sh) <= a)%nat -> isBlank (cellAt sh' a).
Proof.
  intros [[extra [E F]] _] H. unfold cellAt. rewrite E, app_nth2 by assumption.
  now apply blank_nth.
Qed.

Lemma cellAt_overflow (sh : Sheet) (a : nat) :
  (length (objs sh) <= a)%nat -> cellAt sh a = blankCell [].
Proof. intros H. unfold cellAt. now apply nth_overflow. Qed.

Lemma grown_findOrCreateCell (r : jsstring) (sh : Sheet) :
  validLabel r ->
  exists k a sh',
    Util.asRef (Util.Label r) = Some k
    /\ findOrCreateCell (Util.Label r) sh = Ok (a, sh')
    /\ grown sh sh'
    /\ lookupCell k (cells sh') = Some a
    /\ (forall k' a', lookupCell k' (cells sh') = Some a' ->
          lookupCell k' (cells sh) = None ->
          k' = k /\ a' = a /\ cellAt sh' a = blankCell k /\ (a < length (objs sh'))%nat).
Proof.
  unfold validLabel. destruct (Util.asRef (Util.Label r)) as [k|] eqn:Hr; [|congruence].
  intros _. exists k. destruct (lookupCell k (cells sh)) as [a|] eqn:Hk.
  - exists a, sh. rewrite (findOrCreateCell_found r k a sh Hr Hk).
    split; [reflexivity|]. split; [reflexivity|]. split; [apply grown_refl|].
    split; [assumption|]. intros k' a' H1 H2. congruence.
  - eexists _, _. rewrite (findOrCreateCell_new r k sh Hr Hk).
    split; [reflexivity|]. split; [reflexivity|]. simpl.
    split; [|split].
    + repeat split; simpl.
      * exists [blankCell k]. split; [reflexivity|]. constructor; [now exists k | constructor].
      * intros k' a H. rewrite lookupCell_storeCell.
        destruct (streqb k' k) eqn:E; [|assumption].
        apply streqb_eq in E. congruence.
      * intros k' a. rewrite lookupCell_storeCell.
        destruct (streqb k' k) eqn:E; [|now left].
        apply streqb_eq in E. subst k'. intros H. injection H as <-.
        right. split; [assumption|lia].
    + now rewrite lookupCell_storeCell, streqb_refl.
    + intros k' a'. rewrite lookupCell_storeCell.
      destruct (streqb k' k) eqn:E; [|congruence].
      apply streqb_eq in E. subst k'. intros H _. injection H as <-.
      split; [reflexivity|]. split; [reflexivity|]. split.
      * unfold cellAt. simpl. now rewrite app_nth2, Nat.sub_diag by lia.
      * rewrite length_app. simpl. lia.
Qed.

Lemma findOrCreateCell_length (r : jsstring) (sh : Sheet) (a : nat) (sh' : Sheet) :
  findOrCreateCell (Util.Label r) sh = Ok (a, sh') ->
  (length (objs sh') <= S (length (objs sh)))%nat.
Proof.
  destruct (Util.asRef (Util.Label r)) as [k|] eqn:Hr.
  - destruct (lookupCell k (cells sh)) as [b|] eqn:Hk.
    + rewrite (findOrCreateCell_found r k b sh Hr Hk). intros H. injection H as _ <-. lia.
    + rewrite (findOrCreateCell_new r k sh Hr Hk). intros H. injection H as _ <-.
      simpl. rewrite length_app. simpl. lia.
  - unfold findOrCreateCell, bind, defined. rewrite Hr. discriminate.
Qed.

Lemma isBlank_subjects (c : Cell) : isBlank c -> subjects c = [].
Proof. now intros [k ->]. Qed.

Lemma isBlank_observers (c : Cell) : isBlank c -> observers c = [].
Proof. now intros [k ->]. Qed.

Lemma grown_subjects (sh sh' : Sheet) (a : nat) :
  grown sh sh' -> subjects (cellAt sh' a) = subjects (cellAt sh a).
Proof.
  intros G. destruct (Nat.lt_ge_cases a (length (objs sh))) as [H | H].
  - now rewrite (grown_cellAt sh sh' a G H).
  - rewrite (isBlank_subjects _ (grown_cellAt_new sh sh' a G H)).
    now rewrite cellAt_overflow.
Qed.

Lemma grown_subjOf (sh sh' : Sheet) (r : jsstring) :
  grown sh sh' -> subjOf sh' r = subjOf sh r.
Proof.
  intros G. unfold subjOf. destruct (Util.asRef (Util.Label r)) as [k|]; [|reflexivity].
  destruct (lookupCell k (cells sh)) as [a|] eqn:E.
  - destruct G as (G1 & K & G3) eqn:EG. rewrite (K k a E).
    apply grown_subjects. assumption.
  - destruct (lookupCell k (cells sh')) as [a|] eqn:E'; [|reflexivity].
    destruct G as (G1 & K & N & G4) eqn:EG.
    destruct (N k a E') as [H | [_ H]]; [congruence|].
    apply isBlank_subjects. now apply (grown_cellAt_new sh sh').
Qed.

(** ** The traversal of the cycle check *)

Lemma has_incl (V V' : list jsstring) (x : jsstring) :
  incl V V' -> has V x = true -> has V' x = true.
Proof. rewrite !has_In. auto. Qed.

Lemma remaining_mono (U V V' : list jsstring) :
  incl V V' -> (remaining U V' <= remaining U V)%nat.
Proof.
  intros H. unfold remaining. induction U as [|x U IH]; simpl; [lia|].
  destruct (has V x) eqn:E.
  - rewrite (has_incl V V' x H E). simpl. assumption.
  - simpl. destruct (has V' x); simpl; lia.
Qed.

Lemma remaining_push (U V : list jsstring) (r : jsstring) :
  In r U -> has V r = false -> (remaining U (V ++ [r]) < remaining U V)%nat.
Proof.
  intros Hin Hr. unfold remaining. induction U as [|x U IH]; [contradiction|].
  assert (Hm := remaining_mono U V (V ++ [r]) (incl_appl [r] (incl_refl V))).
  unfold remaining in Hm. simpl.
  destruct (streqb x r) eqn:E.
  - apply streqb_eq in E. subst x. rewrite Hr. simpl.
    replace (has (V ++ [r]) r) with true
      by (symmetry; apply has_In, in_or_app; right; simpl; auto).
    simpl. lia.
  - destruct Hin as [-> | Hin]; [now rewrite streqb_refl in E|].
    specialize (IH Hin).
    destruct (has V x) eqn:Ex.
    + rewrite (has_incl V (V ++ [r]) x (incl_appl [r] (incl_refl V)) Ex). simpl. assumption.
    + simpl. destruct (has (V ++ [r]) x); simpl; lia.
Qed.

Lemma grown_wfSubjects (sh sh' : Sheet) : grown sh sh' -> wfSubjects sh -> wfSubjects sh'.
Proof. intros G H a r. rewrite (grown_subjects sh sh' a G). apply H. Qed.

Lemma grown_subjectsWithin (U : list jsstring) (sh sh' : Sheet) :
  grown sh sh' -> subjectsWithin U sh -> subjectsWithin U sh'.
Proof. intros G H a. rewrite (grown_subjects sh sh' a G). apply H. Qed.

Lemma grown_lookup (sh sh' : Sheet) (k : jsstring) (a : nat) :
  grown sh sh' -> lookupCell k (cells sh) = Some a -> lookupCell k (cells sh') = Some a.
Proof. intros (_ & K & _). apply K. Qed.

Lemma refersTo_incl (sh : Sheet) (target : jsstring) (S S' : list jsstring) :
  incl S S' -> refersTo sh target S -> refersTo sh target S'.
Proof.
  intros I H. destruct H as [S H | S r Hr H].
  - apply refers_direct. auto.
  - apply refers_through with r; auto.
Qed.

Lemma grown_refersTo (sh sh' : Sheet) (target : jsstring) (S : list jsstring) :
  grown sh sh' -> refersTo sh' target S -> refersTo sh target S.
Proof.
  intros G H. induction H as [S H | S r Hr H IH].
  - now apply refers_direct.
  - apply refers_through with r; [assumption|].
    now rewrite <- (grown_subjOf sh sh' r G).
Qed.

Lemma visitPost_refl (thisRef : jsstring) (V : list jsstring) (b : bool) (sh : Sheet) :
  visitPost thisRef V b V sh sh.
Proof.
  split; [apply grown_refl|]. split; [apply incl_refl|].
  split; [intros r H1 H2; contradiction|].
  split; [intros k a H1 H2; congruence|].
  intros _ x H1 H2. contradiction.
Qed.

Lemma visitPost_trans (thisRef : jsstring) (V1 V2 V3 : list jsstring) (b : bool)
  (sh1 sh2 sh3 : Sheet) :
  visitPost thisRef V1 false V2 sh1 sh2 -> visitPost thisRef V2 b V3 sh2 sh3 ->
  visitPost thisRef V1 b V3 sh1 sh3.
Proof.
  intros (G1 & I1 & R1 & N1 & C1) (G2 & I2 & R2 & N2 & C2).
  split; [eapply grown_trans; eassumption|].
  split; [eapply incl_tran; eassumption|].
  split; [|split].
  - intros r H3 H1. destruct (has V2 r) eqn:E.
    + apply has_In in E. destruct (R1 r E H1) as (k & a & Hk & Ha).
      exists k, a. split; [assumption|]. eapply grown_lookup; eassumption.
    + apply has_not_In in E. now apply R2.
  - intros k a H3 H1. destruct (lookupCell k (cells sh2)) as [a'|] eqn:E.
    + assert (a' = a) by (apply (grown_lookup _ _ _ _ G2) in E; congruence). subst a'.
      destruct (N1 k a E H1) as (Hb & Hl & r & Hr2 & Hr1 & Hk).
      split; [now rewrite (grown_cellAt sh2 sh3 a G2 Hl)|].
      split; [apply grown_length in G2; lia|].
      exists r. auto.
    + destruct (N2 k a H3 E) as (Hb & Hl & r & Hr3 & Hr2 & Hk).
      split; [assumption|]. split; [assumption|]. exists r.
      split; [assumption|]. split; [|assumption]. intros Hc. apply Hr2. now apply I1.
  - intros Hb x H3 H1. destruct (has V2 x) eqn:E.
    + apply has_In in E. destruct (C1 eq_refl x E H1) as [Hn Hi].
      split; [assumption | eapply incl_tran; eassumption].
    + apply has_not_In in E. rewrite <- (grown_subjOf sh1 sh2 x G1). now apply C2.
Qed.

Section CycleCheck.

Variable thisRef : jsstring.
Variable U : list jsstring.

Lemma someSubject_spec (n : nat)
  (visit : jsstring -> list jsstring -> M (bool * list jsstring)) :
  (forall r V sh,
      wfSubjects sh -> subjectsWithin U sh -> validLabel r -> has V r = false ->
      (remaining U (V ++ [r]) < n)%nat ->
      exists b V' sh',
        visit r (V ++ [r]) sh = Ok ((b, V'), sh')
        /\ visitPost thisRef V b V' sh sh' /\ In r V'
        /\ (b = true -> refersTo sh thisRef (subjOf sh r))
        /\ (length (objs sh') + remaining U V'
            <= S (length (objs sh)) + remaining U (V ++ [r]))%nat) ->
  forall l V sh,
    wfSubjects sh -> subjectsWithin U sh ->
    (forall r, In r l -> validLabel r) -> incl l U ->
    (remaining U V < S n)%nat ->
    exists b V' sh',
      someSubject visit l V sh = Ok ((b, V'), sh')
      /\ visitPost thisRef V b V' sh sh'
      /\ (b = false -> incl l V')
      /\ (b = true -> refersTo sh thisRef l)
      /\ visitSize U V V' sh sh'.
Proof.
  intros Hvisit. induction l as [|r l IH]; intros V sh Hwf Hin Hval HU Hfuel.
  - exists false, V, sh. split; [reflexivity|]. split; [apply visitPost_refl|].
    split; [intros _ x Hx; contradiction|]. split; [discriminate | apply Nat.le_refl].
  - simpl. destruct (has V r) eqn:Er.
    + destruct (IH V sh Hwf Hin) as (b & V' & sh' & E & P & L & T & Z); auto.
      { intros x Hx. apply Hval. now right. }
      { intros x Hx. apply HU. now right. }
      exists b, V', sh'. split; [assumption|]. split; [assumption|]. split; [|split].
      * intros Hb x [<- | Hx]; [|now apply L].
        apply has_In in Er. destruct P as (_ & I & _). now apply I.
      * intros Hb. apply (refersTo_incl sh thisRef l); [apply incl_tl, incl_refl | auto].
      * exact Z.
    + assert (HrU : In r U) by (apply HU; now left).
      assert (Hlt := remaining_push U V r HrU Er).
      destruct (Hvisit r V sh Hwf Hin) as (b1 & V1 & sh1 & E1 & P1 & Hr1 & T1 & Z1); auto.
      { apply Hval. now left. }
      { lia. }
      rewrite (bind_ok _ _ _ _ _ E1). destruct b1.
      * exists true, V1, sh1. split; [reflexivity|]. split; [assumption|].
        split; [discriminate|]. split; [|unfold visitSize; lia]. intros _.
        apply refers_through with r; [now left | auto].
      * assert (G1 : grown sh sh1) by apply P1.
        assert (I1 : incl V V1) by apply P1.
        destruct (IH V1 sh1) as (b & V' & sh' & E & P & L & T & Z).
        { now apply (grown_wfSubjects sh). }
        { now apply (grown_subjectsWithin U sh). }
        { intros x Hx. apply Hval. now right. }
        { intros x Hx. apply HU. now right. }
        { assert (Hm := remaining_mono U V V1 I1). lia. }
        exists b, V', sh'. split; [assumption|].
        split; [eapply visitPost_trans; eassumption|]. split; [|split].
        -- intros Hb x [<- | Hx]; [|now apply L].
           destruct P as (_ & I & _). now apply I.
        -- intros Hb. apply (refersTo_incl sh thisRef l); [apply incl_tl, incl_refl|].
           apply (grown_refersTo sh sh1); auto.
        -- unfold visitSize in *. lia.
Qed.

Lemma hasCircularDependency_spec (fuel : nat) :
  forall S V sh,
    wfSubjects sh -> subjectsWithin U sh ->
    (forall r, In r S -> validLabel r) -> incl S U ->
    (remaining U V < fuel)%nat ->
    exists b V' sh',
      _hasCircularDependency fuel thisRef S V sh = Ok ((b, V'), sh')
      /\ visitPost thisRef V b V' sh sh'
      /\ (b = false -> ~ In thisRef S /\ incl S V')
      /\ (b = true -> refersTo sh thisRef S)
      /\ visitSize U V V' sh sh'.
Proof.
  induction fuel as [|fuel IH]; intros S V sh Hwf Hin Hval HU Hfuel; [lia|].
  cbn [_hasCircularDependency]. destruct (has S thisRef) eqn:Et.
  - exists true, V, sh. split; [reflexivity|]. split; [apply visitPost_refl |].
    split; [discriminate|]. split; [|apply Nat.le_refl].
    intros _. apply refers_direct. now apply has_In.
  - apply has_not_In in Et.
    destruct (someSubject_spec fuel
                (fun r visited' =>
                   subject <- findOrCreateCell (Util.Label r) ;;
                   c <- getCell subject ;;
                   _hasCircularDependency fuel thisRef (subjects c) visited')
                ) with (l := S) (V := V) (sh := sh) as (b & V' & sh' & E & P & L & T & Z); auto.
    + clear S V sh Hwf Hin Hval HU Hfuel Et.
      intros r V sh Hwf Hin Hval Hr Hfuel.
      destruct (grown_findOrCreateCell r sh Hval) as (k & a & sh1 & Hk & E1 & G1 & La & New).
      rewrite (bind_ok _ _ _ _ _ E1). unfold getCell at 1.
      erewrite bind_ok by reflexivity. fold (cellAt sh1 a).
      assert (Hlen := findOrCreateCell_length r sh a sh1 E1).
      destruct (IH (subjects (cellAt sh1 a)) (V ++ [r]) sh1)
        as (b & V' & sh' & E & (G & I & R & N & C) & L & T & Z).
      { now apply (grown_wfSubjects sh). }
      { now apply (grown_subjectsWithin U sh). }
      { intros x Hx. eapply grown_wfSubjects; eauto. }
      { apply grown_subjectsWithin with (sh := sh); auto. }
      { assumption. }
      assert (HrV' : In r V') by (apply I, in_or_app; right; simpl; auto).
      assert (Hsubj : subjOf sh r = subjects (cellAt sh1 a)).
      { rewrite <- (grown_subjOf sh sh1 r G1). unfold subjOf. now rewrite Hk, La. }
      exists b, V', sh'. split; [assumption|]. split; [|split; [assumption|split]].
      2:{ intros Hb. rewrite Hsubj. apply (grown_refersTo sh sh1); auto. }
      2:{ unfold visitSize in Z. lia. }
      split; [eapply grown_trans; eassumption|].
      split; [eapply incl_tran; [|eassumption]; apply incl_appl, incl_refl|].
      split; [|split].
      * intros x Hx' Hx. destruct (streqb x r) eqn:Ex.
        -- apply streqb_eq in Ex. subst x. exists k, a. split; [assumption|].
           eapply grown_lookup; eassumption.
        -- apply streqb_neq in Ex. apply R; [assumption|].
           rewrite in_app_iff. simpl. intuition congruence.
      * intros k' a' H' Hnone. destruct (lookupCell k' (cells sh1)) as [a1|] eqn:E1'.
        -- assert (a1 = a') by (apply (grown_lookup _ _ _ _ G) in E1'; congruence). subst a1.
           destruct (New k' a' E1' Hnone) as (-> & -> & Hb & Hl).
           split; [now rewrite (grown_cellAt sh1 sh' a G Hl)|].
           split; [apply grown_length in G; lia|].
           exists r. apply has_not_In in Hr. auto.
        -- destruct (N k' a' H' E1') as (Hb & Hl & x & Hx' & Hx & Hxk).
           split; [assumption|]. split; [assumption|].
           exists x. split; [assumption|]. split; [|assumption].
           intros Hc. apply Hx, in_or_app. now left.
      * intros Hb x Hx' Hx. destruct (streqb x r) eqn:Ex.
        -- apply streqb_eq in Ex. subst x. rewrite Hsubj. now apply L.
        -- apply streqb_neq in Ex. rewrite <- (grown_subjOf sh sh1 x G1). apply C; [assumption..|].
           rewrite in_app_iff. simpl. intuition congruence.
    + exists b, V', sh'. split; [assumption|]. split; [assumption|].
      split; [|split; assumption]. intros Hb. split; [assumption | now apply L].
Qed.

End CycleCheck.

(** ** Ranges found in a formula can be expanded *)

Lemma RANGE_REGEXP_inv (prev : option ascii) (s : jsstring) (k : nat) :
  RANGE_REGEXP prev s = Some k ->
  exists l1 d1 l2 d2 rest,
    labelParts l1 d1 /\ labelParts l2 d2
    /\ s = (l1 ++ d1 ++ str ":" ++ l2 ++ d2) ++ rest
    /\ k = length (l1 ++ d1 ++ str ":" ++ l2 ++ d2).
Proof.
  unfold RANGE_REGEXP, rangeGroupsAt. intros H.
  destruct (wordBoundary prev s); [|discriminate].
  destruct (lettersDigits s) as [[[l1 d1] r1]|] eqn:E1; [|discriminate].
  destruct r1 as [|c r1]; [discriminate|].
  destruct (Ascii.eqb c ":"%char) eqn:Ec.
  2:{ ascii_cases c; simpl in H, Ec; discriminate. }
  apply Ascii.eqb_eq in Ec. subst c.
  destruct (lettersDigits r1) as [[[l2 d2] rest]|] eqn:E2; [|discriminate].
  destruct (wordBoundary (lastChar None d2) rest); [|discriminate].
  injection H as <-.
  apply lettersDigits_inv in E1 as (Es1 & P1 & _ & _).
  apply lettersDigits_inv in E2 as (Es2 & P2 & _ & _).
  exists l1, d1, l2, d2, rest. split; [assumption|]. split; [assumption|].
  split.
  - rewrite Es1, Es2. simpl. rewrite <- !app_assoc. simpl. now rewrite <- !app_assoc.
  - rewrite !length_app. simpl. rewrite ?length_app. simpl. rewrite ?length_app. lia.
Qed.

Lemma firstn_length_app {A} (a b : list A) : firstn (length a) (a ++ b) = a.
Proof.
  rewrite firstn_app, Nat.sub_diag, firstn_O, app_nil_r. apply firstn_all.
Qed.

Lemma textScan_range_shape (text r : jsstring) :
  In r (textScan text RANGE_REGEXP) ->
  exists l1 d1 l2 d2,
    labelParts l1 d1 /\ labelParts l2 d2 /\ r = l1 ++ d1 ++ str ":" ++ l2 ++ d2.
Proof.
  unfold textScan. intros H.
  apply matchAllFrom_In in H as (pre & prev' & s' & n & E & Hre & ->).
  apply RANGE_REGEXP_inv in Hre as (l1 & d1 & l2 & d2 & rest & P1 & P2 & Es & Hk).
  exists l1, d1, l2, d2. split; [assumption|]. split; [assumption|].
  rewrite Hk, Es. apply firstn_length_app.
Qed.

Lemma expandRange_defined (l1 d1 l2 d2 : jsstring) :
  labelParts l1 d1 -> labelParts l2 d2 ->
  Util.expandRange (l1 ++ d1 ++ str ":" ++ l2 ++ d2) <> None.
Proof.
  intros P1 P2. unfold Util.expandRange.
  rewrite (execFrom_head _ _ _ _ (rangeGroupsAt_range l1 d1 l2 d2 P1 P2)).
  rewrite !asCoords_parts by assumption.
  destruct (_ || _); discriminate.
Qed.

Lemma expandRanges_total (formula : jsstring) : Util.expandRanges formula <> None.
Proof.
  unfold Util.expandRanges.
  assert (H : forall r, In r (newSet (textScan formula RANGE_REGEXP)) ->
                        Util.expandRange r <> None).
  { intros r Hr. apply (proj1 (newSet_In _ _)) in Hr.
    apply textScan_range_shape in Hr as (l1 & d1 & l2 & d2 & P1 & P2 & ->).
    now apply expandRange_defined. }
  revert H. generalize (newSet (textScan formula RANGE_REGEXP)) as ranges.
  generalize formula as acc.
  intros acc ranges. revert acc. induction ranges as [|r ranges IH]; intros acc H; simpl.
  - discriminate.
  - destruct (Util.expandRange r) as [cs|] eqn:E.
    + apply IH. intros x Hx. apply H. now right.
    + exfalso. apply (H r); [now left | assumption].
Qed.

Lemma newSubjects_run (v : Value) (sh : Sheet) :
  (if isFormula v then
     text <- asText v ;;
     expanded <- defined (Util.expandRanges text) ;;
     ret (_extractCells expanded)
   else ret []) sh = Ok (newSubjectsOf v, sh).
Proof.
  destruct v as [| |n|text]; try reflexivity. simpl.
  destruct (Util.isFormulaText text); [|reflexivity].
  unfold bind, asText, ret, defined.
  destruct (Util.expandRanges text) eqn:E; [reflexivity|].
  now apply expandRanges_total in E.
Qed.

Lemma newSubjectsOf_valid (v : Value) (r : jsstring) :
  In r (newSubjectsOf v) -> validLabel r.
Proof.
  destruct v as [| |n|text]; simpl; try contradiction.
  destruct (Util.isFormulaText text); [|contradiction].
  destruct (Util.expandRanges text); [|contradiction].
  apply validLabel_findRefs.
Qed.

(** ** Letter case and scanning *)

Lemma takeWhile_upper (p : ascii -> bool) (s : jsstring) :
  (forall c, p (upperChar c) = p c) ->
  takeWhile p (toUpperCase s) = toUpperCase (takeWhile p s).
Proof.
  intros H. induction s as [|c s IH]; simpl; [reflexivity|].
  rewrite H. destruct (p c); simpl; [now rewrite IH | reflexivity].
Qed.

Lemma dropWhile_upper (p : ascii -> bool) (s : jsstring) :
  (forall c, p (upperChar c) = p c) ->
  dropWhile p (toUpperCase s) = toUpperCase (dropWhile p s).
Proof.
  intros H. induction s as [|c s IH]; simpl; [reflexivity|].
  rewrite H. destruct (p c); simpl; [now rewrite IH | reflexivity].
Qed.

Lemma lettersDigits_upper (s : jsstring) :
  lettersDigits (toUpperCase s)
  = match lettersDigits s with
    | Some (ls, ds, rest) => Some (toUpperCase ls, toUpperCase ds, toUpperCase rest)
    | None => None
    end.
Proof.
  unfold lettersDigits.
  rewrite (takeWhile_upper isLetter), (dropWhile_upper isLetter) by apply isLetter_upperChar.
  rewrite (takeWhile_upper isDigit), (dropWhile_upper isDigit) by apply isDigit_upperChar.
  destruct (takeWhile isLetter s); [reflexivity|].
  destruct (takeWhile isDigit (dropWhile isLetter s)); reflexivity.
Qed.

Lemma isWordOpt_upper (o : option ascii) :
  isWordOpt (option_map upperChar o) = isWordOpt o.
Proof. destruct o; simpl; [apply isWordChar_upperChar | reflexivity]. Qed.

Lemma wordBoundary_upper (prev : option ascii) (s : jsstring) :
  wordBoundary (option_map upperChar prev) (toUpperCase s) = wordBoundary prev s.
Proof.
  unfold wordBoundary. rewrite isWordOpt_upper. f_equal.
  destruct s; simpl; [reflexivity | apply isWordChar_upperChar].
Qed.

Lemma lastChar_upper (prev : option ascii) (s : jsstring) :
  lastChar (option_map upperChar prev) (toUpperCase s) = option_map upperChar (lastChar prev s).
Proof.
  revert prev. induction s as [|c s IH]; intros prev; simpl; [reflexivity|].
  destruct s as [|d s]; [reflexivity|]. apply (IH (Some c)).
Qed.

Lemma upperChar_colon (c : ascii) : Ascii.eqb (upperChar c) ":" = Ascii.eqb c ":".
Proof. ascii_cases c; reflexivity. Qed.

Lemma REF_REGEXP_caseBlind : caseBlind REF_REGEXP.
Proof.
  intros prev s. unfold REF_REGEXP.
  rewrite wordBoundary_upper, lettersDigits_upper.
  destruct (lettersDigits s) as [[[ls ds] rest]|]; [|reflexivity].
  change None with (option_map upperChar None) at 1.
  rewrite lastChar_upper, wordBoundary_upper. unfold toUpperCase. now rewrite !length_map.
Qed.

Lemma RANGE_REGEXP_caseBlind : caseBlind RANGE_REGEXP.
Proof.
  intros prev s. unfold RANGE_REGEXP, rangeGroupsAt.
  rewrite wordBoundary_upper, lettersDigits_upper.
  destruct (wordBoundary prev s); [|reflexivity].
  destruct (lettersDigits s) as [[[ls ds] rest]|]; [|reflexivity].
  destruct rest as [|c rest]; [reflexivity|].
  cbn [toUpperCase map].
  assert (Hc := upperChar_colon c).
  destruct (Ascii.eqb c ":") eqn:Ec.
  - apply Ascii.eqb_eq in Ec. subst c. cbn [upperChar]. 
    change (upperChar ":") with ":"%char.
    change (map upperChar rest) with (toUpperCase rest).
    rewrite lettersDigits_upper.
    destruct (lettersDigits rest) as [[[ls2 ds2] rest2]|]; [|reflexivity].
    change None with (option_map upperChar None) at 1.
    change (map upperChar ds2) with (toUpperCase ds2).
    rewrite lastChar_upper, wordBoundary_upper.
    destruct (wordBoundary _ rest2); [|reflexivity].
    unfold toUpperCase. now rewrite !length_app, !length_map.
  - apply Ascii.eqb_neq in Ec. apply Ascii.eqb_neq in Hc.
    destruct (upperChar c) as [[|] [|] [|] [|] [|] [|] [|] [|]] eqn:Eu;
      try reflexivity; try (exfalso; apply Hc; reflexivity).
    all: ascii_cases c; try reflexivity; try discriminate Eu; try (exfalso; apply Ec; reflexivity).
Qed.

Lemma matchAllFrom_upper (re : Regexp) (s : jsstring) :
  caseBlind re ->
  forall skip prev,
    matchAllFrom re skip (option_map upperChar prev) (toUpperCase s)
    = map toUpperCase (matchAllFrom re skip prev s).
Proof.
  intros H. induction s as [|c s IH]; intros skip prev; [reflexivity|].
  cbn [toUpperCase map matchAllFrom].
  change (map upperChar s) with (toUpperCase s).
  destruct skip as [|k]; [|apply (IH k (Some c))].
  change (upperChar c :: toUpperCase s) with (toUpperCase (c :: s)).
  rewrite H. destruct (re prev (c :: s)) as [[|n]|]; try apply (IH 0%nat (Some c)).
  cbn [map]. rewrite <- (IH n (Some c)). f_equal.
  unfold toUpperCase. now rewrite firstn_map.
Qed.

Lemma textScan_upper (re : Regexp) (s : jsstring) :
  caseBlind re -> textScan (toUpperCase s) re = map toUpperCase (textScan s re).
Proof. intros H. apply (matchAllFrom_upper re s H 0%nat None). Qed.

Lemma isLineTerminator_upperChar (c : ascii) :
  Util.isLineTerminator (upperChar c) = Util.isLineTerminator c.
Proof. ascii_cases c; reflexivity. Qed.

Lemma isFormulaText_upper (f : jsstring) :
  Util.isFormulaText (toUpperCase f) = Util.isFormulaText f.
Proof.
  unfold Util.isFormulaText, Util.rawFormula. destruct f as [|c rest]; [reflexivity|].
  cbn [toUpperCase map].
  assert (Hrest : forallb (fun c => negb (Util.isLineTerminator c)) (map upperChar rest)
                  = forallb (fun c => negb (Util.isLineTerminator c)) rest).
  { apply (forallb_upper (fun c => negb (Util.isLineTerminator c))).
    intros x. now rewrite isLineTerminator_upperChar. }
  ascii_cases c; try reflexivity; cbn [upperChar]; simpl; try reflexivity;
    rewrite ?Hrest; now destruct (forallb _ rest).
Qed.

Lemma expandRanges_no_range (f : jsstring) :
  textScan f RANGE_REGEXP = [] -> Util.expandRanges f = Some f.
Proof. intros H. unfold Util.expandRanges. now rewrite H. Qed.

Lemma newSubjectsOf_no_range (f : jsstring) :
  textScan f RANGE_REGEXP = [] ->
  newSubjectsOf (VStr f) = if Util.isFormulaText f then Util.findRefsInFormula f else [].
Proof. intros H. unfold newSubjectsOf. now rewrite expandRanges_no_range. Qed.

(** C10. Case canonicalization of references, run where it fails.
    [findRefsInFormula] upper-cases the text and keeps each reference as it
    is written: from "=A01+1" it extracts "A01", which is not the canonical
    label "A1" that [asRef] writes for that coordinate (on integers and on
    doubles alike), so that B1 written with "=A01+1" lists the subject "A01"
    while the cell it observes is A1; likewise the row 9007199254740993 of
    "=A9007199254740993+1" is kept as written, where [asRef] writes the
    double it is read as, 9007199254740992.  And the subjects of a write are the
    references of [expandRanges text], which replaces each range text by
    plain substring and with its letter case: "=A1:A2+A1:A22" loses the
    range A1:A22 (the text "A1:A2" is replaced at its head too) and gives
    the subjects A1 and A2, while "=a1:a2+A1:A22", the same formula up to
    letter case, gives A1 to A22.  Where neither happens the claim holds:
    "=a1+1" and "=A1+1" written into B1 give the same subjects and the same
    edges. *)
Theorem extracted_references_not_canonical :
  Util.findRefsInFormula (str "=A01+1") = [str "A01"]
  /\ Util.asRef (Util.Label (str "A01")) = Some (str "A1")
  /\ Float.asRef (Float.Label (str "A01")) = Float.Returns (str "A1")
  /\ (exists sh,
        run (updateOrCreateCell evalArith 10 (Util.Label (str "B1"))
               (VStr (str "=A01+1")) None) emptySheet = Some sh
        /\ map (fun c => (ref c, subjects c, observers c)) (objs sh)
           = [(str "B1", [str "A01"], []); (str "A1", [], [str "B1"])])
  /\ Util.findRefsInFormula (str "=A9007199254740993+1") = [str "A9007199254740993"]
  /\ Float.asRef (Float.Label (str "A9007199254740993"))
     = Float.Returns (str "A9007199254740992")
  /\ toUpperCase (str "=a1:a2+A1:A22") = toUpperCase (str "=A1:A2+A1:A22")
  /\ Util.expandRanges (str "=A1:A2+A1:A22") = Some (str "=[[A1],[A2]]+[[A1],[A2]]2")
  /\ newSubjectsOf (VStr (str "=A1:A2+A1:A22")) = [str "A1"; str "A2"]
  /\ length (newSubjectsOf (VStr (str "=a1:a2+A1:A22"))) = 22%nat
  /\ In (str "A22") (newSubjectsOf (VStr (str "=a1:a2+A1:A22")))
  /\ newSubjectsOf (VStr (str "=a1+1")) = newSubjectsOf (VStr (str "=A1+1"))
  /\ exists sh1 sh2,
       run (updateOrCreateCell evalArith 10 (Util.Label (str "B1"))
              (VStr (str "=a1+1")) None) emptySheet = Some sh1
       /\ run (updateOrCreateCell evalArith 10 (Util.Label (str "B1"))
                 (VStr (str "=A1+1")) None) emptySheet = Some sh2
       /\ cells sh1 = cells sh2
       /\ map (fun c => (ref c, subjects c, observers c)) (objs sh1)
          = [(str "B1", [str "A1"], []); (str "A1", [], [str "B1"])]
       /\ map (fun c => (ref c, subjects c, observers c)) (objs sh2)
          = [(str "B1", [str "A1"], []); (str "A1", [], [str "B1"])].
Proof.
  split; [reflexivity|]. split; [reflexivity|]. split; [vm_compute; reflexivity|].
  split; [eexists; split; [vm_compute; reflexivity | reflexivity]|].
  split; [reflexivity|]. split; [vm_compute; reflexivity|].
  split; [reflexivity|]. split; [vm_compute; reflexivity|].
  split; [vm_compute; reflexivity|]. split; [vm_compute; reflexivity|].
  split; [vm_compute; tauto|]. split; [reflexivity|].
  eexists. eexists. split; [vm_compute; reflexivity|].
  split; [vm_compute; reflexivity|]. repeat split; reflexivity.
Qed.

(** ** Updating one object of the store *)

Lemma updateNth_length {A} (n : nat) (f : A -> A) (l : list A) :
  length (updateNth n f l) = length l.
Proof.
  revert n. induction l as [|x l IH]; intros [|n]; simpl; auto.
Qed.

Lemma updateNth_nth_eq {A} (n : nat) (f : A -> A) (l : list A) (d : A) :
  (n < length l)%nat -> nth n (updateNth n f l) d = f (nth n l d).
Proof.
  revert n. induction l as [|x l IH]; intros [|n] H; simpl in *; try lia; auto.
  apply IH. lia.
Qed.

Lemma updateNth_nth_neq {A} (n m : nat) (f : A -> A) (l : list A) (d : A) :
  n <> m -> nth m (updateNth n f l) d = nth m l d.
Proof.
  revert n m. induction l as [|x l IH]; intros [|n] [|m] H; simpl; auto; try congruence.
Qed.

Lemma updateNth_overflow {A} (n : nat) (f : A -> A) (l : list A) :
  (length l <= n)%nat -> updateNth n f l = l.
Proof.
  revert n. induction l as [|x l IH]; intros [|n] H; simpl in *; auto; try lia.
  f_equal. apply IH. lia.
Qed.

Lemma modifyCell_run (a : nat) (f : Cell -> Cell) (sh : Sheet) :
  modifyCell a f sh = Ok (tt, withCell sh a f).
Proof. reflexivity. Qed.

Lemma getCell_run (a : nat) (sh : Sheet) : getCell a sh = Ok (cellAt sh a, sh).
Proof. reflexivity. Qed.

Lemma withCell_cellAt_eq (sh : Sheet) (a : nat) (f : Cell -> Cell) :
  (a < length (objs sh))%nat -> cellAt (withCell sh a f) a = f (cellAt sh a).
Proof. intros H. unfold cellAt, withCell. simpl. now apply updateNth_nth_eq. Qed.

Lemma withCell_cellAt_neq (sh : Sheet) (a b : nat) (f : Cell -> Cell) :
  a <> b -> cellAt (withCell sh a f) b = cellAt sh b.
Proof. intros H. unfold cellAt, withCell. simpl. now apply updateNth_nth_neq. Qed.

Lemma withCell_length (sh : Sheet) (a : nat) (f : Cell -> Cell) :
  length (objs (withCell sh a f)) = length (objs sh).
Proof. apply updateNth_length. Qed.

Lemma withCell_subjects (sh : Sheet) (a b : nat) (f : Cell -> Cell) :
  (forall c, subjects (f c) = subjects c) ->
  subjects (cellAt (withCell sh a f) b) = subjects (cellAt sh b).
Proof.
  intros H. destruct (Nat.eq_dec a b) as [<- | N]; [|now rewrite withCell_cellAt_neq].
  destruct (Nat.lt_ge_cases a (length (objs sh))) as [L | L].
  - now rewrite withCell_cellAt_eq.
  - unfold withCell, cellAt. simpl. now rewrite updateNth_overflow.
Qed.

(** A traversal that finds nothing from an empty array has visited all
    that the labels lead to. *)
Lemma visitPost_complete (thisRef : jsstring) (S V' : list jsstring) (sh sh' : Sheet) :
  visitPost thisRef [] false V' sh sh' -> ~ In thisRef S -> incl S V' ->
  ~ refersTo sh thisRef S.
Proof.
  intros (_ & _ & _ & _ & C) Hn Hi H. specialize (C eq_refl).
  induction H as [S H | S r Hr H IH]; [contradiction|].
  destruct (C r (Hi r Hr)) as [Hn' Hi']; [intros []|]. now apply IH.
Qed.

Lemma allSubjects_within (sh : Sheet) (U : list jsstring) :
  incl (allSubjects sh) U -> subjectsWithin U sh.
Proof.
  intros H a r Hr. apply H. unfold allSubjects, cellAt in *.
  destruct (Nat.lt_ge_cases a (length (objs sh))) as [L | L].
  - apply in_concat. exists (subjects (nth a (objs sh) (blankCell []))).
    split; [|assumption]. apply in_map. now apply nth_In.
  - rewrite nth_overflow in Hr by assumption. contradiction.
Qed.

Lemma remaining_nil (U : list jsstring) : remaining U [] = length U.
Proof.
  unfold remaining. induction U as [|x U IH]; simpl; [reflexivity | now f_equal].
Qed.

(** ** A write that the cycle check rejects *)

Lemma updateNth_updateNth {A} (n : nat) (f g : A -> A) (l : list A) :
  updateNth n g (updateNth n f l) = updateNth n (fun x => g (f x)) l.
Proof.
  revert n. induction l as [|x l IH]; intros [|n]; simpl; auto. now rewrite IH.
Qed.

Lemma withCell_withCell (sh : Sheet) (a : nat) (f g : Cell -> Cell) :
  withCell (withCell sh a f) a g = withCell sh a (fun c => g (f c)).
Proof. unfold withCell. simpl. now rewrite updateNth_updateNth. Qed.

Lemma subjOf_withCell (sh : Sheet) (a : nat) (f : Cell -> Cell) (r : jsstring) :
  (forall c, subjects (f c) = subjects c) ->
  subjOf (withCell sh a f) r = subjOf sh r.
Proof.
  intros H. unfold subjOf. destruct (Util.asRef (Util.Label r)); [|reflexivity].
  change (cells (withCell sh a f)) with (cells sh).
  destruct (lookupCell _ _); [|reflexivity]. now apply withCell_subjects.
Qed.

Lemma refersTo_withCell (sh : Sheet) (a : nat) (f : Cell -> Cell)
  (target : jsstring) (S : list jsstring) :
  (forall c, subjects (f c) = subjects c) ->
  refersTo sh target S -> refersTo (withCell sh a f) target S.
Proof.
  intros Hf H. induction H as [S H | S r Hr H IH].
  - now apply refers_direct.
  - apply refers_through with r; [assumption|]. now rewrite subjOf_withCell.
Qed.

Section Writes.

Variable eval : jsstring -> option Value.

Lemma setValue_rejected (fuel : nat) (sh : Sheet) (this : nat) (v : Value) :
  let c := cellAt sh this in
  let sh0 := withCell sh this (startWrite v) in
  (this < length (objs sh))%nat -> wfSubjects sh ->
  value_eqb (value c) v = false ->
  refersTo sh (ref c) (newSubjectsOf v) ->
  (length (newSubjectsOf v ++ allSubjects sh) < fuel)%nat ->
  exists visited sh1,
    _hasCircularDependency fuel (ref c) (newSubjectsOf v) [] sh0 = Ok ((true, visited), sh1)
    /\ visitPost (ref c) [] true visited sh0 sh1
    /\ setValue eval fuel this v None sh = Ok (tt, withCell sh1 this markCircular).
Proof.
  intros c sh0 Hthis Hwf Hv Hrefers Hfuel.
  assert (Hsub : forall x, subjects (startWrite v x) = subjects x) by reflexivity.
  destruct (hasCircularDependency_spec (ref c) (newSubjectsOf v ++ allSubjects sh) fuel
              (newSubjectsOf v) [] sh0)
    as (b & visited & sh1 & E & P & L & T & Z).
  { intros a r. unfold sh0. rewrite withCell_subjects by assumption. apply Hwf. }
  { intros a. unfold sh0. rewrite withCell_subjects by assumption.
    apply allSubjects_within. apply incl_appr, incl_refl. }
  { apply newSubjectsOf_valid. }
  { apply incl_appl, incl_refl. }
  { now rewrite remaining_nil. }
  destruct b.
  2:{ exfalso. destruct (L eq_refl) as [Hn Hi].
      apply (visitPost_complete (ref c) (newSubjectsOf v) visited sh0 sh1 P Hn Hi).
      now apply refersTo_withCell. }
  exists visited, sh1. split; [assumption|]. split; [assumption|].
  unfold setValue. rewrite (bind_ok _ _ _ _ _ (getCell_run this sh)).
  fold c. rewrite Hv. cbn [negb].
  rewrite (bind_ok _ _ _ _ _ (modifyCell_run _ _ _)).
  rewrite (bind_ok _ _ _ _ _ (modifyCell_run _ _ _)).
  rewrite (bind_ok _ _ _ _ _ (modifyCell_run _ _ _)).
  rewrite (bind_ok _ _ _ _ _ (modifyCell_run _ _ _)).
  rewrite !withCell_withCell. fold (startWrite v). fold sh0.
  rewrite (bind_ok _ _ _ _ _ (newSubjects_run v sh0)).
  rewrite (bind_ok _ _ _ _ _ E).
  rewrite (bind_ok _ _ (sh1) (withCell sh1 this markCircular) tt).
  2:{ rewrite (bind_ok _ _ _ _ _ (modifyCell_run _ _ _)).
      rewrite (bind_ok _ _ _ _ _ (modifyCell_run _ _ _)).
      rewrite modifyCell_run. now rewrite !withCell_withCell. }
  rewrite (bind_ok _ _ _ _ _ (getCell_run this _)).
  rewrite withCell_cellAt_eq.
  - reflexivity.
  - assert (G := grown_length sh0 sh1 ltac:(apply P)).
    unfold sh0 in G. rewrite withCell_length in G. lia.
Qed.

End Writes.


Lemma cellAt_cases (sh : Sheet) (a : nat) :
  In (cellAt sh a) (objs sh) \/ cellAt sh a = blankCell [].
Proof.
  destruct (Nat.lt_ge_cases a (length (objs sh))) as [L | L].
  - left. now apply nth_In.
  - right. now apply cellAt_overflow.
Qed.








(** ** Edge symmetry *)

(** C1 (the code does not keep the invariant). Two writes into B1 of an
    empty sheet, "=A01" and then "=A1": the first registers B1 with the cell
    A1 under the subject "A01"; the second adds the subject "A1" and removes
    "A01", which unregisters B1 from the same cell A1.  B1 then reads A1 and
    A1 has no observer. *)
Theorem edge_symmetry_broken_by_leading_zero :
  exists sh cB cA,
    run (updateOrCreateCell evalArith 10 (Util.Label (str "B1")) (VStr (str "=A01")) None ;;
         resetEvaluated ;;
         updateOrCreateCell evalArith 10 (Util.Label (str "B1")) (VStr (str "=A1")) None)
      emptySheet = Some sh
    /\ cellOf sh (str "B1") = Some cB /\ cellOf sh (str "A1") = Some cA
    /\ In (str "A1") (subjects cB) /\ ~ In (str "B1") (observers cA)
    /\ ~ edgeSymmetry sh.
Proof.
  eexists. eexists. eexists.
  split; [vm_compute; reflexivity|].
  split; [vm_compute; reflexivity|].
  split; [vm_compute; reflexivity|].
  split; [simpl; auto|]. split; [simpl; tauto|].
  intros H.
  specialize (H (str "B1") (str "A1") _ _ eq_refl eq_refl).
  simpl in H. tauto.
Qed.

(** ** Propagation through a diamond *)

(** C3 (the code misses the update). In the diamond above, writing 2 into
    A1 changes A1 and B1 but not C1 (2*0 = 1*0).  B1 notifies D1 while C1 is
    not yet evaluated, so D1 is skipped; C1, unchanged, notifies nobody.  D1
    is not evaluated in the pass and keeps 2, where B1 + C1 is now 3. *)
Theorem diamond_unchanged_sibling_skips_D :
  exists sh0 a sh1,
    newSheet evalArith 10 diamond = Ok (tt, sh0)
    /\ map (evaluatedValueOf sh0) [str "A1"; str "B1"; str "C1"; str "D1"]
       = [Some (VNum 1); Some (VNum 2); Some (VNum 0); Some (VNum 2)]
    /\ forallb (fun c => negb (evaluated c)) (objs sh0) = true
    /\ updateOrCreateCell evalArith 10 (Util.Label (str "A1")) (VNum 2) None sh0
       = Ok (a, sh1)
    /\ evaluations sh1 = evaluations sh0 ++ [str "A1"; str "B1"; str "C1"]
    /\ map (evaluatedValueOf sh1) [str "A1"; str "B1"; str "C1"; str "D1"]
       = [Some (VNum 2); Some (VNum 3); Some (VNum 0); Some (VNum 2)].
Proof.
  eexists. eexists. eexists.
  split; [vm_compute; reflexivity|].
  split; [reflexivity|]. split; [reflexivity|].
  split; [vm_compute; reflexivity|].
  split; reflexivity.
Qed.

(** The same diamond with C1 = "=A1+2", which changes with A1: D1 is
    evaluated once, after B1 and C1, and shows both new values. *)
Example diamond_both_siblings_change :
  exists sh0 a sh1,
    newSheet evalArith 10
      [(str "A1", VNum 1); (str "B1", VStr (str "=A1+1"));
       (str "C1", VStr (str "=A1+2")); (str "D1", VStr (str "=B1+C1"))]
    = Ok (tt, sh0)
    /\ updateOrCreateCell evalArith 10 (Util.Label (str "A1")) (VNum 2) None sh0
       = Ok (a, sh1)
    /\ evaluations sh1 = evaluations sh0 ++ [str "A1"; str "B1"; str "C1"; str "D1"]
    /\ map (evaluatedValueOf sh1) [str "A1"; str "B1"; str "C1"; str "D1"]
       = [Some (VNum 2); Some (VNum 3); Some (VNum 4); Some (VNum 7)].
Proof.
  eexists. eexists. eexists.
  split; [vm_compute; reflexivity|].
  split; [vm_compute; reflexivity|].
  split; reflexivity.
Qed.

(** ** The traversal of the observers *)

Lemma Reach_trans (sh : Sheet) (a b c : jsstring) :
  Reach sh a b -> Reach sh b c -> Reach sh a c.
Proof.
  intros Hab Hbc. induction Hbc as [|x y _ IH Hy]; [assumption|].
  now apply reach_step with x.
Qed.

Lemma Reach_first (sh : Sheet) (a b c : jsstring) :
  In b (obsOf sh a) -> Reach sh b c -> Reach sh a c.
Proof.
  intros Hab. apply Reach_trans. apply reach_step with a; [apply reach_refl | assumption].
Qed.

Lemma findCell_run (r k : jsstring) (sh : Sheet) :
  Util.asRef (Util.Label r) = Some k ->
  findCell (Util.Label r) sh = Ok (lookupCell k (cells sh), sh).
Proof. intros H. unfold findCell, bind, defined, getCells, ret. now rewrite H. Qed.

Section ObserverTraversal.

Variable sh : Sheet.
Variable U : list jsstring.
Hypothesis Hwf : wfObservers sh.
Hypothesis HU : observersWithin U sh.

Lemma flatMapObservers_spec (n : nat)
  (visit : jsstring -> list jsstring -> M (list jsstring * list jsstring)) :
  (forall r V,
      (exists a, In r (observers (cellAt sh a))) -> has V r = false ->
      (remaining U (V ++ [r]) < n)%nat ->
      exists R V',
        visit r (V ++ [r]) sh = Ok ((R, V'), sh)
        /\ In r V' /\ descPost sh [r] V R V') ->
  forall l V,
    (forall r, In r l -> exists a, In r (observers (cellAt sh a))) ->
    (remaining U V < S n)%nat ->
    exists R V',
      flatMapObservers visit l V sh = Ok ((R, V'), sh)
      /\ incl l V' /\ descPost sh l V R V'.
Proof.
  intros Hvisit. induction l as [|r l IH]; intros V Hl Hfuel.
  - exists [], V. split; [reflexivity|]. split; [intros x []|].
    split; [apply incl_refl|]. split; [|intros x H1 H2; contradiction].
    intros x. simpl. tauto.
  - simpl. destruct (has V r) eqn:Er.
    + destruct (IH V) as (R & V' & E & Il & (I & HR & C)); auto.
      { intros x Hx. apply Hl. now right. }
      exists R, V'. split; [assumption|]. split.
      { intros x [<- | Hx]; [|now apply Il]. apply I. now apply has_In. }
      split; [assumption|]. split; [assumption|].
      intros x H1 H2. destruct (C x H1 H2) as (Hc & s & Hs & Hr).
      split; [assumption|]. exists s. split; [now right | assumption].
    + assert (HrU : In r U).
      { destruct (Hl r (or_introl eq_refl)) as [a Ha]. now apply (HU a). }
      assert (Hlt := remaining_push U V r HrU Er).
      destruct (Hvisit r V) as (R1 & V1 & E1 & Hr1 & (I1 & HR1 & C1)); auto.
      { apply Hl. now left. }
      { lia. }
      rewrite (bind_ok _ _ _ _ _ E1). cbn beta iota.
      destruct (IH V1) as (R2 & V2 & E2 & Il2 & (I2 & HR2 & C2)).
      { intros x Hx. apply Hl. now right. }
      { assert (Hm := remaining_mono U V V1 I1). lia. }
      rewrite (bind_ok _ _ _ _ _ E2). cbn beta iota.
      exists (R1 ++ R2), V2. split; [reflexivity|]. split.
      { intros x [<- | Hx]; [now apply I2 | now apply Il2]. }
      split; [eapply incl_tran; eassumption|]. split.
      * intros x. rewrite in_app_iff, HR1, HR2. split.
        -- intros [[H1 H2] | [H1 H2]]; split; auto.
        -- intros [H1 H2]. destruct (has V1 x) eqn:Ex.
           ++ apply has_In in Ex. left. now split.
           ++ apply has_not_In in Ex. right. now split.
      * intros x H1 H2. destruct (has V1 x) eqn:Ex.
        -- apply has_In in Ex. destruct (C1 x Ex H2) as (Hc & s & [Hs | []] & Hr).
           split; [eapply incl_tran; eassumption|]. exists s. split; [now left | assumption].
        -- apply has_not_In in Ex. destruct (C2 x H1 Ex) as (Hc & s & Hs & Hr).
           split; [assumption|]. exists s. split; [now right | assumption].
Qed.

Lemma descendantObservers_spec (fuel : nat) :
  forall this V,
    (remaining U V < fuel)%nat ->
    exists R V',
      descendantObservers fuel this V sh = Ok ((R, V'), sh)
      /\ incl V V'
      /\ incl (observers (cellAt sh this)) V'
      /\ (forall x, In x R <-> x = ref (cellAt sh this) \/ (In x V' /\ ~ In x V))
      /\ (forall x, In x V' -> ~ In x V ->
            incl (obsOf sh x) V'
            /\ exists s, In s (observers (cellAt sh this)) /\ Reach sh s x).
Proof.
  induction fuel as [|fuel IH]; intros this V Hfuel; [lia|].
  cbn [descendantObservers]. rewrite (bind_ok _ _ _ _ _ (getCell_run this sh)).
  destruct (flatMapObservers_spec fuel
              (fun r visited' =>
                 o <- findCell (Util.Label r) ;;
                 observer <- defined o ;;
                 descendantObservers fuel observer visited'))
    with (l := observers (cellAt sh this)) (V := V) as (R & V' & E & Il & (I & HR & C)).
  - clear this V Hfuel. intros r V [a Ha] Hr Hfuel.
    destruct (Hwf a r Ha) as (Hk & b & Hb & Hrb).
    rewrite (bind_ok _ _ _ _ _ (findCell_run r r sh Hk)). rewrite Hb.
    unfold defined. erewrite bind_ok by reflexivity.
    destruct (IH b (V ++ [r]) Hfuel) as (R & V' & E & I & Io & HR & C).
    assert (HrV' : In r V') by (apply I, in_or_app; right; simpl; auto).
    assert (Hobs : obsOf sh r = observers (cellAt sh b)).
    { unfold obsOf. now rewrite Hk, Hb. }
    exists R, V'. split; [assumption|]. split; [assumption|].
    split; [exact (incl_tran (incl_appl [r] (incl_refl V)) I)|].
    split.
    + intros x. rewrite HR, Hrb, in_app_iff. simpl. apply has_not_In in Hr. split.
      * intros [-> | [H1 H2]]; [now split | split; [assumption | tauto]].
      * intros [H1 H2]. destruct (streqb x r) eqn:Ex.
        -- left. now apply streqb_eq.
        -- apply streqb_neq in Ex. right. split; [assumption|]. intuition congruence.
    + intros x H1 H2. destruct (streqb x r) eqn:Ex.
      * apply streqb_eq in Ex. subst x. rewrite Hobs. split; [assumption|].
        exists r. split; [now left | apply reach_refl].
      * apply streqb_neq in Ex. destruct (C x H1) as (Hc & s & Hs & Hrs).
        { rewrite in_app_iff. simpl. intuition congruence. }
        split; [assumption|]. exists r. split; [now left|].
        apply Reach_first with s; [now rewrite Hobs | assumption].
  - intros r Hr. now exists this.
  - assumption.
  - rewrite (bind_ok _ _ _ _ _ E). cbn beta iota.
    exists (setAppend (newSet [ref (cellAt sh this)]) R), V'.
    split; [reflexivity|]. split; [assumption|]. split; [assumption|].
    split; [|assumption].
    intros x. rewrite setAppend_In, newSet_In, HR. simpl. intuition congruence.
Qed.

(** From the empty array, the traversal returns the labels reachable from
    the cell. *)
Lemma descendantObservers_reach (fuel : nat) (this : nat) :
  let t := ref (cellAt sh this) in
  Util.asRef (Util.Label t) = Some t -> lookupCell t (cells sh) = Some this ->
  (length U < fuel)%nat ->
  exists F V',
    descendantObservers fuel this [] sh = Ok ((F, V'), sh)
    /\ forall x, In x F <-> Reach sh t x.
Proof.
  intros t Ht Hthis Hfuel.
  destruct (descendantObservers_spec fuel this []) as (F & V' & E & _ & Io & HF & C).
  { now rewrite remaining_nil. }
  assert (Hobs : obsOf sh t = observers (cellAt sh this)).
  { unfold obsOf. now rewrite Ht, Hthis. }
  exists F, V'. split; [assumption|]. intros x. rewrite HF. fold t. split.
  - intros [-> | [H1 _]]; [apply reach_refl|].
    destruct (C x H1) as (_ & s & Hs & Hr); [intros []|].
    apply Reach_first with s; [now rewrite Hobs | assumption].
  - intros H. induction H as [|y z _ IH Hz]; [now left|].
    right. split; [|intros []].
    destruct IH as [-> | [Hy _]].
    + apply Io. now rewrite <- Hobs.
    + destruct (C y Hy) as (Hc & _); [intros []|]. now apply Hc.
Qed.

End ObserverTraversal.

(** ** The edges a write changes *)

Lemma edgeSim_refl (t : jsstring) (sh : Sheet) : edgeSim t sh sh.
Proof.
  repeat split; auto. intros a x Hx. now right.
Qed.

Lemma edgeSim_trans (t : jsstring) (sh1 sh2 sh3 : Sheet) :
  edgeSim t sh1 sh2 -> edgeSim t sh2 sh3 -> edgeSim t sh1 sh3.
Proof.
  intros (L1 & F1 & O1 & I1 & K1 & N1) (L2 & F2 & O2 & I2 & K2 & N2).
  split; [lia|]. split; [|split; [|split; [|split]]].
  - intros a Ha. destruct (F1 a Ha) as (A1 & A2 & A3).
    destruct (F2 a ltac:(lia)) as (B1 & B2 & B3). repeat split; congruence.
  - intros a x Hx. rewrite (O2 a x Hx). now apply O1.
  - intros a x Hx. apply I2 in Hx. destruct Hx as [<- | Hx]; [now left|]. now apply I1.
  - auto.
  - intros k a H. destruct (N2 k a H) as [H2 | [H2 L]].
    + apply N1 in H2. assumption.
    + right. split; [|lia].
      destruct (lookupCell k (cells sh1)) eqn:E; [|reflexivity].
      apply K1 in E. congruence.
Qed.

Lemma edgeSim_grown (t : jsstring) (sh sh' : Sheet) : grown sh sh' -> edgeSim t sh sh'.
Proof.
  intros G. split; [now apply grown_length|].
  assert (Hobs : forall a, observers (cellAt sh' a) = observers (cellAt sh a)).
  { intros a. destruct (Nat.lt_ge_cases a (length (objs sh))) as [H | H].
    - now rewrite (grown_cellAt sh sh' a G H).
    - rewrite (isBlank_observers _ (grown_cellAt_new sh sh' a G H)).
      now rewrite cellAt_overflow. }
  split; [|split; [|split; [|split]]].
  - intros a Ha. now rewrite (grown_cellAt sh sh' a G Ha).
  - intros a x _. now rewrite Hobs.
  - intros a x. rewrite Hobs. now right.
  - apply G.
  - apply G.
Qed.

Lemma withCell_overflow (sh : Sheet) (a : nat) (f : Cell -> Cell) :
  (length (objs sh) <= a)%nat -> withCell sh a f = sh.
Proof.
  intros H. unfold withCell. rewrite updateNth_overflow by assumption. now destruct sh.
Qed.

Lemma edgeSim_withCell (t : jsstring) (sh : Sheet) (a : nat) (f : Cell -> Cell) :
  keepsEdges t f -> edgeSim t sh (withCell sh a f).
Proof.
  intros Hf. destruct (Nat.lt_ge_cases a (length (objs sh))) as [La | La].
  2:{ rewrite withCell_overflow by assumption. apply edgeSim_refl. }
  split; [rewrite withCell_length; lia|].
  split; [|split; [|split; [|split]]].
  - intros b Hb. destruct (Nat.eq_dec a b) as [<- | N].
    + rewrite withCell_cellAt_eq by assumption. destruct (Hf (cellAt sh a)) as (A1 & A2 & A3 & _).
      auto.
    + now rewrite withCell_cellAt_neq.
  - intros b x Hx. destruct (Nat.eq_dec a b) as [<- | N].
    + rewrite withCell_cellAt_eq by assumption. now apply Hf.
    + now rewrite withCell_cellAt_neq.
  - intros b. destruct (Nat.eq_dec a b) as [<- | N].
    + rewrite withCell_cellAt_eq by assumption. apply Hf.
    + rewrite withCell_cellAt_neq by assumption. apply incl_tl, incl_refl.
  - auto.
  - auto.
Qed.

Lemma edgeLoop_spec (t : jsstring) (f : Cell -> Cell) (l : list jsstring) :
  keepsEdges t f ->
  forall sh,
    (forall r, In r l -> validLabel r) ->
    exists sh',
      forEach l (fun r => a <- findOrCreateCell (Util.Label r) ;; modifyCell a f) sh
      = Ok (tt, sh')
      /\ edgeSim t sh sh'.
Proof.
  intros Hf. induction l as [|r l IH]; intros sh Hl.
  - exists sh. split; [reflexivity | apply edgeSim_refl].
  - cbn [forEach].
    destruct (grown_findOrCreateCell r sh (Hl r (or_introl eq_refl)))
      as (k & a & sh1 & _ & E1 & G1 & _).
    destruct (IH (withCell sh1 a f)) as (sh' & E & S).
    { intros x Hx. apply Hl. now right. }
    exists sh'. split.
    + erewrite bind_ok; [exact E|].
      rewrite (bind_ok _ _ _ _ _ E1). apply modifyCell_run.
    + eapply edgeSim_trans; [|exact S].
      eapply edgeSim_trans; [apply edgeSim_grown; exact G1 | now apply edgeSim_withCell].
Qed.

Lemma keepsEdges_register (t : jsstring) :
  keepsEdges t (fun c => set_observers (setAdd (observers c) t) c).
Proof.
  intros c. repeat split; simpl.
  - rewrite setAdd_In. intuition congruence.
  - rewrite setAdd_In. tauto.
  - intros x Hx. apply setAdd_In in Hx. simpl. intuition congruence.
Qed.

Lemma keepsEdges_unregister (t : jsstring) :
  keepsEdges t (fun c => set_observers (setDelete (observers c) t) c).
Proof.
  intros c. repeat split; simpl.
  - rewrite setDelete_In. tauto.
  - rewrite setDelete_In. tauto.
  - intros x Hx. apply setDelete_In in Hx. simpl. tauto.
Qed.

Lemma keepsEdges_fields (t : jsstring) (f : Cell -> Cell) :
  (forall c, ref (f c) = ref c) -> (forall c, evaluated (f c) = evaluated c) ->
  (forall c, evaluatedValue (f c) = evaluatedValue c) ->
  (forall c, observers (f c) = observers c) ->
  keepsEdges t f.
Proof.
  intros H1 H2 H3 H4 c. rewrite H1, H2, H3, H4. repeat split; auto.
  apply incl_tl, incl_refl.
Qed.

Lemma refersTo_withCell_inv (sh : Sheet) (a : nat) (f : Cell -> Cell)
  (target : jsstring) (S : list jsstring) :
  (forall c, subjects (f c) = subjects c) ->
  refersTo (withCell sh a f) target S -> refersTo sh target S.
Proof.
  intros Hf H. induction H as [S H | S r Hr H IH].
  - now apply refers_direct.
  - apply refers_through with r; [assumption|]. now rewrite <- (subjOf_withCell sh a f).
Qed.

Lemma grown_unstored (sh sh' : Sheet) (this : nat) :
  grown sh sh' -> (this < length (objs sh))%nat -> unstored sh this -> unstored sh' this.
Proof.
  intros (_ & _ & N & _) Hthis Hu k Hk.
  destruct (N k this Hk) as [H | [_ H]]; [now apply (Hu k) | lia].
Qed.

(** The loops over the subjects added and removed leave an object that is
    not stored as it is. *)
Lemma edgeLoop_unstored (this : nat) (f : Cell -> Cell) (l : list jsstring) :
  forall sh sh',
    (this < length (objs sh))%nat -> unstored sh this ->
    (forall r, In r l -> validLabel r) ->
    forEach l (fun r => a <- findOrCreateCell (Util.Label r) ;; modifyCell a f) sh
    = Ok (tt, sh') ->
    cellAt sh' this = cellAt sh this /\ unstored sh' this.
Proof.
  induction l as [|r l IH]; intros sh sh' Hthis Hu Hl E.
  - injection E as <-. now split.
  - cbn [forEach] in E.
    destruct (grown_findOrCreateCell r sh (Hl r (or_introl eq_refl)))
      as (k & a & sh1 & _ & E1 & G1 & Hk & _).
    erewrite bind_ok in E.
    2:{ rewrite (bind_ok _ _ _ _ _ E1). apply modifyCell_run. }
    assert (Hu1 := grown_unstored sh sh1 this G1 Hthis Hu).
    assert (Ha : a <> this) by (intros ->; now apply (Hu1 k)).
    assert (L1 := grown_length sh sh1 G1).
    destruct (IH (withCell sh1 a f) sh') as [Hc Hu'].
    + rewrite withCell_length. lia.
    + exact Hu1.
    + intros x Hx. apply Hl. now right.
    + exact E.
    + split; [|exact Hu'].
      rewrite Hc, withCell_cellAt_neq by assumption. now apply grown_cellAt.
Qed.

Section AcceptedWrite.

Variable eval : jsstring -> option Value.

(** A write that passes the cycle check, step by step: up to the capture
    of the frontier it only adds cells and changes observer sets by the
    label of the written cell; the observers of a written cell that is not
    stored are as they were. *)
Lemma setValue_accepted_trace (fuel : nat) (sh : Sheet) (this : nat) (v : Value) :
  let c := cellAt sh this in
  (this < length (objs sh))%nat -> wfSubjects sh ->
  value_eqb (value c) v = false ->
  ~ refersTo sh (ref c) (newSubjectsOf v) ->
  (length (newSubjectsOf v ++ allSubjects sh) < fuel)%nat ->
  exists visited shc sha shr,
    acceptedWrite fuel sh this v visited shc sha shr
    /\ edgeSim (ref c) sh shr
    /\ (unstored sh this -> observers (cellAt shr this) = observers c)
    /\ setValue eval fuel this v None sh
       = (frontier <- (' (d, _) <- descendantObservers fuel this [] ;; ret d) ;;
          _evaluateValue eval fuel this frontier) shr.
Proof.
  intros c Hthis Hwf Hv Hrefers Hfuel.
  set (sh0 := withCell sh this (startWrite v)).
  assert (Hsub : forall x, subjects (startWrite v x) = subjects x) by reflexivity.
  destruct (hasCircularDependency_spec (ref c) (newSubjectsOf v ++ allSubjects sh) fuel
              (newSubjectsOf v) [] sh0)
    as (b & visited & shc & E & P & L & T & Z).
  { intros a r. unfold sh0. rewrite withCell_subjects by assumption. apply Hwf. }
  { intros a. unfold sh0. rewrite withCell_subjects by assumption.
    apply allSubjects_within. apply incl_appr, incl_refl. }
  { apply newSubjectsOf_valid. }
  { apply incl_appl, incl_refl. }
  { now rewrite remaining_nil. }
  destruct b.
  { exfalso. apply Hrefers. apply (refersTo_withCell_inv sh this (startWrite v)); auto. }
  assert (G : grown sh0 shc) by apply P.
  assert (L0 : length (objs sh0) = length (objs sh)) by apply withCell_length.
  assert (Lc := grown_length sh0 shc G).
  set (ns := newSubjectsOf v) in *.
  set (f1 := fun c' : Cell => set_subjects ns c').
  destruct (edgeLoop_spec (ref c) (registerIn (ref c))
              (setDiff ns (subjects c)) (keepsEdges_register (ref c))
              (withCell shc this f1))
    as (sha & Ea & Sa).
  { intros r Hr. apply setDiff_In in Hr as [Hr _]. now apply (newSubjectsOf_valid v). }
  destruct (edgeLoop_spec (ref c) (unregisterFrom (ref c))
              (setDiff (subjects c) ns) (keepsEdges_unregister (ref c)) sha)
    as (shr & Er & Sr).
  { intros r Hr. apply setDiff_In in Hr as [Hr _]. now apply (Hwf this). }
  exists visited, shc, sha, shr. split; [|split; [|split]].
  - split; [exact E|]. split; [exact P|]. split; [now apply L|]. split; [exact Z|].
    split; [exact Ea | exact Er].
  - apply (edgeSim_trans _ sh sha shr); [|exact Sr].
    apply (edgeSim_trans _ sh (withCell shc this f1) sha); [|exact Sa].
    apply (edgeSim_trans _ sh sh0); [apply edgeSim_withCell; now apply keepsEdges_fields|].
    apply (edgeSim_trans _ sh0 shc); [apply edgeSim_grown; exact G|].
    apply edgeSim_withCell. now apply keepsEdges_fields.
  - intros Hu.
    assert (Hu0 : unstored sh0 this) by exact Hu.
    assert (Huc : unstored (withCell shc this f1) this).
    { apply (grown_unstored sh0 shc this G); [lia | exact Hu0]. }
    assert (Lf : (this < length (objs (withCell shc this f1)))%nat)
      by (rewrite withCell_length; lia).
    assert (Va : forall r, In r (setDiff ns (subjects c)) -> validLabel r).
    { intros r Hr. apply setDiff_In in Hr as [Hr _]. now apply (newSubjectsOf_valid v). }
    destruct (edgeLoop_unstored this _ _ _ _ Lf Huc Va Ea) as [Ca Hua].
    assert (La : (this < length (objs sha))%nat).
    { destruct Sa as (La & _). lia. }
    assert (Vr : forall r, In r (setDiff (subjects c) ns) -> validLabel r).
    { intros r Hr. apply setDiff_In in Hr as [Hr _]. now apply (Hwf this). }
    destruct (edgeLoop_unstored this _ _ _ _ La Hua Vr Er) as [Cr _].
    rewrite Cr, Ca, withCell_cellAt_eq by lia.
    rewrite (grown_cellAt sh0 shc this G) by lia.
    unfold sh0. rewrite withCell_cellAt_eq by lia. reflexivity.
  - unfold setValue. rewrite (bind_ok _ _ _ _ _ (getCell_run this sh)).
    fold c. rewrite Hv. cbn [negb].
    rewrite (bind_ok _ _ _ _ _ (modifyCell_run _ _ _)).
    rewrite (bind_ok _ _ _ _ _ (modifyCell_run _ _ _)).
    rewrite (bind_ok _ _ _ _ _ (modifyCell_run _ _ _)).
    rewrite (bind_ok _ _ _ _ _ (modifyCell_run _ _ _)).
    rewrite !withCell_withCell. fold (startWrite v). fold sh0.
    rewrite (bind_ok _ _ _ _ _ (newSubjects_run v sh0)). fold ns.
    rewrite (bind_ok _ _ _ _ _ E). cbn beta iota.
    rewrite (bind_ok _ _ shc shc tt) by reflexivity.
    rewrite (bind_ok _ _ _ _ _ (getCell_run this _)).
    rewrite (grown_cellAt sh0 shc this G) by lia.
    unfold sh0 at 1. rewrite withCell_cellAt_eq by lia. cbn [startWrite invalid set_errorMessage set_invalid negb].
    rewrite (bind_ok _ _ _ _ _ (modifyCell_run _ _ _)).
    unfold _registerObserver, _unregisterObserver.
    cbn [subjects startWrite set_errorMessage set_invalid set_modified set_value].
    fold (registerIn (ref c)). fold (unregisterFrom (ref c)).
    rewrite (bind_ok _ _ _ _ _ Ea).
    rewrite (bind_ok _ _ _ _ _ Er).
    reflexivity.
Qed.

End AcceptedWrite.

(** ** The frontier of a write *)

Lemma allObservers_within (sh : Sheet) (U : list jsstring) :
  incl (allObservers sh) U -> observersWithin U sh.
Proof.
  intros H a r Hr. apply H. unfold allObservers.
  destruct (cellAt_cases sh a) as [Hc | Hc].
  - apply in_concat. exists (observers (cellAt sh a)). split; [now apply in_map | assumption].
  - rewrite Hc in Hr. contradiction.
Qed.

Lemma asRef_nil : Util.asRef (Util.Label []) = None.
Proof. reflexivity. Qed.

Lemma wfObservers_edgeSim (t : jsstring) (this : nat) (sh sh' : Sheet) :
  wfObservers sh -> edgeSim t sh sh' ->
  (this < length (objs sh))%nat -> ref (cellAt sh this) = t ->
  Util.asRef (Util.Label t) = Some t -> lookupCell t (cells sh) = Some this ->
  wfObservers sh'.
Proof.
  intros Hwf (L & F & O & I & K & N) Hthis Href Ht Hlook a r Hr.
  apply I in Hr. destruct Hr as [<- | Hr].
  - split; [assumption|]. exists this. split; [now apply K|].
    destruct (F this Hthis) as (-> & _). assumption.
  - destruct (Hwf a r Hr) as (Hk & b & Hb & Hrb). split; [assumption|].
    exists b. split; [now apply K|].
    destruct (Nat.lt_ge_cases b (length (objs sh))) as [Lb | Lb].
    + destruct (F b Lb) as (-> & _). assumption.
    + rewrite cellAt_overflow in Hrb by assumption. simpl in Hrb. subst r.
      rewrite asRef_nil in Hk. discriminate.
Qed.



Lemma wfObserversb_sound (sh : Sheet) : wfObserversb sh = true -> wfObservers sh.
Proof.
  unfold wfObserversb. rewrite forallb_forall. intros H a r Hr.
  destruct (cellAt_cases sh a) as [Hc | Hc].
  - specialize (H _ Hc). rewrite forallb_forall in H. specialize (H r Hr).
    destruct (Util.asRef (Util.Label r)) as [k|]; [|discriminate].
    destruct (lookupCell r (cells sh)) as [b|]; [|discriminate].
    apply andb_true_iff in H as [H1 H2]. apply streqb_eq in H1, H2. subst k.
    split; [reflexivity|]. now exists b.
  - rewrite Hc in Hr. contradiction.
Qed.

Lemma descendantObservers_alone (fuel : nat) (this : nat) (sh : Sheet) :
  observers (cellAt sh this) = [] ->
  descendantObservers (S fuel) this [] sh = Ok (([ref (cellAt sh this)], []), sh).
Proof.
  intros H. cbn [descendantObservers].
  rewrite (bind_ok _ _ _ _ _ (getCell_run this sh)). rewrite H. reflexivity.
Qed.


(** ** An evaluation returns *)

Lemma evaluatedFrom_refl (sh : Sheet) : evaluatedFrom sh sh.
Proof. repeat split; auto. Qed.

Lemma evaluatedFrom_trans (sh1 sh2 sh3 : Sheet) :
  evaluatedFrom sh1 sh2 -> evaluatedFrom sh2 sh3 -> evaluatedFrom sh1 sh3.
Proof.
  intros (L1 & C1 & F1) (L2 & C2 & F2). split; [congruence|]. split; [congruence|].
  intros a. destruct (F1 a) as (A1 & A2 & A3 & A4 & A5).
  destruct (F2 a) as (B1 & B2 & B3 & B4 & B5). repeat split; try congruence. auto.
Qed.

Lemma evaluatedFrom_resolves (sh sh' : Sheet) (r : jsstring) :
  evaluatedFrom sh sh' -> resolves sh r -> resolves sh' r.
Proof.
  intros (L & C & _) (k & a & Hk & Ha & La). exists k, a. rewrite C, L. auto.
Qed.

Lemma evaluatedFrom_closed (sh sh' : Sheet) :
  evaluatedFrom sh sh' -> closedSheet sh -> closedSheet sh'.
Proof.
  intros E Hc a r Hr. apply (evaluatedFrom_resolves sh sh' r E).
  destruct E as (_ & _ & F). destruct (F a) as (_ & _ & Hs & Ho & _).
  rewrite Hs, Ho in Hr. now apply (Hc a).
Qed.

Lemma evaluatedFrom_withCell (sh : Sheet) (a : nat) (f : Cell -> Cell) :
  keepsContent f -> evaluatedFrom sh (withCell sh a f).
Proof.
  intros Hf. split; [apply withCell_length|]. split; [reflexivity|].
  intros b. destruct (Nat.lt_ge_cases a (length (objs sh))) as [La | La].
  - destruct (Nat.eq_dec a b) as [<- | N].
    + rewrite withCell_cellAt_eq by assumption. apply Hf.
    + rewrite withCell_cellAt_neq by assumption. repeat split; auto.
  - rewrite withCell_overflow by assumption. repeat split; auto.
Qed.

Lemma count_monotone (l l' : list Cell) :
  length l' = length l ->
  (forall a, evaluated (nth a l (blankCell [])) = true ->
             evaluated (nth a l' (blankCell [])) = true) ->
  (length (filter (fun c => negb (evaluated c)) l')
   <= length (filter (fun c => negb (evaluated c)) l))%nat.
Proof.
  revert l'. induction l as [|c l IH]; intros [|c' l'] L H; simpl in L; try discriminate.
  - simpl. lia.
  - assert (IHl := IH l' ltac:(lia) (fun a => H (S a))).
    assert (H0 := H 0%nat). simpl in H0. simpl.
    destruct (evaluated c); simpl.
    + rewrite H0 by reflexivity. simpl. exact IHl.
    + destruct (evaluated c'); simpl; lia.
Qed.

Lemma evaluatedFrom_unevaluated (sh sh' : Sheet) :
  evaluatedFrom sh sh' -> (unevaluated sh' <= unevaluated sh)%nat.
Proof.
  intros (L & _ & F). apply count_monotone; [assumption|]. intros a. apply F.
Qed.

Lemma count_flip (l : list Cell) (a : nat) (f : Cell -> Cell) :
  (a < length l)%nat -> evaluated (nth a l (blankCell [])) = false ->
  evaluated (f (nth a l (blankCell []))) = true ->
  S (length (filter (fun c => negb (evaluated c)) (updateNth a f l)))
  = length (filter (fun c => negb (evaluated c)) l).
Proof.
  revert a. induction l as [|c l IH]; intros a La H1 H2; simpl in La; [lia|].
  destruct a as [|a]; simpl in *.
  - rewrite H1, H2. reflexivity.
  - destruct (evaluated c); simpl; [apply IH | f_equal; apply IH]; auto; lia.
Qed.

Lemma unevaluated_flip (sh : Sheet) (a : nat) (f : Cell -> Cell) :
  (a < length (objs sh))%nat -> evaluated (cellAt sh a) = false ->
  evaluated (f (cellAt sh a)) = true ->
  S (unevaluated (withCell sh a f)) = unevaluated sh.
Proof. intros. now apply count_flip. Qed.

Lemma findCell_resolves (sh : Sheet) (r : jsstring) :
  resolves sh r ->
  exists a, findCell (Util.Label r) sh = Ok (Some a, sh) /\ (a < length (objs sh))%nat.
Proof.
  intros (k & a & Hk & Ha & La). exists a. split; [|assumption].
  rewrite (findCell_run r k sh Hk). now rewrite Ha.
Qed.

Lemma bind_throw {A B} (m : M A) (k : A -> M B) (sh : Sheet) (e : Error) :
  m sh = Throw e -> bind m k sh = Throw e.
Proof. unfold bind. now intros ->. Qed.

(** The values of the subjects of a formula: the loop returns them or
    throws [InvalidRefInFormula]; it leaves the sheet as it is. *)
Lemma parse_subjects (sh : Sheet) (l : list jsstring) :
  (forall r, In r l -> resolves sh r) ->
  forall acc,
    (exists res, reduce l subjectValue acc sh = Ok (res, sh))
    \/ (exists m, reduce l subjectValue acc sh = Throw (InvalidRefInFormula m)).
Proof.
  induction l as [|r l IH]; intros Hl acc.
  - left. now exists acc.
  - destruct (findCell_resolves sh r (Hl r (or_introl eq_refl))) as (a & Ea & _).
    cbn [reduce].
    assert (Hstep : subjectValue acc r sh
                    = if invalid (cellAt sh a)
                      then Throw (InvalidRefInFormula (str "Invalid ref [" ++ r ++ str "]"))
                      else Ok (acc ++ [(r, toString (_valueForFormulaCalculation
                                                       (cellAt sh a) (VNum 0)))], sh)).
    { unfold subjectValue. rewrite (bind_ok _ _ _ _ _ Ea). cbn [defined].
      rewrite (bind_ok _ _ sh sh a) by reflexivity.
      rewrite (bind_ok _ _ _ _ _ (getCell_run a sh)).
      now destruct (invalid (cellAt sh a)). }
    destruct (invalid (cellAt sh a)).
    + right. eexists. apply bind_throw. exact Hstep.
    + rewrite (bind_ok _ _ _ _ _ Hstep). apply IH. intros x Hx. apply Hl. now right.
Qed.

Lemma parseFormula_total (sh : Sheet) (this : nat) :
  isFormula (value (cellAt sh this)) = true ->
  (forall r, In r (subjects (cellAt sh this)) -> resolves sh r) ->
  exists x, catchInvalidRef (_parseFormula this) sh = Ok (x, sh).
Proof.
  intros Hf Hs. unfold catchInvalidRef, _parseFormula.
  rewrite (bind_ok _ _ _ _ _ (getCell_run this sh)).
  change (reduce (subjects (cellAt sh this)) _ [])
    with (reduce (subjects (cellAt sh this)) subjectValue []).
  destruct (parse_subjects sh (subjects (cellAt sh this)) Hs []) as [[res E] | [m E]].
  - rewrite (bind_ok _ _ _ _ _ E).
    destruct (value (cellAt sh this)) as [| |n|text]; try discriminate Hf.
    cbn [asText]. rewrite (bind_ok _ _ sh sh text) by reflexivity.
    destruct (Util.expandRanges text) as [expanded|] eqn:Ee.
    + cbn [defined]. rewrite (bind_ok _ _ sh sh expanded) by reflexivity.
      eexists. reflexivity.
    + now apply expandRanges_total in Ee.
  - rewrite (bind_throw _ _ _ _ E). eexists. reflexivity.
Qed.

Lemma commonCells_total (sh : Sheet) (l : list jsstring) :
  (forall r, In r l -> resolves sh r) ->
  forall acc, exists res, reduce l notEvaluated acc sh = Ok (res, sh).
Proof.
  induction l as [|r l IH]; intros Hl acc.
  - now exists acc.
  - destruct (findCell_resolves sh r (Hl r (or_introl eq_refl))) as (a & Ea & _).
    cbn [reduce].
    assert (Hstep : notEvaluated acc r sh
                    = Ok (if negb (evaluated (cellAt sh a)) then acc ++ [r] else acc, sh)).
    { unfold notEvaluated. rewrite (bind_ok _ _ _ _ _ Ea). cbn [defined].
      rewrite (bind_ok _ _ sh sh a) by reflexivity.
      now rewrite (bind_ok _ _ _ _ _ (getCell_run a sh)). }
    rewrite (bind_ok _ _ _ _ _ Hstep). apply IH. intros x Hx. apply Hl. now right.
Qed.

Lemma keepsContent_compose (f g : Cell -> Cell) :
  keepsContent f -> keepsContent g -> keepsContent (fun c => g (f c)).
Proof.
  intros Hf Hg c. destruct (Hf c) as (A1 & A2 & A3 & A4 & A5).
  destruct (Hg (f c)) as (B1 & B2 & B3 & B4 & B5).
  repeat split; try congruence. auto.
Qed.

Lemma keepsContent_fields (f : Cell -> Cell) :
  (forall c, ref (f c) = ref c) -> (forall c, value (f c) = value c) ->
  (forall c, subjects (f c) = subjects c) -> (forall c, observers (f c) = observers c) ->
  (forall c, evaluated c = true -> evaluated (f c) = true) ->
  keepsContent f.
Proof. intros H1 H2 H3 H4 H5 c. repeat split; auto. Qed.

Lemma evaluatedFrom_logged (sh : Sheet) (r : jsstring) : evaluatedFrom sh (logged sh r).
Proof. repeat split; auto. Qed.

Section EvaluationReturns.

Variable eval : jsstring -> option Value.

(** The value of the cell is computed and stored: the step of
    [_evaluateValue] between the flags and the notification. *)
Lemma computeValue_total (sh : Sheet) (this : nat) (v0 : Value) :
  (forall r, In r (subjects (cellAt sh this)) -> resolves sh r) ->
  value (cellAt sh this) = v0 ->
  exists g,
    keepsContent g
    /\ (if isFormula v0 then
          r <- catchInvalidRef (_parseFormula this) ;;
          match r with
          | inl message =>
              modifyCell this (set_evaluatedValue VNull) ;;
              modifyCell this (set_invalid true) ;;
              modifyCell this (set_errorMessage (VStr message))
          | inr parsedFormula =>
              match parsedFormula with
              | None => modifyCell this (set_evaluatedValue VUndefined)
              | Some text =>
                  match eval text with
                  | Some v => modifyCell this (set_evaluatedValue v)
                  | None =>
                      modifyCell this (set_evaluatedValue VNull) ;;
                      modifyCell this (set_invalid true) ;;
                      modifyCell this (set_errorMessage (VStr (str "Invalid formula")))
                  end
              end
          end
        else modifyCell this (set_evaluatedValue v0)) sh
       = Ok (tt, withCell sh this g).
Proof.
  intros Hs Hv. destruct (isFormula v0) eqn:Hf.
  - destruct (parseFormula_total sh this) as (x & Ex); [now rewrite Hv | assumption|].
    rewrite (bind_ok _ _ _ _ _ Ex).
    destruct x as [message | [text|]].
    + exists (fun c => set_errorMessage (VStr message)
                         (set_invalid true (set_evaluatedValue VNull c))).
      split; [now apply keepsContent_fields|].
      rewrite (bind_ok _ _ _ _ _ (modifyCell_run _ _ _)).
      rewrite (bind_ok _ _ _ _ _ (modifyCell_run _ _ _)).
      rewrite modifyCell_run. now rewrite !withCell_withCell.
    + destruct (eval text) as [v|].
      * exists (set_evaluatedValue v). split; [now apply keepsContent_fields|].
        apply modifyCell_run.
      * exists (fun c => set_errorMessage (VStr (str "Invalid formula"))
                           (set_invalid true (set_evaluatedValue VNull c))).
        split; [now apply keepsContent_fields|].
        rewrite (bind_ok _ _ _ _ _ (modifyCell_run _ _ _)).
        rewrite (bind_ok _ _ _ _ _ (modifyCell_run _ _ _)).
        rewrite modifyCell_run. now rewrite !withCell_withCell.
    + exists (set_evaluatedValue VUndefined). split; [now apply keepsContent_fields|].
      apply modifyCell_run.
  - exists (set_evaluatedValue v0). split; [now apply keepsContent_fields|].
    apply modifyCell_run.
Qed.

(** A cell not evaluated yet is evaluated: its flag is set and its value
    computed; the evaluation ends there when the value is the one the cell
    had, and goes on with the observers otherwise. *)
Lemma evaluateValue_head (fuel : nat) (sh : Sheet) (this : nat) (F : list jsstring) :
  (this < length (objs sh))%nat -> evaluated (cellAt sh this) = false ->
  (forall r, In r (subjects (cellAt sh this)) -> resolves sh r) ->
  exists sh1,
    evaluatedFrom sh sh1 /\ (S (unevaluated sh1) <= unevaluated sh)%nat
    /\ (_evaluateValue eval (S fuel) this F sh = Ok (tt, sh1)
        \/ _evaluateValue eval (S fuel) this F sh
           = forEach (observers (cellAt sh this)) (notifyObserver eval fuel F) sh1).
Proof.
  intros Hthis Hev Hs.
  remember (_evaluateValue eval (S fuel) this F sh) as run eqn:Hrun.
  cbn [_evaluateValue] in Hrun.
  rewrite (bind_ok _ _ _ _ _ (getCell_run this sh)) in Hrun. rewrite Hev in Hrun.
  rewrite (bind_ok _ _ _ _ _ (modifyCell_run _ _ _)) in Hrun.
  rewrite (bind_ok _ _ _ _ _ (modifyCell_run _ _ _)) in Hrun.
  rewrite (bind_ok _ _ _ _ _ (modifyCell_run _ _ _)) in Hrun.
  rewrite !withCell_withCell in Hrun.
  set (g0 := fun x : Cell => set_errorMessage VNull (set_invalid false (set_evaluated true x)))
    in *.
  set (sha := withCell sh this g0) in *.
  assert (Ka : keepsContent g0) by now apply keepsContent_fields.
  assert (Ea : evaluatedFrom sh sha) by now apply evaluatedFrom_withCell.
  assert (Ua : S (unevaluated sha) = unevaluated sh).
  { apply unevaluated_flip; auto. }
  destruct (computeValue_total sha this (value (cellAt sh this))) as (g1 & K1 & E1).
  { intros r Hr. apply (evaluatedFrom_resolves sh sha r Ea). apply Hs.
    unfold sha in Hr. now rewrite withCell_cellAt_eq in Hr. }
  { unfold sha. now rewrite withCell_cellAt_eq. }
  rewrite (bind_ok _ _ _ _ _ E1) in Hrun.
  set (shb := withCell sha this g1) in *.
  assert (Eb : evaluatedFrom sha shb) by now apply evaluatedFrom_withCell.
  unfold logEvaluation at 1 in Hrun.
  rewrite (bind_ok _ _ shb (logged shb (ref (cellAt sh this))) tt) in Hrun by reflexivity.
  set (shc := logged shb (ref (cellAt sh this))) in *.
  assert (Ec : evaluatedFrom shb shc) by apply evaluatedFrom_logged.
  rewrite (bind_ok _ _ _ _ _ (getCell_run this shc)) in Hrun.
  assert (Eac : evaluatedFrom sha shc) by (eapply evaluatedFrom_trans; eassumption).
  assert (Esc : evaluatedFrom sh shc) by (eapply evaluatedFrom_trans; eassumption).
  assert (Hobs : observers (cellAt shc this) = observers (cellAt sh this)).
  { destruct Esc as (_ & _ & Fc). apply (Fc this). }
  rewrite Hobs in Hrun.
  destruct (negb (value_eqb (evaluatedValue (cellAt shc this))
                            (evaluatedValue (cellAt sh this)))).
  2:{ exists shc. split; [assumption|]. split; [|now left].
      assert (U := evaluatedFrom_unevaluated sha shc Eac). lia. }
  rewrite (bind_ok _ _ _ _ _ (modifyCell_run _ _ _)) in Hrun.
  set (shd := withCell shc this (set_modified true)) in *.
  assert (Ed : evaluatedFrom shc shd).
  { apply evaluatedFrom_withCell. now apply keepsContent_fields. }
  assert (Ead : evaluatedFrom sha shd) by (eapply evaluatedFrom_trans; eassumption).
  exists shd. split; [eapply evaluatedFrom_trans; eassumption|]. split.
  - assert (U := evaluatedFrom_unevaluated sha shd Ead). lia.
  - right. exact Hrun.
Qed.

(** The evaluation of a cell and the propagation to its observers
    return: every cell is evaluated at most once, so the depth of the
    propagation is bounded by the number of cells not evaluated yet. *)
Lemma evaluateValue_total (fuel : nat) :
  forall sh this F,
    closedSheet sh -> (this < length (objs sh))%nat ->
    (unevaluated sh < fuel)%nat ->
    exists sh', _evaluateValue eval fuel this F sh = Ok (tt, sh') /\ evaluatedFrom sh sh'.
Proof.
  induction fuel as [|fuel IH]; intros sh this F Hc Hthis Hfuel; [lia|].
  destruct (evaluated (cellAt sh this)) eqn:Hev.
  { exists sh. split; [|apply evaluatedFrom_refl].
    cbn [_evaluateValue]. rewrite (bind_ok _ _ _ _ _ (getCell_run this sh)).
    now rewrite Hev. }
  destruct (evaluateValue_head fuel sh this F Hthis Hev) as (shd & Esd & Ud & [E | E]).
  { intros r Hr. apply (Hc this). now left. }
  { exists shd. now split. }
  rewrite E.
  assert (Cd : closedSheet shd) by now apply (evaluatedFrom_closed sh).
  assert (Hobs : forall r, In r (observers (cellAt sh this)) -> resolves shd r).
  { intros r Hr. apply (evaluatedFrom_resolves sh shd r Esd). apply (Hc this). now right. }
  assert (Hd : (unevaluated shd < fuel)%nat) by lia.
  revert Hobs. generalize (observers (cellAt sh this)) as l.
  clear - IH Hd Cd Esd.
  intros l. revert shd Hd Cd Esd.
  induction l as [|r l IHl]; intros shd Hd Cd Esd Hobs.
  - exists shd. split; [reflexivity | assumption].
  - cbn [forEach].
    destruct (findCell_resolves shd r (Hobs r (or_introl eq_refl))) as (observer & Eo & Lo).
    assert (Hcommon : forall x,
               In x (setIntersect (subjects (cellAt shd observer)) F) -> resolves shd x).
    { intros x Hx. apply setIntersect_In in Hx as [Hx _]. apply (Cd observer). now left. }
    destruct (commonCells_total shd _ Hcommon []) as (res & Er).
    assert (Hstep : exists sh1,
               notifyObserver eval fuel F r shd = Ok (tt, sh1) /\ evaluatedFrom shd sh1).
    { unfold notifyObserver. rewrite (bind_ok _ _ _ _ _ Eo). cbn [defined].
      rewrite (bind_ok _ _ shd shd observer) by reflexivity.
      rewrite (bind_ok _ _ _ _ _ (getCell_run observer shd)). cbn zeta.
      rewrite (bind_ok _ _ _ _ _ Er).
      destruct (0 <? Z.of_nat (length res)).
      - exists shd. split; [reflexivity | apply evaluatedFrom_refl].
      - now apply IH. }
    destruct Hstep as (sh1 & E1 & S1).
    rewrite (bind_ok _ _ _ _ _ E1).
    apply IHl.
    + assert (U1 := evaluatedFrom_unevaluated shd sh1 S1). lia.
    + now apply (evaluatedFrom_closed shd).
    + eapply evaluatedFrom_trans; eassumption.
    + intros x Hx. apply (evaluatedFrom_resolves shd sh1 x S1). apply Hobs. now right.
Qed.

(** A cell that nothing observes: the evaluation needs its subjects
    only. *)
Lemma evaluateValue_alone (fuel : nat) (sh : Sheet) (this : nat) (F : list jsstring) :
  (this < length (objs sh))%nat ->
  (forall r, In r (subjects (cellAt sh this)) -> resolves sh r) ->
  observers (cellAt sh this) = [] ->
  exists sh', _evaluateValue eval (S fuel) this F sh = Ok (tt, sh') /\ evaluatedFrom sh sh'.
Proof.
  intros Hthis Hs Ho. destruct (evaluated (cellAt sh this)) eqn:Hev.
  { exists sh. split; [|apply evaluatedFrom_refl].
    cbn [_evaluateValue]. rewrite (bind_ok _ _ _ _ _ (getCell_run this sh)).
    now rewrite Hev. }
  destruct (evaluateValue_head fuel sh this F Hthis Hev Hs) as (shd & Esd & _ & [E | E]).
  - exists shd. now split.
  - exists shd. split; [|assumption]. rewrite E, Ho. reflexivity.
Qed.

End EvaluationReturns.

(** ** Well-formed sheets *)

Lemma wfSheet_wfSubjects (sh : Sheet) : wfSheet sh -> wfSubjects sh.
Proof.
  intros (_ & Hs & _) a r Hr. destruct (Hs a r Hr) as (k & b & Hk & _).
  unfold validLabel. congruence.
Qed.

Lemma wfSheet_closed (sh : Sheet) : wfSheet sh -> closedSheet sh.
Proof.
  intros (Hc & Hs & Ho) a r [Hr | Hr]; [now apply (Hs a)|].
  destruct (Ho a r Hr) as (Hk & b & Hb & _). exists r, b.
  split; [assumption|]. split; [assumption|]. now apply (Hc r b).
Qed.

Lemma observersOnly_refl (sh : Sheet) : observersOnly sh sh.
Proof. repeat split; auto. intros a. now destruct (cellAt sh a). Qed.

Lemma observersOnly_fields (sh sh' : Sheet) (a : nat) :
  observersOnly sh sh' ->
  ref (cellAt sh' a) = ref (cellAt sh a) /\ value (cellAt sh' a) = value (cellAt sh a)
  /\ subjects (cellAt sh' a) = subjects (cellAt sh a)
  /\ evaluated (cellAt sh' a) = evaluated (cellAt sh a)
  /\ evaluatedValue (cellAt sh' a) = evaluatedValue (cellAt sh a).
Proof.
  intros (_ & _ & _ & H). specialize (H a). rewrite <- H. now destruct (cellAt sh' a).
Qed.

Lemma observersOnly_trans (sh1 sh2 sh3 : Sheet) :
  observersOnly sh1 sh2 -> observersOnly sh2 sh3 -> observersOnly sh1 sh3.
Proof.
  intros (L1 & C1 & V1 & F1) (L2 & C2 & V2 & F2).
  split; [congruence|]. split; [congruence|]. split; [congruence|].
  intros a. rewrite <- (F1 a), <- (F2 a). now destruct (cellAt sh3 a).
Qed.

Lemma observersOnly_withCell (sh : Sheet) (a : nat) (f : Cell -> Cell) :
  (forall c, set_observers (observers c) (f c) = c) -> observersOnly sh (withCell sh a f).
Proof.
  intros Hf. split; [apply withCell_length|]. split; [reflexivity|]. split; [reflexivity|].
  intros b. destruct (Nat.lt_ge_cases a (length (objs sh))) as [La | La].
  - destruct (Nat.eq_dec a b) as [<- | N].
    + rewrite withCell_cellAt_eq by assumption. apply Hf.
    + rewrite withCell_cellAt_neq by assumption. now destruct (cellAt sh b).
  - rewrite withCell_overflow by assumption. now destruct (cellAt sh b).
Qed.

Lemma observersOnly_resolves (sh sh' : Sheet) (r : jsstring) :
  observersOnly sh sh' -> resolves sh r -> resolves sh' r.
Proof.
  intros (L & C & _) (k & a & Hk & Ha & La). exists k, a. rewrite C, L. auto.
Qed.

Lemma findOrCreateCell_resolves (sh : Sheet) (r : jsstring) :
  resolves sh r ->
  exists a, findOrCreateCell (Util.Label r) sh = Ok (a, sh) /\ (a < length (objs sh))%nat.
Proof.
  intros (k & a & Hk & Ha & La). exists a. split; [|assumption].
  now apply (findOrCreateCell_found r k).
Qed.

(** The loops over the subjects added and removed, when these name stored
    cells: no cell is created, and observer sets only change. *)
Lemma edgeLoop_resolved (f : Cell -> Cell) (l : list jsstring) :
  (forall c, set_observers (observers c) (f c) = c) ->
  forall sh,
    (forall r, In r l -> resolves sh r) ->
    exists sh',
      forEach l (fun r => a <- findOrCreateCell (Util.Label r) ;; modifyCell a f) sh
      = Ok (tt, sh')
      /\ observersOnly sh sh'.
Proof.
  intros Hf. induction l as [|r l IH]; intros sh Hl.
  - exists sh. split; [reflexivity | apply observersOnly_refl].
  - destruct (findOrCreateCell_resolves sh r (Hl r (or_introl eq_refl))) as (a & Ea & La).
    assert (O1 : observersOnly sh (withCell sh a f)) by now apply observersOnly_withCell.
    destruct (IH (withCell sh a f)) as (sh' & E & O).
    { intros x Hx. apply (observersOnly_resolves sh _ x O1). apply Hl. now right. }
    exists sh'. split; [|eapply observersOnly_trans; eassumption].
    cbn [forEach]. erewrite bind_ok; [exact E|].
    rewrite (bind_ok _ _ _ _ _ Ea). apply modifyCell_run.
Qed.

Lemma registerIn_observersOnly (t : jsstring) (c : Cell) :
  set_observers (observers c) (registerIn t c) = c.
Proof. now destruct c. Qed.

Lemma unregisterFrom_observersOnly (t : jsstring) (c : Cell) :
  set_observers (observers c) (unregisterFrom t c) = c.
Proof. now destruct c. Qed.

Lemma wfCells_range (sh : Sheet) (k : jsstring) (a : nat) :
  wfCells sh -> lookupCell k (cells sh) = Some a -> (a < length (objs sh))%nat.
Proof. intros H Hk. now apply (H k a). Qed.

(** The cycle check keeps the map well formed, and the labels it visited
    name stored cells. *)
Lemma visitPost_wfCells (t : jsstring) (b : bool) (V' : list jsstring) (sh sh' : Sheet) :
  visitPost t [] b V' sh sh' -> wfCells sh -> wfCells sh'.
Proof.
  intros (G & _ & _ & N & _) Hc k a Hk.
  assert (L := grown_length sh sh' G).
  destruct (lookupCell k (cells sh)) as [a0|] eqn:E0.
  - assert (a0 = a) by (apply (grown_lookup sh sh' k a0 G) in E0; congruence). subst a0.
    destruct (Hc k a E0) as (La & Hr & Hk'). split; [lia|]. split; [|assumption].
    now rewrite (grown_cellAt sh sh' a G La).
  - destruct (N k a Hk E0) as (Hb & La & r & _ & _ & Hr). split; [assumption|].
    split; [now rewrite Hb | now apply (asRef_idem r)].
Qed.

Lemma visitPost_resolves (t : jsstring) (b : bool) (V' : list jsstring) (sh sh' : Sheet)
  (r : jsstring) :
  visitPost t [] b V' sh sh' -> wfCells sh -> In r V' -> resolves sh' r.
Proof.
  intros P Hc Hr. assert (Hc' := visitPost_wfCells t b V' sh sh' P Hc).
  destruct P as (_ & _ & R & _). destruct (R r Hr) as (k & a & Hk & Ha); [intros []|].
  exists k, a. split; [assumption|]. split; [assumption|]. now apply (Hc' k a).
Qed.

Lemma grown_resolves (sh sh' : Sheet) (r : jsstring) :
  grown sh sh' -> resolves sh r -> resolves sh' r.
Proof.
  intros G (k & a & Hk & Ha & La). exists k, a. split; [assumption|].
  split; [now apply (grown_lookup sh sh' k a G)|].
  assert (L := grown_length sh sh' G). lia.
Qed.

Lemma grown_subjects_resolve (sh sh' : Sheet) :
  grown sh sh' ->
  (forall a r, In r (subjects (cellAt sh a)) -> resolves sh r) ->
  forall a r, In r (subjects (cellAt sh' a)) -> resolves sh' r.
Proof.
  intros G H a r Hr. apply (grown_resolves sh sh' r G).
  destruct (Nat.lt_ge_cases a (length (objs sh))) as [La | La].
  - rewrite (grown_cellAt sh sh' a G La) in Hr. now apply (H a).
  - rewrite (isBlank_subjects _ (grown_cellAt_new sh sh' a G La)) in Hr. contradiction.
Qed.

Lemma grown_wfObservers (sh sh' : Sheet) :
  grown sh sh' -> wfCells sh -> wfObservers sh -> wfObservers sh'.
Proof.
  intros G Hc Ho a r Hr.
  assert (Hr0 : In r (observers (cellAt sh a))).
  { destruct (Nat.lt_ge_cases a (length (objs sh))) as [La | La].
    - now rewrite (grown_cellAt sh sh' a G La) in Hr.
    - rewrite (isBlank_observers _ (grown_cellAt_new sh sh' a G La)) in Hr. contradiction. }
  destruct (Ho a r Hr0) as (Hk & b & Hb & Hrb). split; [assumption|].
  exists b. split; [now apply (grown_lookup sh sh' r b G)|].
  rewrite (grown_cellAt sh sh' b G); [assumption | now apply (Hc r b)].
Qed.

Lemma visitPost_wfSheet (t : jsstring) (b : bool) (V' : list jsstring) (sh sh' : Sheet) :
  visitPost t [] b V' sh sh' -> wfSheet sh -> wfSheet sh'.
Proof.
  intros P (Hc & Hs & Ho). assert (G : grown sh sh') by apply P.
  split; [now apply (visitPost_wfCells t b V' sh)|].
  split; [now apply (grown_subjects_resolve sh) | now apply (grown_wfObservers sh)].
Qed.

(** An update of one cell that keeps its label and its edges keeps the
    sheet well formed. *)
Lemma wfSheet_withCell (sh : Sheet) (a : nat) (f : Cell -> Cell) :
  (forall c, ref (f c) = ref c) -> (forall c, subjects (f c) = subjects c) ->
  (forall c, observers (f c) = observers c) ->
  wfSheet sh -> wfSheet (withCell sh a f).
Proof.
  intros H1 H2 H3 (Hc & Hs & Ho).
  assert (Hcell : forall b, ref (cellAt (withCell sh a f) b) = ref (cellAt sh b)
                            /\ subjects (cellAt (withCell sh a f) b) = subjects (cellAt sh b)
                            /\ observers (cellAt (withCell sh a f) b) = observers (cellAt sh b)).
  { intros b. destruct (Nat.lt_ge_cases a (length (objs sh))) as [La | La].
    - destruct (Nat.eq_dec a b) as [<- | N].
      + rewrite withCell_cellAt_eq by assumption. auto.
      + rewrite withCell_cellAt_neq by assumption. auto.
    - rewrite withCell_overflow by assumption. auto. }
  split; [|split].
  - intros k b Hk. destruct (Hc k b Hk) as (Lb & Hr & Hk'). rewrite withCell_length.
    destruct (Hcell b) as (-> & _). auto.
  - intros b r Hr. destruct (Hcell b) as (_ & E & _). rewrite E in Hr.
    destruct (Hs b r Hr) as (k & x & Hk & Hx & Lx). exists k, x.
    rewrite withCell_length. auto.
  - intros b r Hr. destruct (Hcell b) as (_ & _ & E). rewrite E in Hr.
    destruct (Ho b r Hr) as (Hk & x & Hx & Hrx). split; [assumption|].
    exists x. split; [assumption|]. destruct (Hcell x) as (-> & _). assumption.
Qed.

Lemma evaluatedFrom_wfSheet (sh sh' : Sheet) :
  evaluatedFrom sh sh' -> wfSheet sh -> wfSheet sh'.
Proof.
  intros (L & C & F) (Hc & Hs & Ho). split; [|split].
  - intros k a Hk. rewrite C in Hk. destruct (Hc k a Hk) as (La & Hr & Hk').
    destruct (F a) as (-> & _). rewrite L. auto.
  - intros a r Hr. destruct (F a) as (_ & _ & E & _). rewrite E in Hr.
    destruct (Hs a r Hr) as (k & x & Hk & Hx & Lx). exists k, x. rewrite C, L. auto.
  - intros a r Hr. destruct (F a) as (_ & _ & _ & E & _). rewrite E in Hr.
    destruct (Ho a r Hr) as (Hk & x & Hx & Hrx). split; [assumption|].
    exists x. rewrite C. split; [assumption|]. destruct (F x) as (-> & _). assumption.
Qed.

Lemma unevaluated_le (sh : Sheet) : (unevaluated sh <= length (objs sh))%nat.
Proof. apply filter_length_le. Qed.

Lemma sameContent_refl (sh : Sheet) : sameContent sh sh.
Proof. repeat split; auto. Qed.

Lemma sameContent_trans (sh1 sh2 sh3 : Sheet) :
  sameContent sh1 sh2 -> sameContent sh2 sh3 -> sameContent sh1 sh3.
Proof.
  intros (L1 & C1 & F1) (L2 & C2 & F2). split; [congruence|]. split; [congruence|].
  intros a. destruct (F1 a) as (A1 & A2 & A3 & A4).
  destruct (F2 a) as (B1 & B2 & B3 & B4). repeat split; congruence.
Qed.

Lemma sameContent_withCell (sh : Sheet) (a : nat) (f : Cell -> Cell) :
  (forall c, ref (f c) = ref c) -> (forall c, value (f c) = value c) ->
  (forall c, subjects (f c) = subjects c) -> (forall c, observers (f c) = observers c) ->
  sameContent sh (withCell sh a f).
Proof.
  intros H1 H2 H3 H4. split; [apply withCell_length|]. split; [reflexivity|].
  intros b. destruct (Nat.lt_ge_cases a (length (objs sh))) as [La | La].
  - destruct (Nat.eq_dec a b) as [<- | N].
    + rewrite withCell_cellAt_eq by assumption. auto.
    + rewrite withCell_cellAt_neq by assumption. auto.
  - rewrite withCell_overflow by assumption. auto.
Qed.

Lemma sameContent_wfSheet (sh sh' : Sheet) :
  sameContent sh sh' -> wfSheet sh -> wfSheet sh'.
Proof.
  intros (L & C & F) (Hc & Hs & Ho). split; [|split].
  - intros k a Hk. rewrite C in Hk. destruct (Hc k a Hk) as (La & Hr & Hk').
    destruct (F a) as (-> & _). rewrite L. auto.
  - intros a r Hr. destruct (F a) as (_ & _ & E & _). rewrite E in Hr.
    destruct (Hs a r Hr) as (k & x & Hk & Hx & Lx). exists k, x. rewrite C, L. auto.
  - intros a r Hr. destruct (F a) as (_ & _ & _ & E). rewrite E in Hr.
    destruct (Ho a r Hr) as (Hk & x & Hx & Hrx). split; [assumption|].
    exists x. rewrite C. split; [assumption|]. destruct (F x) as (-> & _). assumption.
Qed.

Lemma sameContent_map {A} (g : Cell -> A) (sh sh' : Sheet) :
  length (objs sh') = length (objs sh) ->
  (forall a, g (cellAt sh' a) = g (cellAt sh a)) ->
  map g (objs sh') = map g (objs sh).
Proof.
  intros L H. apply (nth_ext _ _ (g (blankCell [])) (g (blankCell []))).
  - now rewrite !length_map.
  - intros n _. rewrite !map_nth. apply H.
Qed.

Lemma sameContent_cost (sh sh' : Sheet) (v : Value) :
  sameContent sh sh' -> writeCost sh' v = writeCost sh v.
Proof.
  intros (L & _ & F). unfold writeCost, allSubjects, allObservers.
  rewrite (sameContent_map subjects sh sh' L) by (intros a; apply F).
  rewrite (sameContent_map observers sh sh' L) by (intros a; apply F).
  now rewrite L.
Qed.

Lemma flags_reset (l : list (jsstring * nat)) (sh : Sheet) :
  exists sh',
    forEach l (fun '(_, a) => modifyCell a (set_evaluated false)) sh = Ok (tt, sh')
    /\ sameContent sh sh'.
Proof.
  revert sh. induction l as [|[k a] l IH]; intros sh.
  - exists sh. split; [reflexivity | apply sameContent_refl].
  - destruct (IH (withCell sh a (set_evaluated false))) as (sh' & E & S).
    exists sh'. split.
    + cbn [forEach]. now rewrite (bind_ok _ _ _ _ _ (modifyCell_run a _ sh)).
    + apply (sameContent_trans _ (withCell sh a (set_evaluated false))); [|assumption].
      now apply sameContent_withCell.
Qed.

(** Clearing the flags returns and keeps the content and the edges. *)
Lemma resetEvaluated_total (sh : Sheet) :
  exists sh', resetEvaluated sh = Ok (tt, sh') /\ sameContent sh sh'.
Proof.
  destruct (flags_reset (cells sh) sh) as (sh' & E & S). exists sh'. split; [|assumption].
  unfold resetEvaluated. now rewrite (bind_ok _ _ sh sh (cells sh)) by reflexivity.
Qed.

Lemma lookupCell_In (k : jsstring) (a : nat) (l : list (jsstring * nat)) :
  lookupCell k l = Some a -> In (k, a) l.
Proof.
  induction l as [|[k' b] l IH]; simpl; [discriminate|].
  destruct (streqb k k') eqn:E.
  - apply streqb_eq in E. intros H. injection H as <-. subst. now left.
  - intros H. right. auto.
Qed.

Lemma resolvesb_sound (sh : Sheet) (r : jsstring) : resolvesb sh r = true -> resolves sh r.
Proof.
  unfold resolvesb, resolves. destruct (Util.asRef (Util.Label r)) as [k|]; [|discriminate].
  destruct (lookupCell k (cells sh)) as [a|] eqn:E; [|discriminate].
  intros H. apply Nat.ltb_lt in H. now exists k, a.
Qed.

Lemma wfSheetb_sound (sh : Sheet) : wfSheetb sh = true -> wfSheet sh.
Proof.
  unfold wfSheetb. intros H. apply andb_true_iff in H as [H Ho].
  apply andb_true_iff in H as [Hc Hs]. split; [|split].
  - intros k a Hk. apply lookupCell_In in Hk. unfold wfCellsb in Hc.
    rewrite forallb_forall in Hc. specialize (Hc _ Hk). cbn beta iota in Hc.
    apply andb_true_iff in Hc as [Hc H3]. apply andb_true_iff in Hc as [H1 H2].
    apply Nat.ltb_lt in H1. apply streqb_eq in H2.
    destruct (Util.asRef (Util.Label k)) as [k'|]; [|discriminate].
    apply streqb_eq in H3. subst k'. auto.
  - intros a r Hr. destruct (cellAt_cases sh a) as [Ha | Ha].
    + rewrite forallb_forall in Hs. specialize (Hs _ Ha). rewrite forallb_forall in Hs.
      apply resolvesb_sound. now apply Hs.
    + rewrite Ha in Hr. contradiction.
  - now apply wfObserversb_sound.
Qed.

(** ** A write returns *)

Lemma value_eqb_eq (a b : Value) : value_eqb a b = true -> a = b.
Proof.
  destruct a, b; simpl; try discriminate; intros H; try reflexivity.
  - apply Z.eqb_eq in H. now subst.
  - apply streqb_eq in H. now subst.
Qed.

(** On a well-formed sheet the steps of an accepted write create cells
    in the cycle check only, and leave a sheet whose map and subjects are
    well formed. *)
Lemma acceptedWrite_wf (fuel : nat) (sh : Sheet) (this : nat) (v : Value)
  (visited : list jsstring) (shc sha shr : Sheet) :
  acceptedWrite fuel sh this v visited shc sha shr ->
  (this < length (objs sh))%nat -> wfSheet sh ->
  wfCells shr
  /\ (forall a r, In r (subjects (cellAt shr a)) -> resolves shr r)
  /\ value (cellAt shr this) = v
  /\ subjects (cellAt shr this) = newSubjectsOf v
  /\ (length (objs shr)
      <= length (objs sh) + length (newSubjectsOf v ++ allSubjects sh))%nat
  /\ (forall k a, lookupCell k (cells sh) = Some a -> lookupCell k (cells shr) = Some a).
Proof.
  intros (E & P & Hvis & Z & Ea & Er) Hthis Hwf.
  set (c := cellAt sh this) in *. set (ns := newSubjectsOf v) in *.
  set (sh0 := withCell sh this (startWrite v)) in *.
  assert (W0 : wfSheet sh0) by now apply wfSheet_withCell.
  assert (Wc : wfSheet shc) by now apply (visitPost_wfSheet (ref c) false visited sh0).
  assert (G : grown sh0 shc) by apply P.
  assert (L0 : length (objs sh0) = length (objs sh)) by apply withCell_length.
  assert (Lc := grown_length sh0 shc G).
  assert (Hns : forall r, In r ns -> resolves shc r).
  { intros r Hr. apply (visitPost_resolves (ref c) false visited sh0 shc r P); [apply W0|].
    now apply Hvis. }
  set (shf := withCell shc this (set_subjects ns)) in *.
  assert (Of : forall r, resolves shc r -> resolves shf r).
  { intros r (k & a & Hk & Ha & La). exists k, a. unfold shf. rewrite withCell_length. auto. }
  assert (Cf : wfCells shf).
  { intros k a Hk. destruct Wc as (Hc & _). destruct (Hc k a Hk) as (La & Hr & Hk').
    unfold shf. rewrite withCell_length. split; [assumption|]. split; [|assumption].
    destruct (Nat.eq_dec this a) as [<- | N].
    - now rewrite withCell_cellAt_eq by lia.
    - now rewrite withCell_cellAt_neq by assumption. }
  assert (Sf : forall a r, In r (subjects (cellAt shf a)) -> resolves shf r).
  { intros a r Hr. apply Of. unfold shf in Hr.
    destruct (Nat.eq_dec this a) as [<- | N].
    - rewrite withCell_cellAt_eq in Hr by lia. now apply Hns.
    - rewrite withCell_cellAt_neq in Hr by assumption. destruct Wc as (_ & Hs & _).
      now apply (Hs a). }
  assert (Hold : forall r, In r (subjects c) -> resolves shf r).
  { intros r Hr. apply Of. apply (grown_resolves sh0 shc r G).
    destruct Hwf as (_ & Hs & _). destruct (Hs this r Hr) as (k & a & Hk & Ha & La).
    exists k, a. unfold sh0. rewrite withCell_length. auto. }
  destruct (edgeLoop_resolved (registerIn (ref c)) (setDiff ns (subjects c))
              (registerIn_observersOnly (ref c)) shf) as (sha' & Ea' & Oa).
  { intros r Hr. apply setDiff_In in Hr as [Hr _]. apply Of. now apply Hns. }
  assert (sha' = sha) by congruence. subst sha'.
  destruct (edgeLoop_resolved (unregisterFrom (ref c)) (setDiff (subjects c) ns)
              (unregisterFrom_observersOnly (ref c)) sha) as (shr' & Er' & Or).
  { intros r Hr. apply setDiff_In in Hr as [Hr _].
    apply (observersOnly_resolves shf sha r Oa). now apply Hold. }
  assert (shr' = shr) by congruence. subst shr'.
  assert (O : observersOnly shf shr) by (eapply observersOnly_trans; eassumption).
  assert (O' := O). destruct O' as (Lr & Cr & _ & _).
  split; [|split; [|split; [|split; [|split]]]].
  - intros k a Hk. rewrite Cr in Hk. destruct (Cf k a Hk) as (La & Hr & Hk').
    rewrite Lr. split; [assumption|]. split; [|assumption].
    destruct (observersOnly_fields shf shr a O) as (-> & _). assumption.
  - intros a r Hr. apply (observersOnly_resolves shf shr r O).
    destruct (observersOnly_fields shf shr a O) as (_ & _ & Es & _). rewrite Es in Hr.
    now apply (Sf a).
  - destruct (observersOnly_fields shf shr this O) as (_ & -> & _).
    unfold shf. rewrite withCell_cellAt_eq by lia. cbn [value set_subjects].
    rewrite (grown_cellAt sh0 shc this G) by lia.
    unfold sh0. now rewrite withCell_cellAt_eq.
  - destruct (observersOnly_fields shf shr this O) as (_ & _ & -> & _).
    unfold shf. now rewrite withCell_cellAt_eq by lia.
  - rewrite Lr. unfold shf. rewrite withCell_length.
    unfold visitSize in Z. rewrite remaining_nil in Z. lia.
  - intros k a Hk. rewrite Cr. unfold shf. cbn [cells withCell].
    apply (grown_lookup sh0 shc k a G). exact Hk.
Qed.

Lemma cellAt_storedAs (sh : Sheet) (k : jsstring) (this a : nat) :
  cellAt (storedAs sh k this) a = cellAt sh a.
Proof. reflexivity. Qed.

Lemma lookup_storedAs (sh : Sheet) (k k' : jsstring) (this : nat) :
  lookupCell k' (cells (storedAs sh k this))
  = if streqb k' k then Some this else lookupCell k' (cells sh).
Proof. apply lookupCell_storeCell. Qed.

(** Storing a constructed cell under its label gives a well-formed sheet,
    when the only label that named no cell was that one. *)
Lemma storedAs_wf (sh : Sheet) (t : jsstring) (this : nat) :
  wfCells sh ->
  (forall a r, In r (subjects (cellAt sh a)) -> resolves sh r) ->
  (forall a r, In r (observers (cellAt sh a)) ->
     r = t \/ (Util.asRef (Util.Label r) = Some r
               /\ exists b, lookupCell r (cells sh) = Some b /\ ref (cellAt sh b) = r)) ->
  (this < length (objs sh))%nat -> ref (cellAt sh this) = t ->
  Util.asRef (Util.Label t) = Some t ->
  wfSheet (storedAs sh t this).
Proof.
  intros Hc Hs Ho Hthis Href Ht. split; [|split].
  - intros k a. rewrite lookup_storedAs, cellAt_storedAs.
    destruct (streqb k t) eqn:E.
    + apply streqb_eq in E. subst k. intros H. injection H as <-. auto.
    + apply Hc.
  - intros a r Hr. rewrite cellAt_storedAs in Hr.
    destruct (Hs a r Hr) as (k & b & Hk & Hb & Lb). exists k.
    destruct (streqb k t) eqn:E.
    + exists this. rewrite lookup_storedAs, E. auto.
    + exists b. rewrite lookup_storedAs, E. auto.
  - intros a r Hr. rewrite cellAt_storedAs in Hr.
    destruct (streqb r t) eqn:E.
    + apply streqb_eq in E. subst r. split; [assumption|].
      exists this. rewrite lookup_storedAs, streqb_refl. auto.
    + destruct (Ho a r Hr) as [-> | (Hk & b & Hb & Hrb)]; [now rewrite streqb_refl in E|].
      split; [assumption|]. exists b. rewrite lookup_storedAs, E. auto.
Qed.

Lemma wfObservers_or (sh : Sheet) (t : jsstring) :
  wfObservers sh ->
  forall a r, In r (observers (cellAt sh a)) ->
    r = t \/ (Util.asRef (Util.Label r) = Some r
              /\ exists b, lookupCell r (cells sh) = Some b /\ ref (cellAt sh b) = r).
Proof. intros H a r Hr. right. now apply (H a). Qed.

Section WriteReturns.

Variable eval : jsstring -> option Value.

(** A write returns: with fuel for its traversals, [setValue] on a cell of
    a well-formed sheet, stored or under construction, gives a sheet where
    the cell holds the new content; the sheet is well formed (once a cell
    under construction is stored). *)
Lemma setValue_total (fuel : nat) (sh : Sheet) (this : nat) (v : Value) :
  let c := cellAt sh this in
  (this < length (objs sh))%nat ->
  Util.asRef (Util.Label (ref c)) = Some (ref c) ->
  storedCell sh this \/ cellUnderConstruction sh this ->
  wfSheet sh ->
  (writeCost sh v < fuel)%nat ->
  exists sh',
    setValue eval fuel this v None sh = Ok (tt, sh')
    /\ value (cellAt sh' this) = v
    /\ ref (cellAt sh' this) = ref c
    /\ (this < length (objs sh'))%nat
    /\ (storedCell sh this -> wfSheet sh' /\ lookupCell (ref c) (cells sh') = Some this)
    /\ (cellUnderConstruction sh this -> wfSheet (storedAs sh' (ref c) this)).
Proof.
  intros c Hthis Ht Hcell Hwf Hfuel. unfold writeCost in Hfuel.
  assert (HwfS := wfSheet_wfSubjects sh Hwf).
  destruct (value_eqb (value c) v) eqn:Hv.
  { (* the content the cell has *)
    exists sh. split.
    { unfold setValue. rewrite (bind_ok _ _ _ _ _ (getCell_run this sh)).
      fold c. now rewrite Hv. }
    split; [now apply value_eqb_eq|]. split; [reflexivity|]. split; [assumption|].
    split; [intros Hst; now split|].
    intros (Hun & Hnone & Hobs). destruct Hwf as (Hc & Hs & Ho).
    apply storedAs_wf; auto. now apply wfObservers_or. }
  set (sh0 := withCell sh this (startWrite v)).
  assert (W0 : wfSheet sh0) by now apply wfSheet_withCell.
  assert (L0 : length (objs sh0) = length (objs sh)) by apply withCell_length.
  destruct (hasCircularDependency_spec (ref c) (newSubjectsOf v ++ allSubjects sh) fuel
              (newSubjectsOf v) [] sh0)
    as (b & visited & shc & E & P & L & T & Z).
  { intros a r. unfold sh0. rewrite withCell_subjects by reflexivity. apply HwfS. }
  { intros a. unfold sh0. rewrite withCell_subjects by reflexivity.
    apply allSubjects_within. apply incl_appr, incl_refl. }
  { apply newSubjectsOf_valid. }
  { apply incl_appl, incl_refl. }
  { rewrite remaining_nil. lia. }
  destruct b.
  - (* rejected *)
    assert (Hrefers : refersTo sh (ref c) (newSubjectsOf v)).
    { apply (refersTo_withCell_inv sh this (startWrite v)); [reflexivity | now apply T]. }
    destruct (setValue_rejected eval fuel sh this v Hthis HwfS Hv Hrefers ltac:(lia))
      as (visited' & sh1 & E' & P' & Eset).
    fold sh0 in E', P'. fold c in E', P'.
    assert (G : grown sh0 sh1) by apply P'.
    assert (L1 := grown_length sh0 sh1 G).
    assert (W1 : wfSheet sh1) by now apply (visitPost_wfSheet (ref c) true visited' sh0).
    assert (W : wfSheet (withCell sh1 this markCircular)) by now apply wfSheet_withCell.
    assert (Hcell' : cellAt (withCell sh1 this markCircular) this
                     = markCircular (startWrite v c)).
    { rewrite withCell_cellAt_eq by lia. rewrite (grown_cellAt sh0 sh1 this G) by lia.
      unfold sh0. now rewrite withCell_cellAt_eq. }
    exists (withCell sh1 this markCircular). split; [exact Eset|].
    rewrite Hcell'. split; [reflexivity|]. split; [reflexivity|].
    split; [rewrite withCell_length; lia|]. split.
    + intros Hst. split; [assumption|]. cbn [cells withCell].
      apply (grown_lookup sh0 sh1 _ _ G). exact Hst.
    + intros _. destruct W as (Hc & Hs & Ho).
      apply storedAs_wf; auto.
      * now apply wfObservers_or.
      * rewrite withCell_length. lia.
      * now rewrite Hcell'.
  - (* accepted *)
    assert (Hrefers : ~ refersTo sh (ref c) (newSubjectsOf v)).
    { destruct (L eq_refl) as [Hn Hi]. intros H.
      apply (visitPost_complete (ref c) (newSubjectsOf v) visited sh0 shc P Hn Hi).
      now apply refersTo_withCell. }
    destruct (setValue_accepted_trace eval fuel sh this v Hthis HwfS Hv Hrefers ltac:(lia))
      as (vis & shc' & sha & shr & Tr & S & Hkeep & Eset).
    fold c in S, Hkeep, Eset.
    destruct (acceptedWrite_wf fuel sh this v vis shc' sha shr Tr Hthis Hwf)
      as (Cr & Sr & Vr & Nr & Lr & Kr).
    assert (S' := S). destruct S' as (Ls & Fs & Os & Is & Ks & Ns).
    destruct (Fs this Hthis) as (Href & _ & _).
    assert (Hthisr : (this < length (objs shr))%nat) by lia.
    destruct Hcell as [Hst | Hcon].
    + (* a cell of the grid *)
      assert (Or : wfObservers shr).
      { destruct Hwf as (_ & _ & Ho).
        now apply (wfObservers_edgeSim (ref c) this sh shr). }
      assert (Wr : wfSheet shr) by (split; [assumption | split; assumption]).
      set (U := ref c :: allObservers sh).
      assert (HU : observersWithin U shr).
      { intros a x Hx. apply Is in Hx. destruct Hx as [<- | Hx]; [now left|].
        right. now apply (allObservers_within sh (allObservers sh) (incl_refl _) a). }
      destruct (descendantObservers_reach shr U Or HU fuel this) as (F & V1 & E1 & _).
      { now rewrite Href. }
      { rewrite Href. now apply Kr. }
      { simpl. lia. }
      destruct (evaluateValue_total eval fuel shr this F (wfSheet_closed shr Wr) Hthisr)
        as (sh' & Ev & Efrom).
      { assert (Hu := unevaluated_le shr). lia. }
      exists sh'. split.
      { rewrite Eset. erewrite bind_ok; [exact Ev|]. now rewrite (bind_ok _ _ _ _ _ E1). }
      assert (Efrom' := Efrom). destruct Efrom' as (Le & Ce & Fe).
      destruct (Fe this) as (Er' & Ev' & _).
      split; [congruence|]. split; [now rewrite Er', Href|]. split; [lia|]. split.
      * intros _. split; [now apply (evaluatedFrom_wfSheet shr)|].
        rewrite Ce. now apply Kr.
      * intros (Hun & Hnone & _). unfold storedCell in Hst. fold c in Hst. congruence.
    + (* a cell under construction *)
      destruct Hcon as (Hun & Hnone & Hobs). fold c in Hnone, Hobs.
      assert (Hobsr : observers (cellAt shr this) = []) by (rewrite (Hkeep Hun); exact Hobs).
      destruct fuel as [|fuel]; [lia|].
      assert (E1 := descendantObservers_alone fuel this shr Hobsr).
      destruct (evaluateValue_alone eval fuel shr this [ref (cellAt shr this)] Hthisr)
        as (sh' & Ev & Efrom).
      { intros r Hr. now apply (Sr this). }
      { exact Hobsr. }
      exists sh'. split.
      { rewrite Eset. erewrite bind_ok; [exact Ev|]. now rewrite (bind_ok _ _ _ _ _ E1). }
      assert (Efrom' := Efrom). destruct Efrom' as (Le & Ce & Fe).
      destruct (Fe this) as (Er' & Ev' & _).
      split; [congruence|]. split; [now rewrite Er', Href|]. split; [lia|]. split.
      * intros Hst. unfold storedCell in Hst. fold c in Hst. congruence.
      * intros _. apply storedAs_wf.
        -- intros k a Hk. rewrite Ce in Hk. destruct (Cr k a Hk) as (La & Hr & Hk').
           destruct (Fe a) as (-> & _). rewrite Le. auto.
        -- intros a r Hr. destruct (Fe a) as (_ & _ & Es & _). rewrite Es in Hr.
           apply (evaluatedFrom_resolves shr sh' r Efrom). now apply (Sr a).
        -- intros a r Hr. destruct (Fe a) as (_ & _ & _ & Eo & _). rewrite Eo in Hr.
           apply Is in Hr. destruct Hr as [<- | Hr]; [now left|]. right.
           destruct Hwf as (Hc & _ & Ho). destruct (Ho a r Hr) as (Hk & b & Hb & Hrb).
           split; [assumption|]. exists b. rewrite Ce. split; [now apply Kr|].
           destruct (Fe b) as (-> & _). destruct (Fs b) as (-> & _); [|assumption].
           now apply (Hc r b).
        -- lia.
        -- now rewrite Er', Href.
        -- assumption.
Qed.

End WriteReturns.

Lemma grown_allocated (sh : Sheet) (k : jsstring) : grown sh (allocated sh k).
Proof.
  split; [|split; [|split]]; simpl; auto.
  exists [blankCell k]. split; [reflexivity|]. constructor; [now exists k | constructor].
Qed.

Lemma allocated_wf (sh : Sheet) (k : jsstring) : wfSheet sh -> wfSheet (allocated sh k).
Proof.
  intros (Hc & Hs & Ho). assert (G := grown_allocated sh k).
  split; [|split].
  - intros x a Hx. destruct (Hc x a Hx) as (La & Hr & Hk).
    split; [simpl; rewrite length_app; simpl; lia|]. split; [|assumption].
    now rewrite (grown_cellAt sh _ a G La).
  - now apply (grown_subjects_resolve sh).
  - now apply (grown_wfObservers sh).
Qed.

Lemma allocated_new (sh : Sheet) (k : jsstring) :
  cellAt (allocated sh k) (length (objs sh)) = blankCell k.
Proof. unfold cellAt, allocated. simpl. now rewrite app_nth2, Nat.sub_diag by lia. Qed.

Lemma allocated_cost (sh : Sheet) (k : jsstring) (v : Value) :
  writeCost (allocated sh k) v = S (writeCost sh v).
Proof.
  unfold writeCost, allSubjects, allObservers, allocated. simpl.
  rewrite !map_app, !concat_app. cbn [map concat blankCell subjects observers].
  rewrite !app_nil_r, !length_app. cbn [length]. lia.
Qed.

Lemma allocated_underConstruction (sh : Sheet) (k : jsstring) :
  wfSheet sh -> lookupCell k (cells sh) = None ->
  cellUnderConstruction (allocated sh k) (length (objs sh)).
Proof.
  intros (Hc & _) Hk. unfold cellUnderConstruction.
  rewrite allocated_new. split; [|split; [exact Hk | reflexivity]].
  intros x Hx. simpl in Hx. destruct (Hc x _ Hx) as (La & _). lia.
Qed.

Section UpdateReturns.

Variable eval : jsstring -> option Value.

(** [updateOrCreateCell] returns: the cell stored under the label holds
    the content, and the sheet is well formed. *)
Lemma updateOrCreateCell_total (fuel : nat) (sh : Sheet) (r k : jsstring) (v : Value) :
  wfSheet sh -> Util.asRef (Util.Label r) = Some k ->
  (S (writeCost sh v) < fuel)%nat ->
  exists a sh',
    updateOrCreateCell eval fuel (Util.Label r) v None sh = Ok (a, sh')
    /\ lookupCell k (cells sh') = Some a
    /\ value (cellAt sh' a) = v
    /\ wfSheet sh'.
Proof.
  intros Hwf Hr Hfuel. unfold updateOrCreateCell.
  rewrite (bind_ok _ _ _ _ _ (findCell_run r k sh Hr)).
  destruct (lookupCell k (cells sh)) as [cell|] eqn:Hk.
  - assert (Hc := Hwf). destruct Hc as (Hc & _). destruct (Hc k cell Hk) as (La & Href & Hcan).
    destruct (setValue_total eval fuel sh cell v La) as (sh' & E & Hv & _ & _ & Hst & _).
    { now rewrite Href. }
    { left. unfold storedCell. now rewrite Href. }
    { assumption. }
    { lia. }
    destruct Hst as [W Hl]; [unfold storedCell; now rewrite Href|].
    exists cell, sh'. rewrite (bind_ok _ _ _ _ _ E). rewrite Href in Hl. auto.
  - rewrite Hr. cbn [defined]. rewrite (bind_ok _ _ sh sh k) by reflexivity.
    unfold newCell. rewrite (asRef_idem r k Hr). cbn [defined].
    set (this := length (objs sh)).
    assert (Hcon := allocated_underConstruction sh k Hwf Hk). fold this in Hcon.
    assert (Hnew := allocated_new sh k). fold this in Hnew.
    destruct (setValue_total eval fuel (allocated sh k) this v)
      as (sh' & E & Hv & Href & Lt & _ & Hun).
    { unfold allocated, this. simpl. rewrite length_app. simpl. lia. }
    { rewrite Hnew. simpl. now apply (asRef_idem r). }
    { now right. }
    { now apply allocated_wf. }
    { rewrite allocated_cost. lia. }
    rewrite Hnew in Href, Hun. simpl in Href, Hun.
    exists this, (storedAs sh' k this). split; [|split; [|split]].
    + erewrite bind_ok; [reflexivity|].
      rewrite (bind_ok _ _ sh sh k) by reflexivity.
      rewrite (bind_ok _ _ sh (allocated sh k) this) by reflexivity.
      now rewrite (bind_ok _ _ _ _ _ E).
    + rewrite lookup_storedAs. now rewrite streqb_refl.
    + exact Hv.
    + now apply Hun.
Qed.

End UpdateReturns.

(** ** The frontier of an accepted write *)




(** ** Texts as runs of word characters and separators *)

Lemma pieces_wf (s : jsstring) : wfPieces (pieces s).
Proof.
  induction s as [|c s IH]; simpl; [constructor|].
  destruct (isWordChar c) eqn:E; [|now constructor].
  destruct IH as [|c' ps Hc' Hps|r ps [Hr1 Hr2] Hn Hps].
  - constructor; [split; [discriminate | simpl; now rewrite E] | exact I | constructor].
  - constructor; [split; [discriminate | simpl; now rewrite E] | exact I | now constructor].
  - constructor; [split; [discriminate | simpl; now rewrite E, Hr2] | assumption..].
Qed.

Lemma unpieces_pieces (s : jsstring) : unpieces (pieces s) = s.
Proof.
  induction s as [|c s IH]; simpl; [reflexivity|].
  destruct (isWordChar c); [|simpl; now rewrite IH].
  unfold unpieces in *. destruct (pieces s) as [|[r|c'] ps]; simpl in *; now rewrite <- IH.
Qed.

Lemma noRunHead_stops (ps : list piece) :
  wfPieces ps -> noRunHead ps -> stopsWord (unpieces ps).
Proof.
  intros W H. destruct W as [|c ps Hc Hps|r ps Hr Hn Hps]; simpl in *; auto. contradiction.
Qed.

Lemma noRunHead_hd (ps : list piece) :
  noRunHead ps -> hd_error (unpieces ps) = nextSep ps.
Proof. destruct ps as [|[r|c] ps]; simpl; intros H; auto. contradiction. Qed.

Lemma pieces_sep (c : ascii) (s : jsstring) :
  isWordChar c = false -> pieces (c :: s) = Sep c :: pieces s.
Proof. intros H. simpl. now rewrite H. Qed.

Lemma pieces_run (r s : jsstring) :
  isRun r -> noRunHead (pieces s) -> pieces (r ++ s) = Run r :: pieces s.
Proof.
  intros [Hne Hall] Hs. induction r as [|c r IH]; [congruence|].
  simpl in *. apply andb_true_iff in Hall as [Hc Hr]. rewrite Hc.
  destruct r as [|c' r'].
  - simpl. destruct (pieces s) as [|[x|x] ps]; simpl in *; auto. contradiction.
  - rewrite IH by (auto; discriminate). reflexivity.
Qed.

Lemma stops_noRunHead (s : jsstring) : stopsWord s -> noRunHead (pieces s).
Proof.
  destruct s as [|c s]; simpl; intros H; [exact I|]. now rewrite H.
Qed.

Lemma pieces_app (a b : jsstring) :
  stopsWord b -> pieces (a ++ b) = pieces a ++ pieces b.
Proof.
  intros Hb. induction a as [|c a IH]; [reflexivity|].
  simpl. rewrite IH. destruct (isWordChar c); [|reflexivity].
  destruct (pieces a) as [|[r|c'] ps]; simpl; auto.
  assert (H := stops_noRunHead b Hb). destruct (pieces b) as [|[r|c'] ps]; simpl in *; auto.
  contradiction.
Qed.

Lemma pieces_of_run (r : jsstring) : isRun r -> pieces r = [Run r].
Proof.
  intros H. rewrite <- (app_nil_r r) at 1. now rewrite pieces_run.
Qed.

(** ** Replacing and scanning, run by run *)

Section RunMatcher.

Variable re : Regexp.
Variable d : option ascii -> jsstring -> option ascii -> bool.
Hypothesis Hre : runMatcher re d.

Lemma lastChar_app (prev : option ascii) (a b : jsstring) :
  lastChar prev (a ++ b) = lastChar (lastChar prev a) b.
Proof. revert prev. induction a as [|c a IH]; intros prev; simpl; auto. Qed.

Lemma lastChar_run (prev : option ascii) (r : jsstring) :
  isRun r -> isWordOpt (lastChar prev r) = true.
Proof.
  intros [Hne Hall]. revert prev. induction r as [|c r IH]; intros prev; [congruence|].
  simpl in *. apply andb_true_iff in Hall as [Hc Hr].
  destruct r as [|c' r']; [exact Hc|]. apply IH; [discriminate | assumption].
Qed.

Lemma replace_skip (v : jsstring) (a b : jsstring) (prev : option ascii) :
  replaceAllFrom re v (length a) prev (a ++ b)
  = replaceAllFrom re v 0 (lastChar prev a) b.
Proof.
  revert prev. induction a as [|c a IH]; intros prev; [reflexivity|]. simpl. apply IH.
Qed.

Lemma replace_inside (v : jsstring) (a b : jsstring) (prev : option ascii) :
  forallb isWordChar a = true -> isWordOpt prev = true ->
  replaceAllFrom re v 0 prev (a ++ b)
  = a ++ replaceAllFrom re v 0 (lastChar prev a) b.
Proof.
  revert prev. induction a as [|c a IH]; intros prev Ha Hp; [reflexivity|].
  simpl in *. apply andb_true_iff in Ha as [Hc Ha].
  rewrite (rm_inside re d Hre prev _ Hp). f_equal. now apply IH.
Qed.

Lemma replace_pieces (v : jsstring) (ps : list piece) :
  wfPieces ps ->
  forall prev, (noRunHead ps \/ isWordOpt prev = false) ->
  replaceAllFrom re v 0 prev (unpieces ps)
  = mapPieces (fun p r n => if d p r n then v else r) prev ps.
Proof.
  induction 1 as [|c ps Hc Hps IH|r ps Hr Hn Hps IH]; intros prev Hprev.
  - reflexivity.
  - simpl. rewrite (rm_sep re d Hre prev c _ Hc). f_equal. apply IH. right. simpl. exact Hc.
  - destruct Hprev as [[] | Hprev].
    assert (Hs := noRunHead_stops ps Hps Hn).
    assert (E := rm_run re d Hre prev r (unpieces ps) Hr Hs Hprev).
    rewrite (noRunHead_hd ps Hn) in E.
    cbn [mapPieces]. change (unpieces (Run r :: ps)) with (r ++ unpieces ps).
    destruct Hr as [Hne Hall]. destruct r as [|c r]; [congruence|].
    cbn [app replaceAllFrom]. cbn [app] in E. rewrite E.
    simpl in Hall. apply andb_true_iff in Hall as [Hc Hr].
    destruct (d prev (c :: r) (nextSep ps)).
    + cbn [length]. rewrite replace_skip. f_equal. apply IH. now left.
    + cbn [app]. f_equal. rewrite replace_inside by assumption. f_equal.
      apply IH. now left.
Qed.

Lemma matchAll_skip (a b : jsstring) (prev : option ascii) :
  matchAllFrom re (length a) prev (a ++ b) = matchAllFrom re 0 (lastChar prev a) b.
Proof.
  revert prev. induction a as [|c a IH]; intros prev; [reflexivity|]. simpl. apply IH.
Qed.

Lemma matchAll_inside (a b : jsstring) (prev : option ascii) :
  forallb isWordChar a = true -> isWordOpt prev = true ->
  matchAllFrom re 0 prev (a ++ b) = matchAllFrom re 0 (lastChar prev a) b.
Proof.
  revert prev. induction a as [|c a IH]; intros prev Ha Hp; [reflexivity|].
  simpl in *. apply andb_true_iff in Ha as [Hc Ha].
  rewrite (rm_inside re d Hre prev _ Hp). now apply IH.
Qed.

Lemma matchAll_pieces (ps : list piece) :
  wfPieces ps ->
  forall prev, (noRunHead ps \/ isWordOpt prev = false) ->
  matchAllFrom re 0 prev (unpieces ps) = filterPieces d prev ps.
Proof.
  induction 1 as [|c ps Hc Hps IH|r ps Hr Hn Hps IH]; intros prev Hprev.
  - reflexivity.
  - simpl. rewrite (rm_sep re d Hre prev c _ Hc). apply IH. right. simpl. exact Hc.
  - destruct Hprev as [[] | Hprev].
    assert (Hs := noRunHead_stops ps Hps Hn).
    assert (E := rm_run re d Hre prev r (unpieces ps) Hr Hs Hprev).
    rewrite (noRunHead_hd ps Hn) in E.
    cbn [filterPieces]. change (unpieces (Run r :: ps)) with (r ++ unpieces ps).
    destruct Hr as [Hne Hall]. destruct r as [|c r]; [congruence|].
    cbn [app matchAllFrom]. cbn [app] in E. rewrite E.
    simpl in Hall. apply andb_true_iff in Hall as [Hc Hr].
    destruct (d prev (c :: r) (nextSep ps)).
    + cbn [length]. rewrite matchAll_skip.
      change (c :: r ++ unpieces ps) with ((c :: r) ++ unpieces ps).
      rewrite (firstn_length_app (c :: r)). f_equal. apply IH. now left.
    + rewrite matchAll_inside by assumption. apply IH. now left.
Qed.

Lemma replaceRegexp_runs (text v : jsstring) :
  replaceRegexp text re v
  = mapPieces (fun p r n => if d p r n then v else r) None (pieces text).
Proof.
  unfold replaceRegexp. rewrite <- (unpieces_pieces text) at 1.
  apply replace_pieces; [apply pieces_wf | now right].
Qed.

Lemma textScan_runs (text : jsstring) :
  textScan text re = filterPieces d None (pieces text).
Proof.
  unfold textScan. rewrite <- (unpieces_pieces text) at 1.
  apply matchAll_pieces; [apply pieces_wf | now right].
Qed.

End RunMatcher.

(** ** The regular expressions of util.js match whole runs *)

Lemma takeWhile_app_stops (p : ascii -> bool) (r s : jsstring) :
  stops p s -> takeWhile p (r ++ s) = takeWhile p r.
Proof.
  intros H. induction r as [|c r IH]; simpl.
  - destruct s as [|c s]; simpl in *; [reflexivity | now rewrite H].
  - destruct (p c); [now rewrite IH | reflexivity].
Qed.

Lemma dropWhile_app_stops (p : ascii -> bool) (r s : jsstring) :
  stops p s -> dropWhile p (r ++ s) = dropWhile p r ++ s.
Proof.
  intros H. induction r as [|c r IH]; simpl.
  - destruct s as [|c s]; simpl in *; [reflexivity | now rewrite H].
  - destruct (p c); [exact IH | reflexivity].
Qed.

Lemma not_word_not_letter (c : ascii) : isWordChar c = false -> isLetter c = false.
Proof.
  intros H. destruct (isLetter c) eqn:E; [|reflexivity].
  apply isLetter_isWordChar in E. congruence.
Qed.

Lemma not_word_not_digit (c : ascii) : isWordChar c = false -> isDigit c = false.
Proof.
  intros H. destruct (isDigit c) eqn:E; [|reflexivity].
  apply isDigit_isWordChar in E. congruence.
Qed.

Lemma stopsWord_letter (s : jsstring) : stopsWord s -> stops isLetter s.
Proof. destruct s; simpl; auto using not_word_not_letter. Qed.

Lemma stopsWord_digit (s : jsstring) : stopsWord s -> stops isDigit s.
Proof. destruct s; simpl; auto using not_word_not_digit. Qed.

Lemma stopsWord_hd (s : jsstring) : stopsWord s -> isWordOpt (hd_error s) = false.
Proof. destruct s; simpl; auto. Qed.

Lemma lettersDigits_app (r s : jsstring) :
  stopsWord s ->
  lettersDigits (r ++ s)
  = match lettersDigits r with
    | Some (ls, ds, rest) => Some (ls, ds, rest ++ s)
    | None => None
    end.
Proof.
  intros H. unfold lettersDigits.
  rewrite (takeWhile_app_stops isLetter) by now apply stopsWord_letter.
  rewrite (dropWhile_app_stops isLetter) by now apply stopsWord_letter.
  rewrite (takeWhile_app_stops isDigit) by now apply stopsWord_digit.
  rewrite (dropWhile_app_stops isDigit) by now apply stopsWord_digit.
  destruct (_ && _); reflexivity.
Qed.

Lemma wordBoundary_run_start (prev : option ascii) (r s : jsstring) :
  isRun r -> isWordOpt prev = false -> wordBoundary prev (r ++ s) = true.
Proof.
  intros [Hne Hall] Hp. destruct r as [|c r]; [congruence|].
  simpl in Hall. apply andb_true_iff in Hall as [Hc _].
  unfold wordBoundary. simpl. now rewrite Hp, Hc.
Qed.

Lemma wordBoundary_inside (prev : option ascii) (s : jsstring) :
  isWordOpt prev = true -> wordBoundary prev s = negb (isWordOpt (hd_error s)).
Proof. intros H. unfold wordBoundary. now rewrite H. Qed.

Lemma lettersDigits_nonword (c : ascii) (s : jsstring) :
  isWordChar c = false -> lettersDigits (c :: s) = None.
Proof.
  intros H. unfold lettersDigits. simpl. now rewrite (not_word_not_letter c H).
Qed.

Lemma REF_REGEXP_runs : runMatcher REF_REGEXP (fun _ r _ => Util.isRef r).
Proof.
  constructor.
  - intros prev r s Hr Hs Hp. unfold REF_REGEXP, Util.isRef.
    rewrite (wordBoundary_run_start prev r s Hr Hp), (lettersDigits_app r s Hs).
    destruct (lettersDigits r) as [[[ls ds] rest]|] eqn:E; [|reflexivity].
    apply lettersDigits_inv in E as (Er & P & _ & _).
    rewrite wordBoundary_after_digits by apply P.
    destruct rest as [|c rest].
    + simpl. rewrite (stopsWord_hd s Hs). simpl. subst r.
      now rewrite app_nil_r, length_app.
    + destruct Hr as [_ Hall]. subst r.
      apply forallb_app_inv in Hall as [_ Hall]. apply forallb_app_inv in Hall as [_ Hall].
      simpl in Hall. apply andb_true_iff in Hall as [Hc _]. simpl. now rewrite Hc.
  - intros prev s Hp. unfold REF_REGEXP. rewrite (wordBoundary_inside prev s Hp).
    destruct s as [|c s]; [reflexivity|]. simpl.
    destruct (isWordChar c) eqn:E; [reflexivity|]. simpl.
    now rewrite lettersDigits_nonword.
  - intros prev c s Hc. unfold REF_REGEXP. rewrite (lettersDigits_nonword c s Hc).
    now destruct (wordBoundary _ _).
Qed.

Lemma prefixb_spec (w x : jsstring) :
  prefixb false w x = true <-> exists t, x = w ++ t.
Proof.
  revert x. induction w as [|c w IH]; intros x; simpl.
  - split; [intros _; now exists x | reflexivity].
  - destruct x as [|c' x].
    + split; [discriminate | intros [t H]; discriminate].
    + rewrite andb_true_iff, Ascii.eqb_eq, IH. split.
      * intros [-> [t ->]]. now exists t.
      * intros [t H]. injection H as -> ->. split; [reflexivity | now exists t].
Qed.

Lemma prefix_of_run (w r s t : jsstring) :
  forallb isWordChar w = true -> stopsWord s -> r ++ s = w ++ t ->
  exists u, r = w ++ u /\ t = u ++ s.
Proof.
  intros Hw Hs. revert r. induction w as [|c w IH]; intros r E.
  - exists r. now split.
  - simpl in Hw. apply andb_true_iff in Hw as [Hc Hw]. destruct r as [|c' r].
    + simpl in E. subst s. simpl in Hs. congruence.
    + simpl in E. injection E as -> E. destruct (IH Hw r E) as (u & -> & ->).
      now exists u.
Qed.

(** A literal word matches at the start of a run exactly when it is the
    run. *)
Lemma word_at_run (w r s : jsstring) (prev : option ascii) :
  isRun w -> isRun r -> stopsWord s ->
  prefixb false w (r ++ s)
  && wordBoundary (lastChar prev (firstn (length w) (r ++ s))) (skipn (length w) (r ++ s))
  = streqb r w.
Proof.
  intros Hw Hr Hs. destruct (streqb r w) eqn:E.
  - apply streqb_eq in E. subst r.
    replace (prefixb false w (w ++ s)) with true
      by (symmetry; apply prefixb_spec; now exists s).
    rewrite firstn_length_app, skipn_app, skipn_all, Nat.sub_diag. simpl.
    rewrite wordBoundary_inside by now apply lastChar_run.
    now rewrite (stopsWord_hd s Hs).
  - apply streqb_neq in E. destruct (prefixb false w (r ++ s)) eqn:Ep; [|reflexivity].
    apply prefixb_spec in Ep as [t Et].
    destruct (prefix_of_run w r s t ltac:(apply Hw) Hs Et) as (u & -> & ->).
    rewrite <- app_assoc, firstn_length_app, skipn_app, skipn_all, Nat.sub_diag. simpl.
    rewrite wordBoundary_inside by now apply lastChar_run.
    destruct u as [|c u]; [now rewrite app_nil_r in E|].
    destruct Hr as [_ Hall]. apply forallb_app_inv in Hall as [_ Hall].
    simpl in Hall. apply andb_true_iff in Hall as [Hc _]. simpl. now rewrite Hc.
Qed.

Lemma prefixb_nonword (w : jsstring) (c : ascii) (s : jsstring) :
  isRun w -> isWordChar c = false -> prefixb false w (c :: s) = false.
Proof.
  intros [Hne Hall] Hc. destruct w as [|c' w]; [congruence|]. simpl in *.
  apply andb_true_iff in Hall as [Hc' _].
  destruct (Ascii.eqb c' c) eqn:E; [|reflexivity].
  apply Ascii.eqb_eq in E. congruence.
Qed.

Lemma word_not_inside (w : jsstring) (prev : option ascii) (s : jsstring) :
  isRun w -> isWordOpt prev = true -> wordBoundary prev s && prefixb false w s = false.
Proof.
  intros Hw Hp. rewrite (wordBoundary_inside prev s Hp).
  destruct s as [|c s].
  - destruct Hw as [Hne _]. destruct w; [congruence | reflexivity].
  - simpl. destruct (isWordChar c) eqn:E; [reflexivity|]. simpl.
    now apply prefixb_nonword.
Qed.

Lemma wordRegexp_runs (w : jsstring) :
  isRun w -> runMatcher (wordRegexp false w) (fun _ r _ => streqb r w).
Proof.
  intros Hw. constructor.
  - intros prev r s Hr Hs Hp. unfold wordRegexp.
    rewrite (wordBoundary_run_start prev r s Hr Hp). cbn [andb].
    rewrite (word_at_run w r s prev Hw Hr Hs).
    destruct (streqb r w) eqn:E; [|reflexivity]. apply streqb_eq in E. now subst.
  - intros prev s Hp. unfold wordRegexp.
    now rewrite (word_not_inside w prev s Hw Hp).
  - intros prev c s Hc. unfold wordRegexp.
    rewrite (prefixb_nonword w c s Hw Hc). now rewrite andb_false_r.
Qed.


(** ** Copying a formula: every reference translated *)

Lemma mapPieces_noctx (f : jsstring -> jsstring) (prev : option ascii) (ps : list piece) :
  mapPieces (fun _ r _ => f r) prev ps = flat_map (pieceMap f) ps.
Proof.
  revert prev. induction ps as [|[r|c] ps IH]; intros prev; simpl; [reflexivity| |];
    now rewrite IH.
Qed.

Lemma replace_word (text w v : jsstring) :
  isRun w ->
  replaceRegexp text (wordRegexp false w) v
  = mapRuns (fun r => if streqb r w then v else r) text.
Proof.
  intros Hw. rewrite (replaceRegexp_runs _ _ (wordRegexp_runs w Hw)).
  apply (mapPieces_noctx (fun r => if streqb r w then v else r)).
Qed.

Lemma flat_map_stops (g : jsstring -> jsstring) (ps : list piece) :
  wfPieces ps -> noRunHead ps -> stopsWord (flat_map (pieceMap g) ps).
Proof.
  intros W H. destruct W as [|c ps Hc Hps|r ps Hr Hn Hps]; simpl in *; auto. contradiction.
Qed.

Lemma pieces_flat_map (g : jsstring -> jsstring) (ps : list piece) :
  wfPieces ps ->
  pieces (flat_map (pieceMap g) ps)
  = flat_map (fun p => match p with Run r => pieces (g r) | Sep c => [Sep c] end) ps.
Proof.
  induction 1 as [|c ps Hc Hps IH|r ps Hr Hn Hps IH]; [reflexivity| |].
  - cbn [flat_map pieceMap app]. rewrite pieces_sep by assumption. now rewrite IH.
  - cbn [flat_map pieceMap]. rewrite pieces_app by now apply flat_map_stops.
    now rewrite IH.
Qed.

Lemma flat_map_flat_map' {A B C} (f : B -> list C) (g : A -> list B) (l : list A) :
  flat_map f (flat_map g l) = flat_map (fun x => flat_map f (g x)) l.
Proof.
  induction l as [|x l IH]; simpl; [reflexivity|]. now rewrite flat_map_app, IH.
Qed.

Lemma flat_map_ext_In {A B} (f g : A -> list B) (l : list A) :
  (forall x, In x l -> f x = g x) -> flat_map f l = flat_map g l.
Proof.
  induction l as [|x l IH]; intros H; simpl; [reflexivity|].
  rewrite (H x) by now left. rewrite IH; [reflexivity|]. intros y Hy. apply H. now right.
Qed.

Lemma mapRuns_flat_map (f g : jsstring -> jsstring) (ps : list piece) :
  wfPieces ps ->
  mapRuns f (flat_map (pieceMap g) ps)
  = flat_map (fun p => match p with Run r => mapRuns f (g r) | Sep c => [c] end) ps.
Proof.
  intros W. unfold mapRuns. rewrite pieces_flat_map by assumption.
  rewrite flat_map_flat_map'. apply flat_map_ext_In. intros [r|c] _; simpl; auto.
Qed.

Lemma wfPieces_In_run (ps : list piece) (r : jsstring) :
  wfPieces ps -> In (Run r) ps -> isRun r.
Proof.
  induction 1 as [|c ps Hc Hps IH|r' ps Hr Hn Hps IH]; intros H; simpl in H.
  - contradiction.
  - destruct H as [H | H]; [discriminate | auto].
  - destruct H as [H | H]; [injection H as <-; assumption | auto].
Qed.

(** The characters of the pieces are those of the text. *)
Lemma pieces_forallb (P : ascii -> bool) (s : jsstring) (p : piece) :
  forallb P s = true -> In p (pieces s) -> forallb P (pieceText p) = true.
Proof.
  intros H Hp. rewrite <- (unpieces_pieces s) in H. unfold unpieces in H.
  induction (pieces s) as [|q ps IH]; [contradiction|].
  simpl in H. rewrite forallb_app in H. apply andb_true_iff in H as [H1 H2].
  destruct Hp as [<- | Hp]; auto.
Qed.

Lemma noUpper_toLowerCase (x : jsstring) : noUpper (toLowerCase x) = true.
Proof.
  induction x as [|c x IH]; simpl; [reflexivity|]. unfold noUpper in *. simpl.
  rewrite IH, andb_true_r. ascii_cases c; reflexivity.
Qed.

Lemma upper_lower_char (c : ascii) : upperChar (lowerChar c) = upperChar c.
Proof. ascii_cases c; reflexivity. Qed.

Lemma toUpperCase_toLowerCase (x : jsstring) : toUpperCase (toLowerCase x) = toUpperCase x.
Proof.
  unfold toUpperCase, toLowerCase. rewrite map_map. apply map_ext, upper_lower_char.
Qed.

Lemma upperLabel_run (w : jsstring) : isUpperLabel w -> isRun w.
Proof.
  intros (ls & ds & -> & (H1 & H2 & H3 & H4)). split.
  - destruct ls; [congruence | discriminate].
  - rewrite forallb_app. apply andb_true_iff. split.
    + apply (forallb_impl isUpper); [|assumption].
      intros c Hc. apply isLetter_isWordChar. now apply isUpper_isLetter.
    + apply (forallb_impl isDigit); [apply isDigit_isWordChar | assumption].
Qed.

Lemma upperLabel_upper (w : jsstring) : isUpperLabel w -> toUpperCase w = w.
Proof.
  intros (ls & ds & -> & (H1 & H2 & H3 & H4)).
  now rewrite toUpperCase_app, toUpperCase_upper, toUpperCase_digits.
Qed.

Lemma upperLabel_not_noUpper (w : jsstring) : isUpperLabel w -> noUpper w = false.
Proof.
  intros (ls & ds & -> & (H1 & H2 & H3 & H4)). destruct ls as [|c ls]; [congruence|].
  simpl in *. apply andb_true_iff in H2 as [Hc _]. unfold noUpper. simpl. now rewrite Hc.
Qed.

Lemma mapRuns_id_In (f : jsstring -> jsstring) (x : jsstring) :
  (forall r, In (Run r) (pieces x) -> f r = r) -> mapRuns f x = x.
Proof.
  intros H. unfold mapRuns. rewrite <- (unpieces_pieces x) at 2. unfold unpieces.
  apply flat_map_ext_In. intros [r|c] Hp; simpl; auto.
Qed.

Lemma mapRuns_sub_noUpper (w v x : jsstring) :
  isUpperLabel w -> noUpper x = true ->
  mapRuns (fun r => if streqb r w then v else r) x = x.
Proof.
  intros Hw Hx. apply mapRuns_id_In. intros r Hr.
  destruct (streqb r w) eqn:E; [|reflexivity].
  apply streqb_eq in E. subst r.
  assert (H := pieces_forallb _ x (Run w) Hx Hr). simpl in H.
  change (noUpper w = true) in H. rewrite (upperLabel_not_noUpper w Hw) in H. discriminate.
Qed.

Lemma mapRuns_run (f : jsstring -> jsstring) (r : jsstring) : isRun r -> mapRuns f r = f r.
Proof.
  intros H. unfold mapRuns. rewrite (pieces_of_run r H). simpl. apply app_nil_r.
Qed.

Lemma has_app (a b : list jsstring) (x : jsstring) : has (a ++ b) x = has a x || has b x.
Proof. unfold has. apply existsb_app. Qed.

Lemma copy_fold (g : jsstring -> jsstring) (ps : list piece) :
  wfPieces ps ->
  forall R R',
    (forall w, In w R -> isUpperLabel w) ->
    fold_left
      (fun acc '(ref, value) =>
         replaceRegexp acc (wordRegexp false (toUpperCase ref)) (toLowerCase value))
      (map (fun r => (r, g r)) R)
      (flat_map (pieceMap (copyStep g R')) ps)
    = flat_map (pieceMap (copyStep g (R' ++ R))) ps.
Proof.
  intros W. induction R as [|w R IH]; intros R' HR.
  - simpl. now rewrite app_nil_r.
  - cbn [map fold_left]. assert (Hw : isUpperLabel w) by (apply HR; now left).
    rewrite (upperLabel_upper w Hw).
    rewrite (replace_word _ w _ (upperLabel_run w Hw)).
    rewrite (mapRuns_flat_map _ _ ps W).
    replace (R' ++ w :: R) with ((R' ++ [w]) ++ R) by (now rewrite <- app_assoc).
    rewrite <- IH by (intros x Hx; apply HR; now right).
    f_equal. apply flat_map_ext_In. intros [r|c] Hp; [|reflexivity].
    cbn [pieceMap]. unfold copyStep. rewrite has_app.
    destruct (has R' r) eqn:E.
    + simpl. apply mapRuns_sub_noUpper; [assumption | apply noUpper_toLowerCase].
    + rewrite (mapRuns_run _ r (wfPieces_In_run ps r W Hp)). simpl.
      unfold has. simpl. rewrite orb_false_r.
      destruct (streqb r w) eqn:Ew; [|reflexivity].
      apply streqb_eq in Ew. now subst.
Qed.

Lemma filterPieces_In (q : jsstring -> bool) (ps : list piece) (prev : option ascii)
  (r : jsstring) :
  In r (filterPieces (fun _ r _ => q r) prev ps) <-> In (Run r) ps /\ q r = true.
Proof.
  revert prev. induction ps as [|[r'|c] ps IH]; intros prev; simpl.
  - tauto.
  - destruct (q r') eqn:E; simpl; rewrite IH; split.
    + intros [-> | [H1 H2]]; auto.
    + intros [[H | H] H2]; [left; congruence | auto].
    + intros [H1 H2]. auto.
    + intros [[H | H] H2]; [injection H as ->; congruence | auto].
  - rewrite IH. split; [intros [H1 H2]; auto | intros [[H | H] H2]; [discriminate | auto]].
Qed.

Lemma findRefs_has (text r : jsstring) :
  In (Run r) (pieces (toUpperCase text)) ->
  has (Util.findRefsInFormula text) r = Util.isRef r.
Proof.
  intros Hr. unfold Util.findRefsInFormula.
  rewrite (textScan_runs _ _ REF_REGEXP_runs).
  destruct (Util.isRef r) eqn:E.
  - apply has_In, newSet_In, filterPieces_In. now split.
  - apply has_not_In. intros H. apply newSet_In, filterPieces_In in H. destruct H. congruence.
Qed.

Lemma toUpperCase_flat_map (f : piece -> jsstring) (ps : list piece) :
  toUpperCase (flat_map f ps) = flat_map (fun p => toUpperCase (f p)) ps.
Proof.
  induction ps as [|p ps IH]; simpl; [reflexivity|]. now rewrite toUpperCase_app, IH.
Qed.

Lemma upper_fixed (s : jsstring) :
  forallb (fun c => Ascii.eqb (upperChar c) c) (toUpperCase s) = true.
Proof.
  induction s as [|c s IH]; simpl; [reflexivity|].
  now rewrite upperChar_idem, Ascii.eqb_refl, IH.
Qed.

Lemma upper_fixed_text (x : jsstring) :
  forallb (fun c => Ascii.eqb (upperChar c) c) x = true -> toUpperCase x = x.
Proof.
  induction x as [|c x IH]; simpl; intros H; [reflexivity|].
  apply andb_true_iff in H as [Hc Hx]. apply Ascii.eqb_eq in Hc. now rewrite Hc, IH.
Qed.

(** [templateReplaceForCopy] over the references of the formula itself: the
    upper-cased text, each reference replaced by its upper-cased new
    label. *)
Lemma templateReplaceForCopy_runs (text : jsstring) (g : jsstring -> jsstring) :
  Util.templateReplaceForCopy text (map (fun r => (r, g r)) (Util.findRefsInFormula text))
  = mapRuns (fun r => if Util.isRef r then toUpperCase (g r) else r) (toUpperCase text).
Proof.
  unfold Util.templateReplaceForCopy.
  set (ps := pieces (toUpperCase text)).
  assert (W : wfPieces ps) by apply pieces_wf.
  assert (E0 : toUpperCase text = flat_map (pieceMap (copyStep g [])) ps).
  { rewrite <- (unpieces_pieces (toUpperCase text)) at 1. unfold unpieces.
    apply flat_map_ext_In. intros [r|c] _; reflexivity. }
  rewrite E0 at 1.
  rewrite (copy_fold g ps W (Util.findRefsInFormula text) []).
  2:{ intros w Hw. apply findRefsInFormula_shape in Hw. exact Hw. }
  rewrite toUpperCase_flat_map. unfold mapRuns. fold ps.
  apply flat_map_ext_In. intros p Hp.
  assert (Hfix := pieces_forallb _ _ p (upper_fixed text) Hp).
  destruct p as [r|c]; simpl in *.
  - unfold copyStep. simpl. rewrite (findRefs_has text r Hp).
    destruct (Util.isRef r); [apply toUpperCase_toLowerCase | now apply upper_fixed_text].
  - rewrite andb_true_r in Hfix. apply Ascii.eqb_eq in Hfix. now rewrite Hfix.
Qed.

Lemma toUpperCase_asRefRC (r c : Z) :
  0 <= r -> toUpperCase (Util.asRefRC r c) = Util.asRefRC r c.
Proof.
  intros H. unfold Util.asRefRC. rewrite toUpperCase_app.
  rewrite toUpperCase_upper by apply ColumnFacts.colAsLabel_upper.
  now rewrite toUpperCase_digits by apply (String_digits r H).
Qed.


Lemma newRefForCopy_translate (r source target : jsstring) (sc tc : Util.Coords) :
  Util.asCoords (Util.Label source) = Some sc ->
  Util.asCoords (Util.Label target) = Some tc ->
  Util.asCoords (Util.Label r) <> None ->
  exists n,
    Util.newRefForCopy r source target = Some n
    /\ toUpperCase n
       = translateLabel (Util.row tc - Util.row sc) (Util.col tc - Util.col sc) r.
Proof.
  intros Hs Ht Hr. unfold Util.newRefForCopy, translateLabel.
  destruct (Util.asCoords (Util.Label r)) as [rc|]; [|congruence].
  rewrite Hs, Ht.
  destruct ((Util.row rc + (Util.row tc - Util.row sc) <? 1)
            || (Util.col rc + (Util.col tc - Util.col sc) <? 1)) eqn:E.
  - eexists. split; reflexivity.
  - eexists. split; [reflexivity|]. apply orb_false_iff in E as [E _].
    apply Z.ltb_ge in E. apply toUpperCase_asRefRC. lia.
Qed.

Lemma reduce_newRefs (source target : jsstring) (g : jsstring -> jsstring)
  (l : list jsstring) (sh : Sheet) :
  (forall r, In r l -> Util.newRefForCopy r source target = Some (g r)) ->
  forall acc,
    reduce l
      (fun acc r =>
         n <- defined (Util.newRefForCopy r source target) ;;
         ret (acc ++ [(r, n)]))
      acc sh
    = Ok (acc ++ map (fun r => (r, g r)) l, sh).
Proof.
  induction l as [|r l IH]; intros H acc; simpl.
  - now rewrite app_nil_r.
  - unfold bind at 1. unfold bind at 1. rewrite (H r) by now left. simpl.
    rewrite IH by (intros x Hx; apply H; now right). now rewrite <- app_assoc.
Qed.

Lemma mapRuns_ext (f g : jsstring -> jsstring) (text : jsstring) :
  (forall r, f r = g r) -> mapRuns f text = mapRuns g text.
Proof.
  intros H. unfold mapRuns. apply flat_map_ext_In. intros [r|c] _; simpl; auto.
Qed.

(** [copyTo] on a formula: the flags are cleared and the translated
    formula is written into the target. *)
Lemma copyTo_run (eval : jsstring -> option Value) (fuel : nat)
  (sh : Sheet) (this : nat) (targetRef text : jsstring) (sc tc : Util.Coords) :
  let c := cellAt sh this in
  value c = VStr text -> Util.isFormulaText text = true ->
  Util.asCoords (Util.Label (ref c)) = Some sc ->
  Util.asCoords (Util.Label targetRef) = Some tc ->
  copyTo eval fuel this targetRef sh
  = (resetEvaluated ;;
     updateOrCreateCell eval fuel (Util.Label targetRef)
       (VStr (copiedFormula (Util.row tc - Util.row sc) (Util.col tc - Util.col sc) text))
       None) sh.
Proof.
  intros c Hv Hf Hs Ht.
  unfold copyTo. rewrite (bind_ok _ _ _ _ _ (getCell_run this sh)). fold c.
  rewrite Hv. cbn [isFormula]. rewrite Hf.
  set (g := fun r => match Util.newRefForCopy r (ref c) targetRef with
                     | Some n => n | None => [] end).
  assert (Hg : forall r, In r (_extractCells text) ->
                 Util.newRefForCopy r (ref c) targetRef = Some (g r)
                 /\ toUpperCase (g r)
                    = translateLabel (Util.row tc - Util.row sc)
                        (Util.col tc - Util.col sc) r).
  { intros r Hr. destruct (newRefForCopy_translate r (ref c) targetRef sc tc Hs Ht)
      as (n & En & Hn).
    - apply validLabel_findRefs in Hr. unfold validLabel, Util.asRef in Hr.
      destruct (Util.asCoords (Util.Label r)); congruence.
    - unfold g. rewrite En. now split. }
  erewrite bind_ok.
  2:{ unfold asText. erewrite bind_ok by reflexivity.
      erewrite bind_ok; [reflexivity|].
      apply (reduce_newRefs (ref c) targetRef g). intros r Hr. now apply Hg. }
  cbn [app]. unfold _extractCells. rewrite templateReplaceForCopy_runs.
  unfold copiedFormula.
  assert (E : mapRuns (fun r => if Util.isRef r then toUpperCase (g r) else r)
                (toUpperCase text)
              = mapRuns (fun run => if Util.isRef run
                                    then translateLabel (Util.row tc - Util.row sc)
                                           (Util.col tc - Util.col sc) run
                                    else run) (toUpperCase text)).
  { unfold mapRuns. apply flat_map_ext_In. intros [r|x] Hp; [|reflexivity]. simpl.
    destruct (Util.isRef r) eqn:Er; [|reflexivity].
    apply Hg. unfold _extractCells. apply has_In. now rewrite findRefs_has. }
  now rewrite E.
Qed.

Section CopyReturns.

Variable eval : jsstring -> option Value.

(** A copy returns: the cell stored under the target's label holds the
    translated formula, and the sheet is well formed. *)
Lemma copyTo_total (fuel : nat) (sh : Sheet) (this : nat) (targetRef text : jsstring)
  (sc tc : Util.Coords) :
  let c := cellAt sh this in
  let copied := copiedFormula (Util.row tc - Util.row sc) (Util.col tc - Util.col sc) text in
  value c = VStr text -> Util.isFormulaText text = true ->
  Util.asCoords (Util.Label (ref c)) = Some sc ->
  Util.asCoords (Util.Label targetRef) = Some tc ->
  wfSheet sh -> (S (writeCost sh (VStr copied)) < fuel)%nat ->
  exists a sh',
    copyTo eval fuel this targetRef sh = Ok (a, sh')
    /\ lookupCell (Util.asRefRC (Util.row tc) (Util.col tc)) (cells sh') = Some a
    /\ value (cellAt sh' a) = VStr copied
    /\ wfSheet sh'.
Proof.
  intros c copied Hv Hf Hs Ht Hwf Hfuel.
  rewrite (copyTo_run eval fuel sh this targetRef text sc tc Hv Hf Hs Ht). destruct (resetEvaluated_total sh) as (sh0 & E0 & S0).
  rewrite (bind_ok _ _ _ _ _ E0).
  apply (updateOrCreateCell_total eval fuel sh0 targetRef).
  - now apply (sameContent_wfSheet sh).
  - unfold Util.asRef. now rewrite Ht.
  - now rewrite (sameContent_cost sh sh0 _ S0).
Qed.

End CopyReturns.

(** Within [2 ^ 53] a reference is translated on doubles as it is on
    integers. *)
Lemma newRefForCopy_safe (r source target : jsstring) (sc tc : Util.Coords) :
  Util.asCoords (Util.Label source) = Some sc -> safeCoords sc ->
  Util.asCoords (Util.Label target) = Some tc -> safeCoords tc ->
  safeTranslation sc tc r ->
  exists n,
    Util.newRefForCopy r source target = Some n
    /\ Float.newRefForCopy r source target = Float.Returns n.
Proof.
  intros Es Hs Et Ht (rc & Er & Hr & Hrow & Hcol).
  destruct (asCoords_Label_inv _ _ Es) as [Hs1 Hs2].
  destruct (asCoords_Label_inv _ _ Et) as [Ht1 Ht2].
  destruct (asCoords_Label_inv _ _ Er) as [Hr1 Hr2].
  unfold Util.newRefForCopy, Float.newRefForCopy. rewrite Er, Es, Et.
  rewrite (asCoords_safe _ _ Er Hr), (asCoords_safe _ _ Es Hs), (asCoords_safe _ _ Et Ht).
  cbn [Float.andThen]. unfold floatCoords. cbn [Float.row Float.col].
  destruct Hs as [Hs3 Hs4], Ht as [Ht3 Ht4], Hr as [Hr3 Hr4].
  rewrite !FloatFacts.sub_safe by lia. rewrite !FloatFacts.add_safe by lia.
  cbn [Float.ltb].
  destruct ((Util.row rc + (Util.row tc - Util.row sc) <? 1)
            || (Util.col rc + (Util.col tc - Util.col sc) <? 1)) eqn:E.
  - eexists. split; reflexivity.
  - apply orb_false_iff in E as [E1 E2]. apply Z.ltb_ge in E1, E2.
    eexists. split; [reflexivity|]. apply asRef_safe; lia.
Qed.

(** C7 (amended). Copy translation: for a cell whose content is a formula
    of ASCII characters, the source, the target and every reference of the
    formula, before and after its translation, having rows and columns up to
    [2 ^ 53], [copyTo target] translates every reference by the delta
    (target - source), on doubles as on integers, clears the [evaluated]
    flags and writes into the target the upper-cased formula in which every
    reference is so translated; a reference whose translated row or column
    is less than 1 is replaced by the placeholder, which the final
    upper-casing turns into "[INVALID REF]", the rest of the copy going on.
    On a well-formed sheet, the ranges of the copied formula expanding on
    doubles as on integers, the copy returns, and the cell stored under the
    target's label holds that formula.  "=A1+1" copied one row down and one
    column right (B2 to C3) is "=B2+1". *)
Theorem copy_translates_references (eval : jsstring -> option Value) (fuel : nat)
  (sh : Sheet) (this : nat) (targetRef text : jsstring) (sc tc : Util.Coords) :
  let c := cellAt sh this in
  let dr := Util.row tc - Util.row sc in
  let dc := Util.col tc - Util.col sc in
  let copied := copiedFormula dr dc text in
  value c = VStr text -> Util.isFormulaText text = true -> asciiText text ->
  Util.asCoords (Util.Label (ref c)) = Some sc -> safeCoords sc ->
  Util.asCoords (Util.Label targetRef) = Some tc -> safeCoords tc ->
  (forall r, In r (_extractCells text) -> safeTranslation sc tc r) ->
  (forall r, In r (_extractCells text) ->
     exists n,
       Float.newRefForCopy r (ref c) targetRef = Float.Returns n
       /\ toUpperCase n = translateLabel dr dc r)
  /\ copyTo eval fuel this targetRef sh
     = (resetEvaluated ;;
        updateOrCreateCell eval fuel (Util.Label targetRef) (VStr copied) None) sh
  /\ (wfSheet sh ->
      (forall range, In range (textScan copied RANGE_REGEXP) -> safeRange range) ->
      (S (writeCost sh (VStr copied)) < fuel)%nat ->
      exists a sh',
        copyTo eval fuel this targetRef sh = Ok (a, sh')
        /\ lookupCell (Util.asRefRC (Util.row tc) (Util.col tc)) (cells sh') = Some a
        /\ value (cellAt sh' a) = VStr copied
        /\ wfSheet sh')
  /\ copiedFormula 1 1 (str "=A1+1") = str "=B2+1"
  /\ copiedFormula (-1) (-1) (str "=A1+b2") = str "=[INVALID REF]+A1".
Proof.
  intros c dr dc copied Hv Hf Hascii Hs Hss Ht Hts Hsafe.
  split; [|split; [|split; [|split; reflexivity]]].
  - intros r Hr.
    destruct (newRefForCopy_safe r (ref c) targetRef sc tc Hs Hss Ht Hts (Hsafe r Hr))
      as (n & En & Ef).
    destruct (newRefForCopy_translate r (ref c) targetRef sc tc Hs Ht) as (n' & En' & Hn').
    { destruct (Hsafe r Hr) as (rc & Er & _). rewrite Er. discriminate. }
    exists n. split; [exact Ef|]. rewrite En in En'. injection En' as <-. exact Hn'.
  - now apply copyTo_run.
  - intros Hwf _ Hfuel. now apply copyTo_total.
Qed.

Lemma copy_translates_references_witness :
  exists a sh',
    copyTo evalArith 10 0 (str "C3") sheetB2 = Ok (a, sh')
    /\ lookupCell (str "C3") (cells sh') = Some a
    /\ value (cellAt sh' a) = VStr (str "=B2+1")
    /\ wfSheet sh'.
Proof.
  destruct (copy_translates_references evalArith 10 sheetB2 0 (str "C3") (str "=A1+1")
              {| Util.row := 2; Util.col := 2 |} {| Util.row := 3; Util.col := 3 |})
    as (_ & _ & T & _); try reflexivity.
  - split; vm_compute; discriminate.
  - split; vm_compute; discriminate.
  - intros r Hr. vm_compute in Hr. destruct Hr as [<- | []].
    exists {| Util.row := 1; Util.col := 1 |}. split; [reflexivity|].
    split; [split; vm_compute; discriminate|]. split; vm_compute; discriminate.
  - apply T.
    + apply wfSheetb_sound. reflexivity.
    + intros range Hr. vm_compute in Hr. contradiction.
    + vm_compute. lia.
Defined.

(** C7 as stated fails on the text of the placeholder: copying B2 = "=A1+1"
    to A1 moves the reference A1 to row 0, and the content written is
    "=[INVALID REF]+1", not "=[invalid ref]+1". *)
Lemma copy_placeholder_counterexample :
  exists a sh',
    copyTo evalArith 10 0 (str "A1") sheetB2 = Ok (a, sh')
    /\ value (cellAt sh' a) = VStr (str "=[INVALID REF]+1")
    /\ value (cellAt sh' a) <> VStr (str "=[invalid ref]+1")
    /\ Float.newRefForCopy (str "A1") (str "B2") (str "A1") = Float.Returns (str "[invalid ref]").
Proof.
  eexists. eexists. split; [vm_compute; reflexivity|].
  split; [reflexivity|]. split; [vm_compute; discriminate | vm_compute; reflexivity].
Qed.

(** ** Moving a cell: ranges and standalone references *)




Lemma wholeRangeMoved_true (rows : list (list jsstring)) (sourceRefs : list jsstring) :
  wholeRangeMoved rows sourceRefs = true
  <-> forall c, In c (concat rows) -> In c sourceRefs.
Proof.
  unfold wholeRangeMoved. rewrite Z.eqb_eq. split.
  - intros H c Hc. destruct (has sourceRefs c) eqn:E; [now apply has_In|].
    apply has_not_In in E. exfalso.
    assert (Hd : In c (setDiff (newSet (concat rows)) (newSet sourceRefs))).
    { apply setDiff_In. rewrite !newSet_In. now split. }
    destruct (setDiff _ _); [contradiction | simpl in H; lia].
  - intros H. destruct (setDiff _ _) as [|c l] eqn:E; [reflexivity|]. exfalso.
    assert (Hd : In c (setDiff (newSet (concat rows)) (newSet sourceRefs)))
      by (rewrite E; now left).
    apply setDiff_In in Hd. rewrite !newSet_In in Hd. destruct Hd as [H1 H2]. auto.
Qed.

Lemma wholeRangeMoved_false (rows : list (list jsstring)) (sourceRefs : list jsstring) :
  (exists c, In c (concat rows) /\ ~ In c sourceRefs) ->
  wholeRangeMoved rows sourceRefs = false.
Proof.
  intros (c & Hc & Hn). destruct (wholeRangeMoved rows sourceRefs) eqn:E; [|reflexivity].
  exfalso. apply Hn. now apply (proj1 (wholeRangeMoved_true rows sourceRefs) E).
Qed.




Lemma moveRange_steps_unchanged (thisRef targetRef : jsstring) (sourceRefs : list jsstring)
  (ranges : list jsstring) (v : jsstring) :
  (forall range, In range ranges ->
     exists rows, Util.expandRange range = Some rows
                  /\ exists c, In c (concat rows) /\ ~ In c sourceRefs) ->
  fold_left
    (fun acc range =>
       match acc with
       | Some v => moveRange thisRef targetRef sourceRefs v range
       | None => None
       end)
    ranges (Some v)
  = Some v.
Proof.
  induction ranges as [|range ranges IH]; intros H; [reflexivity|].
  cbn [fold_left]. destruct (H range (or_introl eq_refl)) as (rows & E & Hc).
  unfold moveRange at 2. rewrite E.
  fold (wholeRangeMoved rows sourceRefs). rewrite (wholeRangeMoved_false rows sourceRefs Hc).
  apply IH. intros r Hr. apply H. now right.
Qed.

(** ** Moving a cell: every range rewritten as a whole *)







(** *** A literal range matches a run, a colon and a run *)




Lemma lastChar_app_run (prev : option ascii) (a b : jsstring) :
  b <> [] -> lastChar prev (a ++ b) = lastChar None b.
Proof.
  intros Hb. rewrite lastChar_app. destruct b as [|c b]; [congruence|]. reflexivity.
Qed.







(** *** The pieces of a rewritten text *)





(** *** Runs that stand between no two colons *)






(** *** Rewriting twice *)










(** *** The loop of moveTo over the ranges *)











(** *** The ranges the scan finds *)










Lemma rangeIn_runs (x y : jsstring) (ps : list piece) :
  wfPieces ps -> rangeIn x y ps -> isRun x /\ isRun y.
Proof.
  intros W (pre & rest & ->). split.
  - apply (wfPieces_In_run _ x W). apply in_or_app. right. now left.
  - apply (wfPieces_In_run _ y W). apply in_or_app. right. right. right. now left.
Qed.







(** Outside the amended statement: [moveTo] replaces the ranges of a
    formula one after the other, so a range whose new text is another range
    of the formula is translated a second time.  Moving A1..A5 three rows
    down, "=SUM(A1:A2)+SUM(A4:A5)" becomes "=SUM(A7:A8)+SUM(A7:A8)", where
    every range rewritten once gives "=SUM(A4:A5)+SUM(A7:A8)". *)
Lemma move_translates_landed_range_twice :
  let moved := [str "A1"; str "A2"; str "A3"; str "A4"; str "A5"] in
  movedObserverValue (str "A1") (str "A4") moved (str "=SUM(A1:A2)+SUM(A4:A5)")
  = Some (str "=SUM(A7:A8)+SUM(A7:A8)")
  /\ movedFormula (str "A1") (str "A4") 3 0 moved (str "=SUM(A1:A2)+SUM(A4:A5)")
     = str "=SUM(A4:A5)+SUM(A7:A8)".
Proof. split; vm_compute; reflexivity. Qed.
